(** * ffeimg: the trajectory engine of [bin/ffe.py]

    A shallow embedding of the geometric core of [ffe.py] (zone locator,
    gradient and shortest-path tracers, width profiler, comparator/merger and
    query interface), followed by the properties of the specification that
    were checked against it.

    Conventions of the embedding
    - Python [int] values are [Z]; indices that the code obtains from
      [xrange]/[len] are [nat]. Pixels are [Z] as well, whatever the width of
      the image type.
    - Python and numpy [float] values live in an abstract carrier [F] with the
      operations of the class [Float64Ops]; an int that meets a float in an
      operation enters through [f_of_Z]. Nothing is assumed about rounding
      unless a theorem states the law it needs as a hypothesis.
    - [f_trunc] is [int(x)] on a float that is neither NaN nor infinite. On
      NaN and on an infinity Python raises a [ValueError] or an
      [OverflowError] instead; a theorem that tells which results or
      exceptions a call can have therefore assumes, where a float argument
      reaches [int], that the value so converted is neither.
    - A Python exception is a value [Raise e] of the [result] monad.
    - The arguments have the types that the functions test for with
      [type(...) is ...]; the branches that answer a wrong type are left out.
      The global [debugmode] is [False], as it is unless the caller turns it
      on, so logging, plotting and window calls are left out too.
    - OpenCV, NumPy and SciPy routines whose code is not part of the
      repository and that do more than index and sum arrays
      ([cv2.contourArea], [cv2.fillPoly], [numpy.linspace],
      [scipy.signal.argrelextrema], the FITPACK splines) are the fields of the
      class [Extern]. *)

From Stdlib Require Import ZArith QArith Qabs List Bool Lia.
From stdpp Require Import base list gmap sorting.

Open Scope Z_scope.

(** ** Floating point interface *)

Class Float64Ops (F : Type) := {
  f_of_Z : Z -> F;            (* float(n), and int operands of mixed arithmetic *)
  f_of_Q : Q -> F;            (* a decimal literal of the source, as 0.1 *)
  f_add : F -> F -> F;
  f_sub : F -> F -> F;
  f_mul : F -> F -> F;
  f_div : F -> F -> F;
  f_neg : F -> F;             (* -x *)
  f_eqb : F -> F -> bool;     (* == *)
  f_ltb : F -> F -> bool;     (* <  *)
  f_leb : F -> F -> bool;     (* <= *)
  f_trunc : F -> Z;           (* int(x): truncation toward zero, for x neither
                                 NaN nor infinite *)
  f_norm : F -> F -> F;       (* np.linalg.norm of a pair, cdist 'euclidean' *)
  f_hypot : F -> F -> F;      (* math.hypot, np.hypot *)
  f_exp : F -> F;             (* math.exp *)
  f_round1 : F -> F;          (* round(x, 1) *)
  f_round0 : F -> F;          (* round(x) *)
  f_abs : F -> F;             (* abs(x) *)
  f_is_nan_or_inf : F -> bool (* math.isnan(x) or math.isinf(x) *)
}.

(** A number that Python holds either as an [int] or as a [float]: the width
    of a trajectory point is the int [10] out of a tracer and a float out of
    the width profiler. *)
Inductive pynum (F : Type) : Type :=
| PInt (z : Z)
| PFloat (f : F).
Arguments PInt {F} z.
Arguments PFloat {F} f.

(** ** Exceptions *)

Inductive exn : Type :=
| IndexError
| ValueError
| ZeroDivisionError
| StopIteration
| FitpackError.

(** The outcome of a call: a value, an exception, or [Diverge] where a loop
    of the source whose termination is not established here has not stopped
    within the bound that the embedding puts on it. *)
Inductive result (A : Type) : Type :=
| Ok (a : A)
| Raise (e : exn)
| Diverge.
Arguments Ok {A} a.
Arguments Raise {A} e.
Arguments Diverge {A}.

Definition rbind {A B : Type} (r : result A) (k : A -> result B) : result B :=
  match r with
  | Ok a => k a
  | Raise e => Raise e
  | Diverge => Diverge
  end.

Notation "'let*' x ':=' r 'in' k" := (rbind r (fun x => k))
  (at level 10, x pattern, r at level 100, k at level 200).

Definition of_option {A : Type} (e : exn) (o : option A) : result A :=
  match o with
  | Some a => Ok a
  | None => Raise e
  end.

(** A call that yields a value or an exception. *)
Definition terminates {A : Type} (r : result A) : Prop := r <> Diverge.

(** ** NumPy arrays *)

(** A two-dimensional integer array as the list of its rows. *)
Abbreviation array2 := (list (list Z)).

Definition nrows (a : array2) : nat := length a.
Definition ncols (a : array2) : nat := length (default [] (head a)).

(** [a.size] *)
Definition size2 (a : array2) : nat := (nrows a * ncols a)%nat.

(** [np.zeros((h, w))] *)
Definition zeros (h w : nat) : array2 := replicate h (replicate w 0).

(** An index into an axis of length [n]: negative indices count from the
    end, anything outside [-n, n) is an [IndexError]. *)
Definition axis_index (n : nat) (i : Z) : option nat :=
  if (0 <=? i) && (i <? Z.of_nat n) then Some (Z.to_nat i)
  else if (- Z.of_nat n <=? i) && (i <? 0) then Some (Z.to_nat (i + Z.of_nat n))
  else None.

(** [a[y, x]] *)
Definition get2 (a : array2) (y x : Z) : result Z :=
  match axis_index (nrows a) y, axis_index (ncols a) x with
  | Some r, Some c =>
      match a !! r with
      | Some row => of_option IndexError (row !! c)
      | None => Raise IndexError
      end
  | _, _ => Raise IndexError
  end.

(** [a[y, x] = v] *)
Definition set2 (a : array2) (y x : Z) (v : Z) : result array2 :=
  match axis_index (nrows a) y, axis_index (ncols a) x with
  | Some r, Some c => Ok (alter (fun row => <[c := v]> row) r a)
  | _, _ => Raise IndexError
  end.

(** A bound of the slice [l[start:stop]] on an axis of length [n]: negative
    bounds count from the end, and both are clipped to the axis. *)
Definition slice_bound (n : nat) (i : Z) : nat :=
  if i <? 0 then Z.to_nat (Z.max 0 (i + Z.of_nat n))
  else Z.to_nat (Z.min i (Z.of_nat n)).

(** [l[start:stop]] *)
Definition slice1 {A : Type} (l : list A) (start stop : Z) : list A :=
  let s := slice_bound (length l) start in
  let e := slice_bound (length l) stop in
  take (e - s) (drop s l).

(** [a[y0:y1, x0:x1]] *)
Definition slice2 (a : array2) (y0 y1 x0 x1 : Z) : array2 :=
  map (fun row => slice1 row x0 x1) (slice1 a y0 y1).

(** [a.sum()] *)
Definition sum2 (a : array2) : Z :=
  fold_left (fun acc row => fold_left Z.add row acc) a 0.

(** [a.max()]: a [ValueError] on an array without elements. *)
Definition max2 (a : array2) : result Z :=
  match concat a with
  | [] => Raise ValueError
  | v :: rest => Ok (fold_left Z.max rest v)
  end.

(** [np.transpose(np.where(cond))]: the [row, column] pairs of the elements
    that satisfy [cond], row by row. *)
Fixpoint where_row (cond : Z -> bool) (r c : Z) (row : list Z) : list (Z * Z) :=
  match row with
  | [] => []
  | v :: row' =>
      (if cond v then [(r, c)] else []) ++ where_row cond r (c + 1) row'
  end.

Fixpoint where_rows (cond : Z -> bool) (r : Z) (rows : array2) : list (Z * Z) :=
  match rows with
  | [] => []
  | row :: rows' => where_row cond r 0 row ++ where_rows cond (r + 1) rows'
  end.

Definition where2 (cond : Z -> bool) (a : array2) : list (Z * Z) :=
  where_rows cond 0 a.

(** Storing into an [int32] array wraps around. *)
Definition to_int32 (z : Z) : Z := (z + 2147483648) mod 4294967296 - 2147483648.

(** A loop whose body may raise. *)
Fixpoint foldM {A B : Type} (f : B -> A -> result B) (l : list A) (b : B)
  : result B :=
  match l with
  | [] => Ok b
  | a :: l' => let* b' := f b a in foldM f l' b'
  end.

(** [xrange(n)] *)
Definition xrange (n : Z) : list Z := seqZ 0 n.

(** The density image that [findPathOnImage] and [findWidthOfTrajectory]
    compute: at each pixel that is at least [densityrad] away from the border
    and is not zero, the sum of the [2 densityrad] x [2 densityrad] block whose
    corner lies [densityrad] up and left of the pixel. *)
Definition density_image (image : array2) (densityrad : Z) : result array2 :=
  let height := Z.of_nat (nrows image) in
  let width := Z.of_nat (ncols image) in
  foldM (fun densityimage x =>
    foldM (fun densityimage y =>
      let* v := get2 image (y + densityrad) (x + densityrad) in
      if negb (v =? 0) then
        set2 densityimage (y + densityrad) (x + densityrad)
             (to_int32 (sum2 (slice2 image y (y + 2 * densityrad)
                                           x (x + 2 * densityrad))))
      else Ok densityimage)
      (xrange (height - 2 * densityrad)) densityimage)
    (xrange (width - 2 * densityrad))
    (zeros (nrows image) (ncols image)).

(** Every row has the number of columns of the array, as in a NumPy array. *)
Definition rectangular (a : array2) : Prop :=
  Forall (fun row => length row = ncols a) a.

(** An [h] x [w] array whose element [0, 0] is zero. *)
Definition corner_zero (h w : nat) (d : array2) : Prop :=
  length d = h /\ Forall (fun row => length row = w) d
  /\ exists row, d !! 0%nat = Some row /\ row !! 0%nat = Some 0.

(** ** Routines of OpenCV, NumPy and SciPy that the repository calls *)

Class Extern (F : Type) := {
  (* cv2.contourArea(contour) *)
  contourArea : list (Z * Z) -> F;
  (* cv2.fillPoly(image, [polygon], colour) on a black [height] x [width]
     canvas: [fillPoly height width polygon y x] tells whether pixel (x, y)
     received the colour. *)
  fillPoly : Z -> Z -> list (Z * Z) -> Z -> Z -> bool;
  (* np.linspace(start, stop, num) *)
  linspace : F -> F -> Z -> list F;
  (* scipy.signal.argrelextrema(data, np.less_equal, order=order)[0] *)
  argrelextrema_le : list Z -> Z -> list Z;
  (* scipy.interpolate.UnivariateSpline(range(len(v)), v, ext=1).roots() *)
  spline_roots : list Z -> result (list F);
  (* scipy.interpolate.InterpolatedUnivariateSpline(xs, ys, ext=3)(x) for the
     data points [(x, y)] *)
  interpolating_spline : list (Z * Z) -> F -> result F;
  (* scipy.interpolate.UnivariateSpline(xs, ys, ext=3) for the data points
     [(x, y)]: whether the fit recorded a warning, and the fitted function *)
  smoothing_spline : list (Z * Z) -> result (bool * (F -> F))
}.

(** ** Zone geometry locator *)

Section Locator.
Context {F : Type} {FO : Float64Ops F} {EX : Extern F}.

Definition contour : Type := list (Z * Z).

(** One row [(next, previous, first child, parent)] of [hierarchy[0]]. *)
Definition hierarchy_entry : Type := Z * Z * Z * Z.

Definition h_child (e : hierarchy_entry) : Z := snd (fst e).
Definition h_parent (e : hierarchy_entry) : Z := snd e.

#[global] Instance hierarchy_entry_inhabited : Inhabited hierarchy_entry :=
  populate (0, 0, 0, 0).

(** The tests on the outer contour [i]: [None] where the loop continues with
    the next contour, otherwise the area that the children are compared with. *)
Definition candidate_area (contours : list contour)
    (hierarchy : list hierarchy_entry) (threshold : F) (i : nat) : option F :=
  if negb (h_parent (hierarchy !!! i) =? -1) then None
  else if h_child (hierarchy !!! i) =? -1 then None
  else
    let areaparent := contourArea (contours !!! i) in
    let areaparent := if f_eqb areaparent (f_of_Z 0) then f_of_Z 1 else areaparent in
    if f_ltb areaparent threshold then None
    else Some areaparent.

(** The tests on contour [j] as a child of [i]: [true] where the loop returns
    [(i, j)]. *)
Definition accepts_child (contours : list contour)
    (hierarchy : list hierarchy_entry) (threshold threshratio variance : F)
    (i : nat) (areaparent : F) (j : nat) : bool :=
  if negb (h_parent (hierarchy !!! j) =? Z.of_nat i) then false
  else
    let areachild := contourArea (contours !!! j) in
    if f_ltb areachild threshold then false
    else
      let ratio := f_round1 (f_div areachild areaparent) in
      f_leb (f_sub threshratio variance) ratio
      && f_leb ratio (f_add threshratio variance).

(** [for j in xrange(count)] from [start]: the first index passing [p]. *)
Fixpoint first_index (p : nat -> bool) (start count : nat) : option nat :=
  match count with
  | O => None
  | S count' =>
      if p start then Some start else first_index p (S start) count'
  end.

(** [for i in xrange(len(contours))], from contour [i] with [count] left. *)
Fixpoint scan_contours (contours : list contour)
    (hierarchy : list hierarchy_entry) (threshold threshratio variance : F)
    (i count : nat) : Z * Z :=
  match count with
  | O => (-1, -1)
  | S count' =>
      match candidate_area contours hierarchy threshold i with
      | None =>
          scan_contours contours hierarchy threshold threshratio variance
                        (S i) count'
      | Some areaparent =>
          match first_index
                  (accepts_child contours hierarchy threshold threshratio
                                 variance i areaparent)
                  0 (length contours) with
          | Some j => (Z.of_nat i, Z.of_nat j)
          | None =>
              scan_contours contours hierarchy threshold threshratio variance
                            (S i) count'
          end
      end
  end.

(** [hierarchy] is [hierarchy[0]] of the array that [cv2.findContours]
    returns. All indices stay below the common length, so no access can fail. *)
Definition findSeparationZoneBoundaries (contours : list contour)
    (hierarchy : list hierarchy_entry) (threshold threshratio variance : F)
  : Z * Z :=
  if negb (length contours =? length hierarchy)%nat then (-1, -1)
  else scan_contours contours hierarchy threshold threshratio variance
                     0 (length contours).

(** The pairs that the loops accept. *)
Definition zone_pair (contours : list contour)
    (hierarchy : list hierarchy_entry) (threshold threshratio variance : F)
    (i j : nat) : bool :=
  match candidate_area contours hierarchy threshold i with
  | Some areaparent =>
      accepts_child contours hierarchy threshold threshratio variance
                    i areaparent j
  | None => false
  end.

(** The pairs that the specification describes: a parentless contour of area
    at least the threshold with a child whose area ratio lies within the
    tolerance of the target ratio. *)
Definition described_pair (contours : list contour)
    (hierarchy : list hierarchy_entry) (threshold threshratio variance : F)
    (i j : nat) : bool :=
  (h_parent (hierarchy !!! i) =? -1)
  && f_leb threshold (contourArea (contours !!! i))
  && (h_parent (hierarchy !!! j) =? Z.of_nat i)
  && f_leb (f_sub threshratio variance)
           (f_div (contourArea (contours !!! j)) (contourArea (contours !!! i)))
  && f_leb (f_div (contourArea (contours !!! j)) (contourArea (contours !!! i)))
           (f_add threshratio variance).

End Locator.

(** ** Trajectories *)

Section Trajectories.
Context {F : Type} {FO : Float64Ops F} {EX : Extern F}.

Definition f_zero : F := f_of_Z 0.
Definition f_one : F := f_of_Z 1.
Definition f_two : F := f_of_Z 2.

(** [a != 0], [a > b], [a >= b] on floats. *)
Definition f_nonzero (a : F) : bool := negb (f_eqb a f_zero).
Definition f_gtb (a b : F) : bool := f_ltb b a.
Definition f_geb (a b : F) : bool := f_leb b a.

Definition num_to_float (n : pynum F) : F :=
  match n with
  | PInt z => f_of_Z z
  | PFloat f => f
  end.

(** [a == b] on numbers: an int and a float compare by value. *)
Definition num_eqb (a b : pynum F) : bool :=
  match a, b with
  | PInt x, PInt y => x =? y
  | _, _ => f_eqb (num_to_float a) (num_to_float b)
  end.

(** [a + b] on numbers. *)
Definition num_add (a b : pynum F) : pynum F :=
  match a, b with
  | PInt x, PInt y => PInt (x + y)
  | _, _ => PFloat (f_add (num_to_float a) (num_to_float b))
  end.

(** [int(w/2)]: Python 2 floors the quotient of two ints and divides floats
    exactly; [int] then truncates. *)
Definition num_half_int (w : pynum F) : Z :=
  match w with
  | PInt z => z / 2
  | PFloat f => f_trunc (f_div f (f_of_Z 2))
  end.

(** A point [(x, y, w)] and a trajectory. *)
Definition point3 : Type := Z * Z * pynum F.
Definition trajectory : Type := list point3.

Definition px (p : point3) : Z := fst (fst p).
Definition py (p : point3) : Z := snd (fst p).
Definition pw (p : point3) : pynum F := snd p.

Definition point3_eqb (p q : point3) : bool :=
  (px p =? px q) && (py p =? py q) && num_eqb (pw p) (pw q).

Fixpoint trajectory_eqb (a b : trajectory) : bool :=
  match a, b with
  | [], [] => true
  | p :: a', q :: b' => point3_eqb p q && trajectory_eqb a' b'
  | _, _ => false
  end.

(** *** calculateTrajectoriesDistanceHausdorff *)

(** [np.min] and [np.max] of a non-empty float vector. *)
Definition f_minimum (x : F) (l : list F) : F :=
  fold_left (fun acc y => if f_ltb y acc then y else acc) l x.
Definition f_maximum (x : F) (l : list F) : F :=
  fold_left (fun acc y => if f_ltb acc y then y else acc) l x.

Definition f_minimum_list (l : list F) : F :=
  match l with
  | [] => f_zero
  | x :: l' => f_minimum x l'
  end.
Definition f_maximum_list (l : list F) : F :=
  match l with
  | [] => f_zero
  | x :: l' => f_maximum x l'
  end.

(** One entry of [scipy.spatial.distance.cdist(pts1, pts2, 'euclidean')]. *)
Definition euclid (p q : point3) : F :=
  f_norm (f_of_Z (px p - px q)) (f_of_Z (py p - py q)).

(** [np.max(np.min(distance, axis=1))]: for every point of [a] the distance
    to the nearest point of [b], then the largest of these. *)
Definition directed_hausdorff (a b : trajectory) : F :=
  f_maximum_list (map (fun p => f_minimum_list (map (euclid p) b)) a).

Definition calculateTrajectoriesDistanceHausdorff (trac1 trac2 : trajectory) : F :=
  if (length trac1 =? 0)%nat || (length trac2 =? 0)%nat then f_zero
  else
    let d1 := directed_hausdorff trac1 trac2 in   (* axis=1 *)
    let d0 := directed_hausdorff trac2 trac1 in   (* axis=0 *)
    (* Python max(a, b) *)
    if f_gtb d0 d1 then d0 else d1.

(** What the comparison of a distance with [0.0] relies on: no distance
    compares below zero, the distance of a point to itself is zero, and a
    value that is neither NaN nor infinite, not below zero and not above a
    zero is a zero. IEEE-754 binary64 satisfies all five: a comparison with
    NaN is false, and the fourth law leaves NaN out. *)
Record DistanceLaws : Prop := {
  zero_eq_zero : f_eqb f_zero f_zero = true;
  norm_zero : f_eqb (f_norm f_zero f_zero) f_zero = true;
  norm_nonneg : forall a b, f_ltb (f_norm a b) f_zero = false;
  zero_least : forall z a,
    f_is_nan_or_inf a = false ->
    f_eqb z f_zero = true -> f_ltb z a = false -> f_ltb a f_zero = false ->
    f_eqb a f_zero = true;
  below_zero : forall y a,
    f_eqb a f_zero = true -> f_ltb y a = true -> f_ltb y f_zero = true
}.

(** *** calculateTrajectoryRectangle *)

(** [cv2.boundingRect] of a non-empty point list: [(x, y, w, h)] with the
    smallest coordinates and the extent counted in pixels. *)
Definition boundingRect (pts : list (Z * Z)) : Z * Z * Z * Z :=
  match pts with
  | [] => (0, 0, 0, 0)
  | p :: rest =>
      let xmin := fold_left Z.min (map fst rest) (fst p) in
      let xmax := fold_left Z.max (map fst rest) (fst p) in
      let ymin := fold_left Z.min (map snd rest) (snd p) in
      let ymax := fold_left Z.max (map snd rest) (snd p) in
      (xmin, ymin, xmax - xmin + 1, ymax - ymin + 1)
  end.

(** The two corners that every point contributes. *)
Definition rectangle_points (t : trajectory) : list (Z * Z) :=
  flat_map (fun triple =>
              [ (px triple - num_half_int (pw triple) - 1,
                 py triple - num_half_int (pw triple) - 1);
                (px triple + num_half_int (pw triple) + 1,
                 py triple + num_half_int (pw triple) + 1) ]) t.

Definition calculateTrajectoryRectangle (t : trajectory)
  : (Z * Z) * (Z * Z) :=
  let '(x, y, w, h) := boundingRect (rectangle_points t) in
  ((x, y), (x + w, y + h)).

(** *** getSkinOfTrajectory *)

Definition vec : Type := F * F.

Definition vec_of_Z (dx dy : Z) : vec := (f_of_Z dx, f_of_Z dy).

(** [if np.linalg.norm(v) != 0: v /= np.linalg.norm(v)] *)
Definition normalize (v : vec) : vec :=
  let n := f_norm (fst v) (snd v) in
  if f_nonzero n then (f_div (fst v) n, f_div (snd v) n) else v.

(** [np.cross] of two plane vectors. *)
Definition cross (a b : vec) : F :=
  f_sub (f_mul (fst a) (snd b)) (f_mul (snd a) (fst b)).

(** [np.array([[0, -1], [1, 0]]).dot(v)] *)
Definition rot90 (v : vec) : vec :=
  (f_add (f_mul (f_of_Z 0) (fst v)) (f_mul (f_of_Z (-1)) (snd v)),
   f_add (f_mul (f_of_Z 1) (fst v)) (f_mul (f_of_Z 0) (snd v))).

(** The slope at a point: toward the next point, or the previous slope at the
    last index. *)
Definition slope_at (p : point3) (rest : trajectory) (lastslope : vec) : vec :=
  match rest with
  | q :: _ => normalize (vec_of_Z (px q - px p) (py q - py p))
  | [] => lastslope
  end.

(** The skin vector at a point with slope [slope] after [lastslope]. *)
Definition skinvector_of (slope lastslope : vec) : vec :=
  let sv := normalize (f_sub (fst slope) (fst lastslope),
                       f_sub (snd slope) (snd lastslope)) in
  if f_eqb (cross slope lastslope) f_zero then rot90 lastslope else sv.

(** [int(c + s * w / 2.0)] and [int(c - s * w / 2.0)] *)
Definition skin_plus (c : Z) (s : F) (w : pynum F) : Z :=
  f_trunc (f_add (f_of_Z c) (f_div (f_mul s (num_to_float w)) f_two)).
Definition skin_minus (c : Z) (s : F) (w : pynum F) : Z :=
  f_trunc (f_sub (f_of_Z c) (f_div (f_mul s (num_to_float w)) f_two)).

(** The loop over the points; returns [(skinleft, skinright)]. *)
Fixpoint skin_loop (t : trajectory) (lastslope : vec)
  : list (Z * Z) * list (Z * Z) :=
  match t with
  | [] => ([], [])
  | p :: rest =>
      let slope := slope_at p rest lastslope in
      let sv := skinvector_of slope lastslope in
      let pt0 := (skin_plus (px p) (fst sv) (pw p),
                  skin_plus (py p) (snd sv) (pw p)) in
      let pt1 := (skin_minus (px p) (fst sv) (pw p),
                  skin_minus (py p) (snd sv) (pw p)) in
      let '(l, r) := skin_loop rest slope in
      if f_gtb (cross slope sv) f_zero
      then (pt0 :: l, pt1 :: r)
      else (pt1 :: l, pt0 :: r)
  end.

Definition getSkinOfTrajectory (t : trajectory) : list (Z * Z) :=
  match t with
  | p0 :: p1 :: _ =>
      let lastslope := normalize (vec_of_Z (px p1 - px p0) (py p1 - py p0)) in
      let '(skinleft, skinright) := skin_loop t lastslope in
      skinleft ++ reverse skinright
  | _ => []   (* fewer than two points *)
  end.

(** *** calculateTrajectoriesOverlap *)

(** The pixels of a [height] x [width] canvas, row by row. *)
Definition canvas (height width : Z) : list (Z * Z) :=
  flat_map (fun y => map (fun x => (y, x)) (seqZ 0 width)) (seqZ 0 height).

(** [cv2.countNonZero(cv2.inRange(image, c, c))] for an image whose pixels of
    colour [c] are those of [mask]. *)
Definition countColour (height width : Z) (mask : Z -> Z -> bool) : Z :=
  Z.of_nat (length (List.filter (fun p => mask (fst p) (snd p))
                                (canvas height width))).

Definition subtract_offset (off : Z * Z) (pts : list (Z * Z)) : list (Z * Z) :=
  map (fun p => (fst p - fst off, snd p - snd off)) pts.

Definition calculateTrajectoriesOverlap (trac1 trac2 : trajectory) : F :=
  if (length trac1 =? 0)%nat || (length trac2 =? 0)%nat then f_zero
  else
    let rect := calculateTrajectoryRectangle (trac1 ++ trac2) in
    let width := fst (snd rect) - fst (fst rect) in
    let height := snd (snd rect) - snd (fst rect) in
    let skin1 := getSkinOfTrajectory trac1 in
    let skin2 := getSkinOfTrajectory trac2 in
    if (length skin1 =? 0)%nat || (length skin2 =? 0)%nat then f_zero
    else
      let image1 := fillPoly height width (subtract_offset (fst rect) skin1) in
      let image2 := fillPoly height width (subtract_offset (fst rect) skin2) in
      let green := countColour height width image1 in
      let red := countColour height width image2 in
      if Z.min green red =? 0 then f_zero
      else
        (* cv2.add: a pixel is yellow where it is green in image1 and red in
           image2 *)
        let yellow :=
          countColour height width (fun y x => image1 y x && image2 y x) in
        if yellow =? 0 then f_zero
        else f_div (f_of_Z yellow) (f_of_Z (Z.min green red)).

(** The number of pixels that the skin polygon of [t] colours on the canvas
    that [calculateTrajectoriesOverlap t t] draws on. *)
Definition rendered_pixels (t : trajectory) : Z :=
  let rect := calculateTrajectoryRectangle (t ++ t) in
  let width := fst (snd rect) - fst (fst rect) in
  let height := snd (snd rect) - snd (fst rect) in
  countColour height width
    (fillPoly height width (subtract_offset (fst rect) (getSkinOfTrajectory t))).

(** *** combineTrajectories *)

(** The duplicate test of the merge loop. *)
Definition criteria (maxoverlap : F) (useHausdorff : bool) (hausdorffbias : F)
    (item finalitem : trajectory) : bool :=
  if useHausdorff
  then f_leb (calculateTrajectoriesDistanceHausdorff item finalitem) hausdorffbias
  else f_geb (calculateTrajectoriesOverlap item finalitem) maxoverlap.

(** [finallist.index(finalitem)] for the item met at position [i]: the first
    position holding an equal value, which is [i] itself at the latest. *)
Fixpoint first_equal (finalitem : trajectory) (l : list trajectory) : option nat :=
  match l with
  | [] => None
  | t :: l' =>
      if trajectory_eqb t finalitem then Some 0%nat
      else option_map S (first_equal finalitem l')
  end.

Definition list_index (finalitem : trajectory) (i : nat)
    (finallist : list trajectory) : nat :=
  match first_equal finalitem (firstn i finallist) with
  | Some k => k
  | None => i
  end.

(** The [for finalitem in finallist] loop for one [item]: the list after the
    loop and the flag [present]. [todo] is the part of [finallist] still to
    visit, which starts at position [i]. *)
Fixpoint check_present (dup : trajectory -> trajectory -> bool)
    (item : trajectory) (finallist : list trajectory) (i : nat)
    (todo : list trajectory) : list trajectory * bool :=
  match todo with
  | [] => (finallist, false)
  | finalitem :: todo' =>
      if dup item finalitem then
        if (length finalitem <? length item)%nat
        then (<[list_index finalitem i finallist := item]> finallist, true)
        else (finallist, true)
      else check_present dup item finallist (S i) todo'
  end.

(** The [while len(workinglist) > 0] loop; [stack] is the working list seen
    from its end, from which [pop()] takes. *)
Fixpoint merge_loop (dup : trajectory -> trajectory -> bool)
    (stack finallist : list trajectory) : list trajectory :=
  match stack with
  | [] => finallist
  | item :: stack' =>
      let '(finallist', present) :=
        check_present dup item finallist 0%nat finallist in
      merge_loop dup stack' (if present then finallist' else finallist' ++ [item])
  end.

Definition combineTrajectories (traclist1 traclist2 : list trajectory)
    (maxoverlap : F) (useHausdorff : bool) (hausdorffbias : F)
  : list trajectory :=
  let workinglist := traclist1 ++ traclist2 in
  merge_loop (criteria maxoverlap useHausdorff hausdorffbias)
             (reverse workinglist) [].

End Trajectories.

(** ** Trajectory tracer, shortest-path variant *)

Section ShortestPath.
Context {F : Type} {FO : Float64Ops F}.

(** An entry [(distance, x, y)] of the priority queue. *)
Definition node : Type := Z * Z * Z.

Definition node_dist (n : node) : Z := fst (fst n).
Definition node_x (n : node) : Z := snd (fst n).
Definition node_y (n : node) : Z := snd n.

(** Tuple order. *)
Definition node_ltb (a b : node) : bool :=
  (node_dist a <? node_dist b)
  || ((node_dist a =? node_dist b)
      && ((node_x a <? node_x b)
          || ((node_x a =? node_x b) && (node_y a <? node_y b)))).

Definition node_eqb (a b : node) : bool :=
  (node_dist a =? node_dist b) && (node_x a =? node_x b)
  && (node_y a =? node_y b).

Fixpoint remove_first (n : node) (queue : list node) : list node :=
  match queue with
  | [] => []
  | m :: queue' =>
      if node_eqb m n then queue' else m :: remove_first n queue'
  end.

(** [heapq.heappop(queue)]. The queue is kept as a plain list: every pop of
    the source acts on a valid heap (after deletions the list is heapified
    before the next pop) and so returns the least tuple, and no two entries
    carry the same pixel, so the least tuple is unique. *)
Definition heappop (queue : list node) : option (node * list node) :=
  match queue with
  | [] => None
  | n :: rest =>
      let least := fold_left (fun m k => if node_ltb k m then k else m) rest n in
      Some (least, remove_first least queue)
  end.

(** [int(math.hypot(a[1] - b[1], a[2] - b[2])) == 1] *)
Definition is_neighbour (a b : node) : bool :=
  f_trunc (f_hypot (f_of_Z (node_x a - node_x b))
                   (f_of_Z (node_y a - node_y b))) =? 1.

(** [points.index(next(item for item in points if item[1] == x and
    item[0] == y))] for a list of [[y, x]] entries. *)
Fixpoint point_position (points : list (Z * Z)) (x y : Z) : option nat :=
  match points with
  | [] => None
  | item :: points' =>
      if (snd item =? x) && (fst item =? y) then Some 0%nat
      else option_map S (point_position points' x y)
  end.

(** The update of one neighbour of [firstitem]; the state is the queue and
    the tracker image. *)
Definition relax (densityimage : array2) (maxintensity : Z)
    (points : list (Z * Z)) (firstitem : node)
    (state : list node * array2) (neighbour : node)
  : result (list node * array2) :=
  let '(queue, tracker) := state in
  let* d := get2 densityimage (node_y neighbour) (node_x neighbour) in
  let cost := maxintensity - d in
  let altdistance := node_dist firstitem + cost in
  if altdistance <? node_dist neighbour then
    let updneighbour := (altdistance, node_x neighbour, node_y neighbour) in
    (* queue.index(neighbour) is a ValueError for an entry that is not there *)
    if negb (existsb (node_eqb neighbour) queue) then Raise ValueError
    else
    let queue := remove_first neighbour queue ++ [updneighbour] in
    let* k := of_option StopIteration
                (point_position points (node_x firstitem) (node_y firstitem)) in
    let* tracker := set2 tracker (node_y neighbour) (node_x neighbour)
                         (to_int32 (Z.of_nat k)) in
    Ok (queue, tracker)
  else Ok (queue, tracker).

(** The [while len(queue) > 0] loop. Every round pops one entry and replaces
    others one for one, so the queue is empty after [length queue] rounds;
    [rounds] is one more than that, see [search_loop_terminates]. *)
Fixpoint search_loop (rounds : nat) (densityimage : array2) (maxintensity : Z)
    (points : list (Z * Z)) (endpoint : Z * Z)
    (queue : list node) (tracker : array2) : result array2 :=
  match rounds with
  | O => Diverge
  | S rounds' =>
      match heappop queue with
      | None => Ok tracker
      | Some (firstitem, queue) =>
          if (node_x firstitem =? fst endpoint) && (node_y firstitem =? snd endpoint)
          then Ok tracker
          else
            let neighbours := List.filter (fun n => is_neighbour n firstitem) queue in
            let* state :=
              foldM (relax densityimage maxintensity points firstitem)
                    neighbours (queue, tracker) in
            search_loop rounds' densityimage maxintensity points endpoint
                        (fst state) (snd state)
      end
  end.

(** The backtracking loop from [current] (a [[y, x]] entry) with counter [n];
    [steps] bounds the number of rounds. *)
Fixpoint backtrack (steps : nat) (tracker : array2) (points : list (Z * Z))
    (startpoint : Z * Z) (everyotherpoint : Z)
    (current : Z * Z) (n : Z) (path : list (Z * Z))
  : result (list (Z * Z)) :=
  let at_start (c : Z * Z) := (snd c =? fst startpoint) && (fst c =? snd startpoint) in
  let* t := get2 tracker (fst current) (snd current) in
  if negb (t =? -1) && negb (at_start current) then
    match steps with
    | O => Diverge
    | S steps' =>
        let* k := of_option IndexError (axis_index (length points) t) in
        let* current := of_option IndexError (points !! k) in
        if everyotherpoint =? 0 then Raise ZeroDivisionError
        else
          let path :=
            if (n mod everyotherpoint =? 0) || at_start current
            then (snd current, fst current) :: path
            else path in
          backtrack steps' tracker points startpoint everyotherpoint
                    current (n + 1) path
    end
  else Ok path.

(** [findPathOnImage(image, startpoint, endpoint, bias, everyotherpoint,
    densityrad)]; points are [(x, y)]. The backtracking loop follows the
    tracker from pixel to pixel and is given [length points] rounds. *)
Definition findPathOnImage (image : array2) (startpoint endpoint : Z * Z)
    (bias everyotherpoint densityrad : Z) : result (list (Z * Z)) :=
  let height := nrows image in
  let width := ncols image in
  let infinite :=
    f_trunc (f_mul (f_hypot (f_of_Z (Z.of_nat height)) (f_of_Z (Z.of_nat width)))
                   (f_of_Z 100000000)) in
  let* densityimage := density_image image densityrad in
  let* maxintensity := max2 densityimage in
  let* dstart := get2 densityimage (snd startpoint) (fst startpoint) in
  let* empty :=
    if dstart =? 0 then Ok true
    else let* dend := get2 densityimage (snd endpoint) (fst endpoint) in
         Ok (dend =? 0) in
  if (empty : bool) then Ok []
  else
    let points := where2 (fun v => bias <? v) densityimage in
    let queue :=
      map (fun pt =>
             let distance :=
               if (snd pt =? fst startpoint) && (fst pt =? snd startpoint)
               then 0 else infinite in
             (distance, snd pt, fst pt)) points in
    let tracker := zeros height width in
    let* tracker := set2 tracker (snd endpoint) (fst endpoint) (-1) in
    let* tracker :=
      search_loop (S (length queue)) densityimage maxintensity points endpoint
                  queue tracker in
    let* tracker := set2 tracker (snd startpoint) (fst startpoint) (-1) in
    let* tend := get2 tracker (snd endpoint) (fst endpoint) in
    if tend =? -1 then Ok []
    else
      let path := [(fst endpoint, snd endpoint)] in
      let* k := of_option StopIteration
                  (point_position points (fst endpoint) (snd endpoint)) in
      let* current := of_option IndexError (points !! k) in
      let* path := backtrack (length points) tracker points startpoint
                             everyotherpoint current 0 path in
      if (length path <? 2)%nat then Ok [] else Ok path.

End ShortestPath.


(** ** Trajectory tracers *)

Section Tracers.
Context {F : Type} {FO : Float64Ops F}.

Local Abbreviation point := (point3 (F := F)).
Local Abbreviation track := (trajectory (F := F)).

(** [sortCoordinatesByDistanceToPoint(coordinates, (x, y))]: a stable sort on
    the key [math.hypot(item[0] - x, item[1] - y)]. *)
Fixpoint insert_by_key (key : Z * Z -> F) (item : Z * Z) (sorted : list (Z * Z))
  : list (Z * Z) :=
  match sorted with
  | [] => [item]
  | other :: sorted' =>
      if f_ltb (key other) (key item)
      then other :: insert_by_key key item sorted'
      else item :: sorted
  end.

Definition sortCoordinatesByDistanceToPoint (coordinates : list (Z * Z))
    (x y : Z) : list (Z * Z) :=
  let key item := f_hypot (f_of_Z (fst item - x)) (f_of_Z (snd item - y)) in
  foldr (insert_by_key key) [] coordinates.

(** *** getTrajectoriesFromImageDijkstra *)

(** [startpoint[2] * spvariancefactor] as the bound of a float comparison. *)
Definition scaled_width (w : pynum F) (factor : Z) : F :=
  match w with
  | PInt z => f_of_Z (z * factor)
  | PFloat f => f_mul f (f_of_Z factor)
  end.

(** The start point that the search uses: the given one, or the nearest pixel
    above the bias when the given pixel is zero and that pixel is near. *)
Definition snap_startpoint (image : array2) (startpoint : point)
    (bias spvariancefactor : Z) : result point :=
  let* v := get2 image (py startpoint) (px startpoint) in
  if v =? 0 then
    let points := where2 (fun v => bias <? v) image in
    let points := map (fun item => (snd item, fst item)) points in
    let points :=
      sortCoordinatesByDistanceToPoint points (px startpoint) (py startpoint) in
    let* nearest := of_option IndexError (head points) in
    if f_leb (f_hypot (f_of_Z (px startpoint - fst nearest))
                      (f_of_Z (py startpoint - snd nearest)))
             (scaled_width (pw startpoint) spvariancefactor)
    then Ok (fst nearest, snd nearest, pw startpoint)
    else Ok startpoint
  else Ok startpoint.

(** [[(x, y, 10) for [x, y] in path[::-1]]] *)
Definition trajectory_of_path (path : list (Z * Z)) : track :=
  map (fun p => (fst p, snd p, PInt 10)) (reverse path).

Definition getTrajectoriesFromImageDijkstra (image : array2)
    (startpoints endpoints : list point)
    (bias everyotherpoint densityrad spvariancefactor : Z)
  : result (list track) :=
  let* m := max2 image in
  if m =? 0 then Ok []
  else
    foldM (fun trajectories endpoint =>
      foldM (fun trajectories startpoint =>
        let* startpoint := snap_startpoint image startpoint bias spvariancefactor in
        let* path :=
          findPathOnImage image (px endpoint, py endpoint)
                          (px startpoint, py startpoint)
                          bias everyotherpoint densityrad in
        if (0 <? length path)%nat
        then Ok (trajectories ++ [trajectory_of_path path])
        else Ok trajectories)
        startpoints trajectories)
      endpoints [].

(** *** getTrajectoriesFromImage *)

(** The density of a window: at each non-zero pixel of the upper left
    [(gradient - 2 densityrad)]-square, the sum of the block
    [imageslice[y-r:y+r, x-r:x+r]] divided by [(2r + 1)**2]. *)
Definition window_density (imageslice : array2) (gradient densityrad : Z)
  : result array2 :=
  let n := gradient - 2 * densityrad in
  if n <? 0 then Raise ValueError   (* np.zeros of a negative shape *)
  else
    foldM (fun densityimage x =>
      foldM (fun densityimage y =>
        let* v := get2 imageslice y x in
        if negb (v =? 0) then
          let s := to_int32 (sum2 (slice2 imageslice (y - densityrad) (y + densityrad)
                                                     (x - densityrad) (x + densityrad))) in
          set2 densityimage y x
               (to_int32 (s / ((2 * densityrad + 1) * (2 * densityrad + 1))))
        else Ok densityimage)
        (xrange n) densityimage)
      (xrange n)
      (zeros (Z.to_nat n) (Z.to_nat n)).

(** The pull of the inlets on the slope at [targetpoint]. *)
Definition attract (gradient : Z) (maxattraction : F) (targetpoint : Z * Z)
    (slope : vec) (inlet : point) : result vec :=
  let d_half :=
    f_div (f_div (num_to_float (num_add (pw inlet) (PInt gradient))) (f_of_Z 2))
          (f_of_Q 0.1) in
  let distance := f_hypot (f_of_Z (fst targetpoint - px inlet))
                          (f_of_Z (snd targetpoint - py inlet)) in
  let attrv := normalize (vec_of_Z (px inlet - fst targetpoint)
                                   (py inlet - snd targetpoint)) in
  if f_eqb d_half (f_of_Z 0) then Raise ZeroDivisionError
  else
    let attraction := f_mul maxattraction (f_exp (f_div (f_neg distance) d_half)) in
    Ok (normalize (f_add (fst slope) (f_mul attraction (fst attrv)),
                   f_add (snd slope) (f_mul attraction (snd attrv)))).

(** The inlets that [targetpoint] has reached, in the order of [startpoints]. *)
Definition reached (gradient : Z) (targetpoint : Z * Z) (startpoints : list point)
  : list point :=
  List.filter (fun pt =>
    f_leb (f_hypot (f_of_Z (fst targetpoint - px pt))
                   (f_of_Z (snd targetpoint - py pt)))
          (f_add (f_div (num_to_float (pw pt)) (f_of_Z 2)) (f_of_Z gradient)))
    startpoints.

(** One round of the [while run] loop up to the iteration counter: [None] is
    a [break], otherwise the new trajectory, the new slope and the flag [run]. *)
Definition trace_step (image : array2) (startpoints : list point)
    (gradient densityrad : Z) (maxattraction : F)
    (trajectory : track) (slope : vec)
  : result (option (track * vec * bool)) :=
  let* current := of_option IndexError (last trajectory) in
  let half := gradient / 2 in
  let targetpoint :=
    (px current + f_trunc (f_mul (fst slope) (f_of_Z gradient)),
     py current + f_trunc (f_mul (snd slope) (f_of_Z gradient))) in
  let topleftpoint := (fst targetpoint - half, snd targetpoint - half) in
  let imageslice :=
    slice2 image (snd topleftpoint) (snd topleftpoint + gradient)
                 (fst topleftpoint) (fst topleftpoint + gradient) in
  if (size2 imageslice =? 0)%nat then Ok None
  else
    let* m := max2 imageslice in
    if m =? 0 then Ok None
    else
      let* centre := get2 imageslice half half in
      let* window :=
        if centre =? 0 then
          let nzvalues := where2 (fun v => negb (v =? 0)) imageslice in
          let nzvalues := sortCoordinatesByDistanceToPoint nzvalues half half in
          let* nearest := of_option IndexError (head nzvalues) in
          let targetpoint := (fst topleftpoint + snd nearest,
                              snd topleftpoint + fst nearest) in
          let topleftpoint := (fst targetpoint - half, snd targetpoint - half) in
          Ok (topleftpoint,
              slice2 image (snd topleftpoint) (snd topleftpoint + gradient)
                           (fst topleftpoint) (fst topleftpoint + gradient))
        else Ok (topleftpoint, imageslice) in
      let topleftpoint := fst window in
      let imageslice := snd window in
      let* densityimage := window_density imageslice gradient densityrad in
      let* dmax := max2 densityimage in
      let maxvalues := where2 (fun v => v =? dmax) densityimage in
      let maxvalues := sortCoordinatesByDistanceToPoint maxvalues half half in
      let* best := of_option IndexError (head maxvalues) in
      let targetpoint := (fst topleftpoint + densityrad + snd best,
                          snd topleftpoint + densityrad + fst best) in
      let slope := normalize (vec_of_Z (fst targetpoint - px current)
                                       (snd targetpoint - py current)) in
      let* slope := foldM (attract gradient maxattraction targetpoint)
                          startpoints slope in
      let trajectory := trajectory ++ [(fst targetpoint, snd targetpoint, PInt 10)] in
      let inlets := reached gradient targetpoint startpoints in
      Ok (Some (trajectory ++ inlets, slope,
                match inlets with [] => true | _ => false end)).

(** The [while run] loop for one endpoint, entered with [run = True]:
    [i] is the counter of the source and [rounds] counts the rounds begun so
    far. [bound] limits the rounds of the embedding. *)
Fixpoint trace_loop (bound : nat) (image : array2) (startpoints : list point)
    (gradient densityrad : Z) (maxattraction : F) (maxiteration : Z)
    (i : Z) (rounds : nat) (trajectory : track) (slope : vec)
  : result (track * nat) :=
  match bound with
  | O => Diverge
  | S bound' =>
      let* step := trace_step image startpoints gradient densityrad
                              maxattraction trajectory slope in
      match step with
      | None => Ok (trajectory, S rounds)
      | Some (trajectory, slope, run) =>
          let i := i + 1 in
          let run := if maxiteration <? i then false else run in
          if run
          then trace_loop bound' image startpoints gradient densityrad
                          maxattraction maxiteration i (S rounds) trajectory slope
          else Ok (trajectory, S rounds)
      end
  end.

(** The bound on the rounds: the counter passes [maxiteration] after
    [maxiteration + 1] rounds, and after the first round when [maxiteration]
    is negative. *)
Definition round_bound (maxiteration : Z) : nat :=
  S (Z.to_nat maxiteration).

(** The trace from one endpoint: the trajectory, in the order of the search,
    and the number of rounds of the loop. *)
Definition trace_endpoint (image : array2) (startpoints : list point)
    (flow : vec) (maxiteration : Z) (gradientfactor : F) (densityrad : Z)
    (maxattraction : F) (endpoint : point) : result (track * nat) :=
  let height := Z.of_nat (nrows image) in
  let width := Z.of_nat (ncols image) in
  let gradient :=
    Z.max (f_trunc (f_mul gradientfactor (f_of_Z (Z.max width height)))) 2 in
  trace_loop (round_bound maxiteration) image startpoints gradient densityrad
             maxattraction maxiteration 0 0%nat [endpoint] flow.

Definition getTrajectoriesFromImage (image : array2)
    (startpoints endpoints : list point) (flow : vec) (maxiteration : Z)
    (gradientfactor : F) (densityrad : Z) (maxattraction : F)
  : result (list track) :=
  foldM (fun trajectories endpoint =>
    let* traced := trace_endpoint image startpoints flow maxiteration
                                  gradientfactor densityrad maxattraction
                                  endpoint in
    let trajectory := fst traced in
    if (1 <? length trajectory)%nat
    then Ok (trajectories ++ [reverse trajectory])
    else Ok trajectories)
    endpoints [].

End Tracers.


(** ** Width profiler *)

Section WidthProfiler.
Context {F : Type} {FO : Float64Ops F} {EX : Extern F}.

Local Abbreviation point := (point3 (F := F)).
Local Abbreviation track := (trajectory (F := F)).

(** The coordinates of a point. *)
Definition xy (p : point) : Z * Z := (px p, py p).

(** [findMiddleOfConsecutiveNumbers(numbers)]: the runs of entries whose
    difference to their position is the same, each as its middle entry and
    its length. [run] is the current run in reverse and [key] its difference. *)
Fixpoint group_runs (numbers : list Z) (i key : Z) (run : list Z)
  : list (list Z) :=
  match numbers with
  | [] => [reverse run]
  | x :: numbers' =>
      if i - x =? key then group_runs numbers' (i + 1) key (x :: run)
      else reverse run :: group_runs numbers' (i + 1) (i - x) [x]
  end.

Definition findMiddleOfConsecutiveNumbers (numbers : list Z) : list (Z * Z) :=
  match numbers with
  | [] => []
  | x :: numbers' =>
      map (fun group =>
             let mindex := Z.of_nat (length group) / 2 in
             (default 0 (group !! Z.to_nat mindex), Z.of_nat (length group)))
          (group_runs numbers' 1 (0 - x) [x])
  end.

(** [l[i]] on a one-dimensional array or list. *)
Definition get1 {A : Type} (l : list A) (i : Z) : result A :=
  match axis_index (length l) i with
  | Some k => of_option IndexError (l !! k)
  | None => Raise IndexError
  end.

(** [l[start:0:-1]] for a start that is not negative: the entries at
    [start], [start - 1], ..., [1], as far as they exist. *)
Definition slice_down {A : Type} (l : list A) (start : Z) : list A :=
  reverse (slice1 l 1 (start + 1)).

(** [np.argwhere(v == 0)[0][0]]: the first position of a zero, an
    [IndexError] when there is none. *)
Fixpoint first_zero (v : list Z) : result Z :=
  match v with
  | [] => Raise IndexError
  | x :: v' =>
      if x =? 0 then Ok 0
      else let* k := first_zero v' in Ok (k + 1)
  end.

(** The sample of the density image along the line through [p] in the
    direction of the skin vector, out to [maxwidth] on both sides. *)
Definition cross_section (densityimage : array2) (height width maxwidth : Z)
    (p : point) (skinvector : vec) : result (list Z) :=
  let w1 := (f_add (f_of_Z (px p)) (f_mul (f_of_Z maxwidth) (fst skinvector)),
             f_add (f_of_Z (py p)) (f_mul (f_of_Z maxwidth) (snd skinvector))) in
  let w2 := (f_sub (f_of_Z (px p)) (f_mul (f_of_Z maxwidth) (fst skinvector)),
             f_sub (f_of_Z (py p)) (f_mul (f_of_Z maxwidth) (snd skinvector))) in
  let wdistance :=
    f_trunc (f_hypot (f_sub (fst w1) (fst w2)) (f_sub (snd w1) (snd w2))) in
  let wpoints :=
    zip (map f_trunc (linspace (fst w1) (fst w2) wdistance))
        (map f_trunc (linspace (snd w1) (snd w2) wdistance)) in
  foldM (fun wvalues xy =>
           let '(x, y) := xy in
           if (0 <=? x) && (x <? width) && (0 <=? y) && (y <? height)
           then let* v := get2 densityimage y x in Ok (wvalues ++ [v])
           else Ok (wvalues ++ [0]))
        wpoints [].

(** The two halves around the centre, each cut at its first zero: the new
    sample and the position of the centre in it. *)
Definition truncate_at_zeros (wvalues : list Z) (maxwidth : Z)
  : result (list Z * Z) :=
  let midindex := maxwidth in
  let wvaluesleft := slice_down wvalues midindex in
  let wvaluesright := slice1 wvalues midindex (Z.of_nat (length wvalues)) in
  let* indexleft := first_zero wvaluesleft in
  let* indexright := first_zero wvaluesright in
  Ok (slice_down wvaluesleft indexleft ++ slice1 wvaluesright 0 (indexright + 1),
      indexleft).

(** One round of the loop over the groups of local minima. *)
Definition rebase (indices : list Z) (midindex : Z) (wvalues : list Z) (g : Z)
  : result (list Z) :=
  let* lo := get1 indices g in
  let* hi := get1 indices (g + 1) in
  if (lo <=? midindex) && (midindex <=? hi) then
    let* vlo := get1 wvalues lo in
    let* vhi := get1 wvalues hi in
    let base := Z.max vlo vhi in
    Ok (imap (fun index item =>
                if (lo <=? Z.of_nat index) && (Z.of_nat index <=? hi)
                   && (base <? item)
                then item - base else 0) wvalues)
  else Ok wvalues.

(** The first pair of neighbouring roots that encloses [midindex]. *)
Fixpoint width_between_roots (roots : list F) (midindex : Z) : pynum F :=
  match roots with
  | r0 :: (r1 :: _) as roots' =>
      if f_leb (f_round0 r0) (f_of_Z midindex)
         && f_leb (f_of_Z midindex) (f_round0 r1)
      then PFloat (f_sub r1 r0)
      else width_between_roots roots' midindex
  | _ => PInt 0
  end.

(** The width at one point from its sample: [streamwidth]. *)
Definition stream_width (wvalues : list Z) (maxwidth : Z) : result (pynum F) :=
  let* cut := truncate_at_zeros wvalues maxwidth in
  let wvalues := fst cut in
  let midindex := snd cut in
  let indices_raw := argrelextrema_le wvalues 3 in
  let groups := findMiddleOfConsecutiveNumbers indices_raw in
  let indices := map fst groups in
  let* wvalues :=
    foldM (rebase indices midindex) (xrange (Z.of_nat (length indices) - 1))
          wvalues in
  if (4 <? length wvalues)%nat then
    let* m := max2 [wvalues] in
    let* roots := spline_roots (map (fun v => v - m / 2) wvalues) in
    Ok (width_between_roots roots midindex)
  else Ok (PInt 0).

(** The loop over the points of the trajectory. *)
Fixpoint width_loop (densityimage : array2) (height width maxwidth : Z)
    (t : track) (lastslope : vec) : result track :=
  match t with
  | [] => Ok []
  | p :: rest =>
      let slope := slope_at p rest lastslope in
      let skinvector := skinvector_of slope lastslope in
      let* wvalues :=
        cross_section densityimage height width maxwidth p skinvector in
      if (length wvalues =? 0)%nat then
        (* continue: the point is left out and lastslope keeps its value *)
        width_loop densityimage height width maxwidth rest lastslope
      else
        let* streamwidth := stream_width wvalues maxwidth in
        let* newrest :=
          width_loop densityimage height width maxwidth rest slope in
        Ok ((px p, py p, streamwidth) :: newrest)
  end.

(** The points that the loop over the trajectory does not skip, as they
    were given: those whose sample along the skin vector is not empty. A
    point that is skipped leaves [lastslope] as it was. *)
Fixpoint sampled_points (densityimage : array2) (height width maxwidth : Z)
    (t : track) (lastslope : vec) : result track :=
  match t with
  | [] => Ok []
  | p :: rest =>
      let slope := slope_at p rest lastslope in
      let skinvector := skinvector_of slope lastslope in
      let* wvalues :=
        cross_section densityimage height width maxwidth p skinvector in
      if (length wvalues =? 0)%nat then
        sampled_points densityimage height width maxwidth rest lastslope
      else
        let* kept :=
          sampled_points densityimage height width maxwidth rest slope in
        Ok (p :: kept)
  end.

(** [w == 0] on a width. *)
Definition num_is_zero (w : pynum F) : bool :=
  match w with
  | PInt z => z =? 0
  | PFloat f => f_eqb f (f_of_Z 0)
  end.

(** One round of the pass that fills single gaps. *)
Definition fill_gap (newtrajectory : track) (i : nat) : track :=
  if (i =? 0)%nat || (i =? length newtrajectory - 1)%nat then newtrajectory
  else
    match newtrajectory !! (i - 1)%nat, newtrajectory !! i,
          newtrajectory !! (i + 1)%nat with
    | Some before, Some here, Some after =>
        if num_is_zero (pw here) && negb (num_is_zero (pw before))
           && negb (num_is_zero (pw after))
        then <[i := (px here, py here,
                     PInt (f_trunc (f_div (num_to_float
                                             (num_add (pw before) (pw after)))
                                          (f_of_Z 2))))]> newtrajectory
        else newtrajectory
    | _, _, _ => newtrajectory
    end.

Definition findWidthOfTrajectory (image : array2) (t : track) (densityrad : Z)
  : result track :=
  match t with
  | p0 :: p1 :: _ =>
      let height := Z.of_nat (nrows image) in
      let width := Z.of_nat (ncols image) in
      let* densityimage := density_image image densityrad in
      let maxwidth := height / 2 in
      let lastslope := normalize (vec_of_Z (px p1 - px p0) (py p1 - py p0)) in
      let* newtrajectory :=
        width_loop densityimage height width maxwidth t lastslope in
      if (2 <? length newtrajectory)%nat
      then Ok (fold_left fill_gap (seq 0 (length newtrajectory)) newtrajectory)
      else Ok newtrajectory
  | _ => Ok []   (* fewer than two points *)
  end.

End WidthProfiler.


(** ** Trajectory query interface *)

Section Query.
Context {F : Type} {FO : Float64Ops F} {EX : Extern F}.

Local Abbreviation track := (trajectory (F := F)).

(** [min(xs) <= x <= max(xs)] for a non-empty list of ints. *)
Definition within (xs : list Z) (x : F) : bool :=
  match xs with
  | [] => false
  | x0 :: xs' =>
      f_leb (f_of_Z (fold_left Z.min xs' x0)) x
      && f_leb x (f_of_Z (fold_left Z.max xs' x0))
  end.

(** [dict(pairs)]: a later pair replaces an earlier one with the same key. *)
Definition dict_of (pairs : list (Z * Z)) : gmap Z Z :=
  list_to_map (reverse pairs).

(** The items of a dict in ascending order of the keys, as the columns of
    [a[:, a.argsort()[0]]]. *)
Definition key_le (p q : Z * Z) : Prop := fst p <= fst q.

#[global] Instance key_le_dec : RelDecision key_le :=
  fun p q => decide (fst p <= fst q).

Definition sorted_items (d : gmap Z Z) : list (Z * Z) :=
  merge_sort key_le (map_to_list d).

(** The halves of the skin as dicts from x to y: [dict(skin[:halflen-1])]
    and [dict((skin[halflen:])[::-1])]. *)
Definition skin_halves (skin : list (Z * Z)) : gmap Z Z * gmap Z Z :=
  let halflen := Z.of_nat (length skin) / 2 in
  (dict_of (slice1 skin 0 (halflen - 1)),
   dict_of (reverse (slice1 skin halflen (Z.of_nat (length skin))))).

(** The x coordinates that a dict of skin points covers. *)
Definition keys (d : gmap Z Z) : list Z := map fst (map_to_list d).

(** The result [(y, w)]; each component is an int or a float. *)
Definition getYandWofTrajectory (t : track) (x : F)
  : result (pynum F * pynum F) :=
  if (length t <? 4)%nat then Ok (PInt 0, PInt (-1))
  else
    let points := map xy t in
    if negb (within (map fst points) x) then Ok (PInt 0, PInt (-1))
    else
      let* y := interpolating_spline points x in
      let skin := getSkinOfTrajectory t in
      if negb (Z.of_nat (length skin) mod 2 =? 0) then Ok (PInt 0, PInt (-1))
      else
        let skinleft := fst (skin_halves skin) in
        let skinright := snd (skin_halves skin) in
        (* skinleft[0] and skinright[0] do not exist for an empty dict *)
        if bool_decide (skinleft = ∅) || bool_decide (skinright = ∅)
        then Raise IndexError
        else if negb (within (keys skinleft) x) || negb (within (keys skinright) x)
        then Ok (PFloat y, PInt (-1))
        else
          let* splineleft := smoothing_spline (sorted_items skinleft) in
          let* splineright := smoothing_spline (sorted_items skinright) in
          if fst splineleft || fst splineright then Ok (PFloat y, PInt (-1))
          else
            let W := f_abs (f_sub (snd splineleft x) (snd splineright x)) in
            if f_is_nan_or_inf W then Ok (PFloat y, PInt (-1))
            else Ok (PFloat y, PFloat W).

End Query.


(** * Further functions of [ffe.py]

    Sorting of coordinates and trajectories, the finder of end points, the
    finder of flow markers, the inverse flow direction and the resolution,
    with the array predicates and float laws that their properties use. *)

(** [a.shape == (h, w)] *)
Definition has_shape (h w : nat) (a : array2) : Prop :=
  length a = h /\ Forall (fun row => length row = w) a.

(** ** Laws of binary64 that further properties rely on *)

Section Laws.
Context {F : Type} {FO : Float64Ops F}.

(** The quotient of two positive ints of which the first is not the larger
    lies between [0.0] and [1.0]. *)
Record RatioLaws : Prop := {
  zero_le_zero : f_leb f_zero f_zero = true;
  zero_le_one : f_leb f_zero f_one = true;
  ratio_bounds : forall a b : Z,
    0 < a -> a <= b ->
    f_leb f_zero (f_div (f_of_Z a) (f_of_Z b)) = true
    /\ f_leb (f_div (f_of_Z a) (f_of_Z b)) f_one = true
}.

(** [<] and [==] order the values that are neither NaN nor infinite. *)
Record OrderLaws : Prop := {
  zero_finite : f_is_nan_or_inf f_zero = false;
  eq_refl_law : forall x : F, f_is_nan_or_inf x = false -> f_eqb x x = true;
  lt_asym : forall x y : F, f_ltb x y = true -> f_ltb y x = false;
  lt_total : forall x y : F,
    f_is_nan_or_inf x = false -> f_is_nan_or_inf y = false ->
    f_ltb x y = false -> f_ltb y x = false -> f_eqb x y = true;
  ge_trans : forall x y z : F,
    f_is_nan_or_inf x = false -> f_is_nan_or_inf y = false ->
    f_is_nan_or_inf z = false ->
    f_ltb x y = false -> f_ltb y z = false -> f_ltb x z = false
}.

End Laws.

(** ** Sorting of coordinates and trajectories *)

Section Sorting.
Context {F : Type} {FO : Float64Ops F}.

Local Abbreviation point := (point3 (F := F)).
Local Abbreviation track := (trajectory (F := F)).

(** A list comprehension whose body may raise. *)
Fixpoint mapM {A B : Type} (f : A -> result B) (l : list A) : result (list B) :=
  match l with
  | [] => Ok []
  | a :: l' => let* b := f a in let* bs := mapM f l' in Ok (b :: bs)
  end.

(** [list.sort(key=...)] on the items with their keys: the sort is stable
    and compares keys with [<] only. *)
Fixpoint insert_keyed {K A : Type} (ltb : K -> K -> bool) (entry : K * A)
    (sorted : list (K * A)) : list (K * A) :=
  match sorted with
  | [] => [entry]
  | other :: sorted' =>
      if ltb (fst other) (fst entry)
      then other :: insert_keyed ltb entry sorted'
      else entry :: sorted
  end.

Definition sort_keyed {K A : Type} (ltb : K -> K -> bool)
    (entries : list (K * A)) : list A :=
  map snd (foldr (insert_keyed ltb) [] entries).

(** [sortCoordinates(box, (width, height))]: for each corner of the frame
    the point of the box that comes first by distance. *)
Definition sortCoordinates (box : list (Z * Z)) (width height : Z)
  : result (list (Z * Z)) :=
  let* topleft :=
    of_option IndexError (head (sortCoordinatesByDistanceToPoint box 0 0)) in
  let* topright :=
    of_option IndexError (head (sortCoordinatesByDistanceToPoint box width 0)) in
  let* bottomleft :=
    of_option IndexError (head (sortCoordinatesByDistanceToPoint box 0 height)) in
  let* bottomright :=
    of_option IndexError
      (head (sortCoordinatesByDistanceToPoint box width height)) in
  Ok [topleft; topright; bottomleft; bottomright].

(** [item[-1][1]] *)
Definition endpoint_y (item : track) : result Z :=
  let* endpoint := of_option IndexError (last item) in
  Ok (py endpoint).

(** [trajectories.sort(key=lambda item: item[-1][1])]: the keys of all items
    are computed before anything is moved. The list is sorted in place and
    returned; the result is the list after the call. *)
Definition sortTrajectoriesByEndpoint (trajectories : list track)
  : result (list track) :=
  let* keys := mapM endpoint_y trajectories in
  Ok (sort_keyed Z.ltb (zip keys trajectories)).

(** [sum(weightedy)], which starts from the int [0]. *)
Definition f_sum (l : list F) : F := fold_left f_add l (f_of_Z 0).

Definition calculateWeightedYOfTrajectory (t : track) : result F :=
  let* refpoint := of_option IndexError (last t) in
  let refx := px refpoint in
  let refy := py refpoint in
  let points := sortCoordinatesByDistanceToPoint (map xy t) refx refy in
  let* furthest := of_option IndexError (last points) in
  let totaldistance :=
    f_hypot (f_of_Z (refx - fst furthest)) (f_of_Z (refy - snd furthest)) in
  if f_eqb totaldistance f_zero then Ok f_zero
  else
    let weightedy :=
      map (fun pt =>
             let reldistance :=
               f_div (f_hypot (f_of_Z (refx - fst pt)) (f_of_Z (refy - snd pt)))
                     totaldistance in
             f_sub (f_of_Z refy)
                   (f_mul (f_of_Z (refy - snd pt))
                          (f_sub f_one reldistance)))
          points in
    if (length weightedy =? 0)%nat then Ok f_zero
    else Ok (f_div (f_sum weightedy) (f_of_Z (Z.of_nat (length weightedy)))).

Definition sortTrajectoriesByWeightedCoordinates (trajectories : list track)
  : result (list track) :=
  let* keys := mapM calculateWeightedYOfTrajectory trajectories in
  Ok (sort_keyed f_ltb (zip keys trajectories)).

End Sorting.

(** ** End points by light casting *)

Section Endpoints.
Context {F : Type} {FO : Float64Ops F} {EX : Extern F}.

Local Abbreviation point := (point3 (F := F)).

(** A loop that keeps the items passing a test that may raise. *)
Fixpoint filterM {A : Type} (p : A -> result bool) (l : list A)
  : result (list A) :=
  match l with
  | [] => Ok []
  | a :: l' =>
      let* keep := p a in
      let* kept := filterM p l' in
      Ok (if (keep : bool) then a :: kept else kept)
  end.

(** One round of the loop over the non-zero pixels [c = [row, column]]: the
    entry of the row becomes the distance of the pixel from the right border
    where the pixel lies within the reach of the light, and the width of the
    image elsewhere. The values lie between [0] and [width]. *)
Definition cast_light (width reach : Z) (lines : list Z) (c : Z * Z) : list Z :=
  <[Z.to_nat (fst c) :=
      if width - reach <=? snd c then width - snd c else width]> lines.

(** [findEndpointsOfTrajectories(image, threshpenetration, ordermin)]: the
    end points [(x, y, width)]. *)
Definition findEndpointsOfTrajectories (image : array2)
    (threshpenetration ordermin : F) : result (list point) :=
  let height := Z.of_nat (nrows image) in
  let width := Z.of_nat (ncols image) in
  let nz := where2 (fun v => negb (v =? 0)) image in
  let reach := f_trunc (f_mul threshpenetration (f_of_Z width)) in
  let lines :=
    fold_left (cast_light width reach) nz (replicate (nrows image) width) in
  let order := Z.max (f_trunc (f_mul ordermin (f_of_Z height))) 1 in
  let indices_raw := argrelextrema_le lines order in
  let* indices :=
    filterM (fun index => let* v := get1 lines index in Ok (v <=? reach))
            indices_raw in
  let groups := findMiddleOfConsecutiveNumbers indices in
  mapM (fun g =>
          let* v := get1 lines (fst g) in
          Ok (width - v - 1, fst g, PInt (Z.max (snd g / 2) 1)))
       groups.

End Endpoints.

(** ** Resolution of two trajectories *)

Section Resolution.
Context {F : Type} {FO : Float64Ops F} {EX : Extern F}.

Local Abbreviation track := (trajectory (F := F)).

(** [a - b] and [a < 0] on numbers. *)
Definition num_sub (a b : pynum F) : pynum F :=
  match a, b with
  | PInt x, PInt y => PInt (x - y)
  | _, _ => PFloat (f_sub (num_to_float a) (num_to_float b))
  end.

Definition num_negative (a : pynum F) : bool :=
  match a with
  | PInt z => z <? 0
  | PFloat f => f_ltb f (f_of_Z 0)
  end.

(** The result is the int [0] or a float. [min] and [max] of the x
    coordinates raise a [ValueError] on a trajectory without points; those
    of the second trajectory are only taken when [x] lies within the
    first. *)
Definition getResolutionOfTrajectories (trajectory1 trajectory2 : track) (x : F)
  : result (pynum F) :=
  match trajectory1 with
  | [] => Raise ValueError
  | _ =>
      if negb (within (map px trajectory1) x) then Ok (PInt 0)
      else
        match trajectory2 with
        | [] => Raise ValueError
        | _ =>
            if negb (within (map px trajectory2) x) then Ok (PInt 0)
            else
              let* yw1 := getYandWofTrajectory trajectory1 x in
              let* yw2 := getYandWofTrajectory trajectory2 x in
              let Y1 := fst yw1 in
              let W1 := snd yw1 in
              let Y2 := fst yw2 in
              let W2 := snd yw2 in
              if num_eqb W2 W1 && num_is_zero W1 then Ok (PInt 0)
              else if num_negative W1 || num_negative W2 then Ok (PInt 0)
              else
                let difference := f_abs (num_to_float (num_sub Y1 Y2)) in
                let meanwidth :=
                  f_mul (f_of_Q 0.5) (num_to_float (num_add W1 W2)) in
                if f_eqb meanwidth (f_of_Z 0) then Raise ZeroDivisionError
                else Ok (PFloat (f_div difference meanwidth))
        end
  end.

End Resolution.

(** ** Flow markers *)

(** Two more routines of OpenCV. *)
Class ExternShapes (F : Type) := {
  (* cv2.moments(contour): the entries 'm00', 'm10' and 'm01' *)
  moments : list (Z * Z) -> F * F * F;
  (* cv2.pointPolygonTest(polygon, point, False) == +1 *)
  strictly_inside : list (Z * Z) -> Z * Z -> bool
}.

Section FlowMarkers.
Context {F : Type} {FO : Float64Ops F} {EX : Extern F} {ES : ExternShapes F}.

(** The centre of a contour from its moments, [(0, 0)] without area. *)
Definition centre_of (c : contour) : Z * Z :=
  let '(m00, m10, m01) := moments c in
  if f_eqb m00 (f_of_Z 0) then (0, 0)
  else (f_trunc (f_round0 (f_div m10 m00)), f_trunc (f_round0 (f_div m01 m00))).

(** [centers = [0, 0] * len(contours)] with the first [len(contours)]
    entries overwritten by the centres: the list is twice as long as
    [contours], and an entry [0] that is left acts in [2 * c - p] like the
    point [(0, 0)]. *)
Definition centers_of (contours : list contour) : list (Z * Z) :=
  map centre_of contours ++ replicate (length contours) (0, 0).

(** Python's [max(a, b)] and [min(a, b)] on floats. *)
Definition f_max2 (a b : F) : F := if f_gtb b a then b else a.
Definition f_min2 (a b : F) : F := if f_ltb b a then b else a.

(** The tests on contour [k] as the partner of contour [i]. *)
Definition accepts_partner (contours : list contour) (areavariance : F)
    (mirrorpt : Z * Z) (i k : nat) : bool :=
  if strictly_inside (contours !!! k) mirrorpt then
    let area1 := contourArea (contours !!! i) in
    let area2 := contourArea (contours !!! k) in
    if f_eqb area1 (f_of_Z 0) || f_eqb area2 (f_of_Z 0) then false
    else
      let areadiff :=
        f_div (f_sub (f_max2 area1 area2) (f_min2 area1 area2))
              (f_max2 area1 area2) in
      f_leb areadiff areavariance
  else false.

(** [for i in xrange(len(contours))], from contour [i] with [count] left. *)
Fixpoint scan_markers (contours : list contour) (outerzoneindex innerzoneindex : Z)
    (zonebox : list (Z * Z)) (areavariance : F) (i count : nat)
  : result (Z * Z) :=
  match count with
  | O => Ok (-1, -1)
  | S count' =>
      let next :=
        scan_markers contours outerzoneindex innerzoneindex zonebox
                     areavariance (S i) count' in
      let centers := centers_of contours in
      if (Z.of_nat i =? outerzoneindex) || (Z.of_nat i =? innerzoneindex)
      then next
      else if strictly_inside zonebox (centers !!! i) then next
      else
        let* zonecentre := get1 centers innerzoneindex in
        let mirrorpt := (2 * fst zonecentre - fst (centers !!! i),
                         2 * snd zonecentre - snd (centers !!! i)) in
        if strictly_inside zonebox mirrorpt then next
        else
          match first_index (accepts_partner contours areavariance mirrorpt i)
                            (S i) (length contours - i - 1) with
          | Some k => Ok (Z.of_nat i, Z.of_nat k)
          | None => next
          end
  end.

Definition findFlowMarkers (contours : list contour)
    (outerzoneindex innerzoneindex : Z) (zonebox : list (Z * Z))
    (areavariance : F) : result (Z * Z) :=
  scan_markers contours outerzoneindex innerzoneindex zonebox areavariance
               0 (length contours).

End FlowMarkers.

(** ** Inverse flow direction *)

(** [np.dot] of two vectors of one length. *)
Class ExternDot (F : Type) := {
  vector_dot : list F -> list F -> F
}.

Section FlowDirection.
Context {F : Type} {FO : Float64Ops F} {ED : ExternDot F}.

(** [matrix.dot(v)] for a matrix given by its rows and a vector: a
    [ValueError] unless the rows are as long as the vector. *)
Definition matrix_dot (matrix : list (list F)) (v : list F) : result (list F) :=
  if forallb (fun row => (length row =? length v)%nat) matrix
  then Ok (map (fun row => vector_dot row v) matrix)
  else Raise ValueError.

(** [getInverseFlowDirection(markers, transmatrix)]. The call overwrites the
    two entries of the list [markers] that it is given, so the result is the
    value returned together with the list after the call; [None] is the
    answer to a list that does not hold two markers, which is left as it
    was. A marker is the list of its coordinates. *)
Definition getInverseFlowDirection (markers : list (list F))
    (transmatrix : list (list F))
  : result (option (F * F) * list (list F)) :=
  match markers with
  | [marker0; marker1] =>
      (* markers[i] = np.append(np.array(markers[i]), [1]) *)
      let marker0 := marker0 ++ [f_of_Z 1] in
      let marker1 := marker1 ++ [f_of_Z 1] in
      (* markers[i] = transmatrix.dot(markers[i]) *)
      let* marker0 := matrix_dot transmatrix marker0 in
      let* marker1 := matrix_dot transmatrix marker1 in
      let* x0 := get1 marker0 0 in
      let* x1 := get1 marker1 0 in
      let* y0 := get1 marker0 1 in
      let* y1 := get1 marker1 1 in
      let vector := (f_sub x0 x1, f_sub y0 y1) in
      let norm := f_norm (fst vector) (snd vector) in
      let inverseflow :=
        if f_nonzero norm
        then (f_div (fst vector) norm, f_div (snd vector) norm)
        else (f_of_Z (-1), f_of_Z 0) in
      Ok (Some inverseflow, [marker0; marker1])
  | _ => Ok (None, markers)
  end.

End FlowDirection.

(** ** An executable instance of the interfaces

    Exact rational arithmetic stands in for binary64 wherever a statement is
    evaluated on concrete data; square roots and exponentials are rational
    approximations that are exact on perfect squares and at 0. *)

Module Exact.

Definition qtrunc (q : Q) : Z := Z.quot (Qnum q) (Zpos (Qden q)).

(** Rounding to the nearest integer, halves away from zero. *)
Definition qround_away (q : Q) : Z :=
  Z.sgn (Qnum q) * ((2 * Z.abs (Qnum q) + Zpos (Qden q)) / (2 * Zpos (Qden q))).

Definition qscale : Z := 1000000000.

Definition qsqrt (q : Q) : Q :=
  Qred (Z.sqrt (Qnum q * qscale * qscale / Zpos (Qden q)) # 1000000000).

Fixpoint qexp_series (n : nat) (k : Z) (term acc x : Q) : Q :=
  match n with
  | O => acc
  | S n' =>
      let term' := Qred (term * x / inject_Z k) in
      qexp_series n' (k + 1) term' (Qred (acc + term')) x
  end.

Definition qexp (x : Q) : Q :=
  if Qle_bool 0 x then qexp_series 12 1 1 1 x
  else Qred (/ qexp_series 12 1 1 1 (- x)).

#[export] Instance float_ops : Float64Ops Q := {|
  f_of_Z := inject_Z;
  f_of_Q := Qred;
  f_add := fun a b => Qred (a + b);
  f_sub := fun a b => Qred (a - b);
  f_mul := fun a b => Qred (a * b);
  f_div := fun a b => Qred (a / b);
  f_neg := fun a => Qred (- a);
  f_eqb := Qeq_bool;
  f_ltb := fun a b => negb (Qle_bool b a);
  f_leb := Qle_bool;
  f_trunc := qtrunc;
  f_norm := fun a b => qsqrt (a * a + b * b);
  f_hypot := fun a b => qsqrt (a * a + b * b);
  f_exp := qexp;
  f_round1 := fun a => Qred (qround_away (a * 10) # 10);
  f_round0 := fun a => inject_Z (qround_away a);
  f_abs := fun a => Qred (Qabs a);
  f_is_nan_or_inf := fun _ => false
|}.

(** A stand-in for [cv2.fillPoly]: the bounding box of the polygon, clipped to
    the canvas. *)
Definition fill_box (height width : Z) (poly : list (Z * Z)) (y x : Z) : bool :=
  match poly with
  | [] => false
  | p :: rest =>
      (fold_left Z.min (map fst rest) (fst p) <=? x) &&
      (x <=? fold_left Z.max (map fst rest) (fst p)) &&
      (fold_left Z.min (map snd rest) (snd p) <=? y) &&
      (y <=? fold_left Z.max (map snd rest) (snd p)) &&
      (0 <=? x) && (x <? width) && (0 <=? y) && (y <? height)
  end.

(** Shoelace area of a polygon with integer corners. *)
Fixpoint shoelace (first : Z * Z) (pts : list (Z * Z)) : Z :=
  match pts with
  | [] => 0
  | [p] => fst p * snd first - fst first * snd p
  | p :: (q :: _) as rest => fst p * snd q - fst q * snd p + shoelace first rest
  end.

Definition polygon_area (c : list (Z * Z)) : Q :=
  match c with
  | [] => 0
  | p :: _ => Qred (Z.abs (shoelace p c) # 2)
  end.

(** [np.linspace]: [num] evenly spaced values that end at [stop]. *)
Definition even_steps (start stop : Q) (num : Z) : list Q :=
  if num <=? 0 then []
  else if num =? 1 then [start]
  else map (fun k => Qred (start + inject_Z k * (stop - start) / inject_Z (num - 1)))
           (seqZ 0 num).

(** [argrelextrema] with [np.less_equal]: the positions that are not above
    any of the [order] neighbours on either side; positions beyond an end
    count as the end. *)
Definition not_above_neighbours (data : list Z) (order : Z) : list Z :=
  let n := Z.of_nat (length data) in
  let at_ i := default 0 (data !! Z.to_nat (Z.max 0 (Z.min (n - 1) i))) in
  List.filter (fun i =>
                 forallb (fun k => (at_ i <=? at_ (i + k)) && (at_ i <=? at_ (i - k)))
                         (seqZ 1 order))
              (seqZ 0 n).

(** The piecewise linear curve through data points, constant beyond its
    ends, stands in for the splines of FITPACK. *)
Fixpoint linear_through (pts : list (Z * Z)) (x : Q) : Q :=
  match pts with
  | [] => 0
  | [p] => inject_Z (snd p)
  | p :: (q :: _) as rest =>
      if Qle_bool x (inject_Z (fst p)) then inject_Z (snd p)
      else if Qle_bool x (inject_Z (fst q)) then
        Qred (inject_Z (snd p)
              + (x - inject_Z (fst p)) * inject_Z (snd q - snd p)
                / inject_Z (fst q - fst p))
      else linear_through rest x
  end.

(** The places where the piecewise linear curve through [(0, v0)],
    [(1, v1)], ... crosses zero. *)
Fixpoint linear_roots (k : Z) (v : list Z) : list Q :=
  match v with
  | a :: (b :: _) as v' =>
      (if ((a <? 0) && (0 <=? b)) || ((0 <? a) && (b <=? 0))
       then [Qred (inject_Z k + (inject_Z a / inject_Z (a - b)))]
       else [])
      ++ linear_roots (k + 1) v'
  | _ => []
  end.

#[export] Instance extern : Extern Q := {|
  contourArea := polygon_area;
  fillPoly := fill_box;
  linspace := even_steps;
  argrelextrema_le := not_above_neighbours;
  spline_roots := fun v => Ok (linear_roots 0 v);
  interpolating_spline := fun pts x => Ok (linear_through pts x);
  smoothing_spline := fun pts =>
    if (length pts <? 4)%nat then Raise FitpackError
    else Ok (false, linear_through pts)
|}.

(** Two horizontal trajectories a hundred pixels apart. *)
Definition upper : trajectory (F := Q) := [(0, 0, PInt 10); (10, 0, PInt 10)].
Definition lower : trajectory (F := Q) := [(0, 100, PInt 10); (10, 100, PInt 10)].

(** A 40 x 25 outer rectangle that encloses a 40 x 20 inner one. *)
Definition outer_box : contour := [(0, 0); (40, 0); (40, 25); (0, 25)].
Definition inner_box : contour := [(0, 2); (40, 2); (40, 22); (0, 22)].
Definition box_hierarchy : list hierarchy_entry :=
  [(-1, -1, 1, -1); (-1, -1, -1, 0)].

(** An image whose pixels are all 255. *)
Definition bright (h w : nat) : array2 := replicate h (replicate w 255).


(** A dark 10 x 10 image with a bright band in the rows 4 to 6. *)
Definition band : array2 :=
  replicate 4 (replicate 10 0) ++ replicate 3 (replicate 10 255)
  ++ replicate 3 (replicate 10 0).


(** A horizontal trajectory through the band, and the same with the widths
    that the profiler measures with the stand-in splines. *)
Definition straight : trajectory (F := Q) := [(2, 5, PInt 10); (7, 5, PInt 10)].
Definition measured : trajectory (F := Q) :=
  [(2, 5, PFloat (5 # 2)%Q); (7, 5, PFloat (5 # 2)%Q)].


(** A horizontal trajectory of five points. *)
Definition level : trajectory (F := Q) :=
  [(0, 5, PInt 10); (10, 5, PInt 10); (20, 5, PInt 10); (30, 5, PInt 10);
   (40, 5, PInt 10)].




(** The same trajectory fifty pixels further down. *)
Definition level_below : trajectory (F := Q) :=
  [(0, 55, PInt 10); (10, 55, PInt 10); (20, 55, PInt 10); (30, 55, PInt 10);
   (40, 55, PInt 10)].

(** The corners of a square, out of order. *)
Definition square : list (Z * Z) := [(9, 9); (1, 9); (9, 1); (1, 1)].

(** The moments of a polygon with integer corners by Green's formula, as
    [cv2.moments] computes them for a contour: the area and the first
    moments, with the sign of a positive area. *)
Fixpoint moment_sums (first : Z * Z) (pts : list (Z * Z)) : Z * Z * Z :=
  let edge (p q : Z * Z) :=
    let a := fst p * snd q - fst q * snd p in
    (a, (fst p + fst q) * a, (snd p + snd q) * a) in
  match pts with
  | [] => (0, 0, 0)
  | [p] => edge p first
  | p :: (q :: _) as rest =>
      let '(a, sx, sy) := edge p q in
      let '(a', sx', sy') := moment_sums first rest in
      (a + a', sx + sx', sy + sy')
  end.

Definition polygon_moments (c : list (Z * Z)) : Q * Q * Q :=
  match c with
  | [] => (0, 0, 0)%Q
  | p :: _ =>
      let '(a, sx, sy) := moment_sums p c in
      let s := if a <? 0 then -1 else 1 in
      (Qred (s * a # 2), Qred (s * sx # 6), Qred (s * sy # 6))
  end.

(** A stand-in for [cv2.pointPolygonTest]: strictly inside the bounding box
    of the polygon. *)
Definition inside_box (poly : list (Z * Z)) (pt : Z * Z) : bool :=
  match poly with
  | [] => false
  | p :: rest =>
      (fold_left Z.min (map fst rest) (fst p) <? fst pt) &&
      (fst pt <? fold_left Z.max (map fst rest) (fst p)) &&
      (fold_left Z.min (map snd rest) (snd p) <? snd pt) &&
      (snd pt <? fold_left Z.max (map snd rest) (snd p))
  end.

#[export] Instance extern_shapes : ExternShapes Q := {|
  moments := polygon_moments;
  strictly_inside := inside_box
|}.

(** Two square markers to the left and to the right of the boxes. *)
Definition marker_left : contour := [(-10, 10); (-6, 10); (-6, 14); (-10, 14)].
Definition marker_right : contour := [(46, 10); (50, 10); (50, 14); (46, 14)].

#[export] Instance extern_dot : ExternDot Q := {|
  vector_dot := fun a b =>
    fold_left (fun acc p => Qred (acc + fst p * snd p)) (zip a b) 0%Q
|}.

(** The matrix that maps every point to itself. *)
Definition identity3 : list (list Q) :=
  [[1; 0; 0]; [0; 1; 0]; [0; 0; 1]]%Q.

End Exact.

(** * Properties *)

(** ** Comparator and merger *)

Section MergeProofs.
Context {F : Type} {FO : Float64Ops F} {EX : Extern F}.

Lemma check_present_none (dup : trajectory -> trajectory -> bool) item fl :
  forall todo i,
    Forall (fun f => dup item f = false) todo ->
    check_present dup item fl i todo = (fl, false).
Proof.
  induction todo as [|f todo IH]; intros i Hall; simpl.
  - reflexivity.
  - inversion Hall as [|? ? Hf Hrest]; subst.
    rewrite Hf. apply IH. exact Hrest.
Qed.

Lemma merge_loop_fresh (dup : trajectory -> trajectory -> bool) :
  forall stack fl,
    Forall (fun item => Forall (fun f => dup item f = false) fl) stack ->
    ForallOrdPairs (fun x y => dup y x = false) stack ->
    merge_loop dup stack fl = fl ++ stack.
Proof.
  induction stack as [|item stack IH]; intros fl Hfl Hpairs; simpl.
  - by rewrite app_nil_r.
  - inversion Hfl as [|? ? Hitem Hrest]; subst.
    inversion Hpairs as [|? ? Hhead Htail]; subst.
    rewrite (check_present_none dup item fl fl 0%nat Hitem).
    rewrite IH.
    + by rewrite <- app_assoc.
    + rewrite Forall_forall in Hrest. rewrite Forall_forall in Hhead.
      apply Forall_forall. intros y Hy. apply Forall_app. split.
      * by apply Hrest.
      * constructor; [by apply Hhead | constructor].
    + exact Htail.
Qed.

Lemma ordpairs_of_lookup {A} (R : A -> A -> Prop) (l : list A) :
  (forall i j a b, (i < j)%nat -> l !! i = Some a -> l !! j = Some b -> R a b) ->
  ForallOrdPairs R l.
Proof.
  induction l as [|x l IH]; intros H; constructor.
  - apply Forall_forall. intros y Hy.
    apply list_elem_of_lookup in Hy as [j Hj].
    apply (H 0%nat (S j) x y); [lia|reflexivity|exact Hj].
  - apply IH. intros i j a b Hij Ha Hb.
    apply (H (S i) (S j) a b); [lia|exact Ha|exact Hb].
Qed.


(** C7 (amended). When no two members at distinct positions of the pooled
    list [traclist1 ++ traclist2] are duplicates of each other under the
    selected metric and threshold, two members of one list as well as a member
    of each, [combineTrajectories] returns a list whose length is the sum of
    the two input lengths and which holds exactly the pooled members: nothing
    is dropped or replaced. *)
Theorem combineTrajectories_disjoint
    (traclist1 traclist2 : list trajectory) (maxoverlap : F)
    (useHausdorff : bool) (hausdorffbias : F) :
  (forall i j a b,
      i <> j ->
      (traclist1 ++ traclist2) !! i = Some a ->
      (traclist1 ++ traclist2) !! j = Some b ->
      criteria maxoverlap useHausdorff hausdorffbias a b = false) ->
  length (combineTrajectories traclist1 traclist2 maxoverlap useHausdorff
                              hausdorffbias)
  = (length traclist1 + length traclist2)%nat
  /\ combineTrajectories traclist1 traclist2 maxoverlap useHausdorff hausdorffbias
     ≡ₚ traclist1 ++ traclist2.
Proof.
  intros Hdistinct.
  assert (Heq : combineTrajectories traclist1 traclist2 maxoverlap useHausdorff
                                    hausdorffbias
                = reverse (traclist1 ++ traclist2)).
  { unfold combineTrajectories. rewrite merge_loop_fresh.
    - reflexivity.
    - apply Forall_forall. intros; constructor.
    - apply ordpairs_of_lookup. intros i j a b Hij Ha Hb.
      apply reverse_lookup_Some in Ha as [Ha _].
      apply reverse_lookup_Some in Hb as [Hb Hlen].
      eapply Hdistinct; [ | exact Hb | exact Ha]. lia. }
  rewrite Heq. split.
  - by rewrite length_reverse, length_app.
  - apply reverse_Permutation.
Qed.


Lemma fold_min_spec (l : list Z) : forall x,
  fold_left Z.min l x ∈ x :: l /\ (forall y, y ∈ x :: l -> fold_left Z.min l x <= y).
Proof.
  induction l as [|z l IH]; intros x; simpl.
  - split; [left|]. intros y Hy. apply list_elem_of_singleton in Hy. lia.
  - destruct (IH (Z.min x z)) as [Hin Hle]. split.
    + apply elem_of_cons in Hin as [Hin|Hin].
      * rewrite Hin. destruct (Z.min_spec x z) as [[_ ->]|[_ ->]];
          [left | right; left].
      * by do 2 right.
    + intros y Hy.
      assert (Hm : fold_left Z.min l (Z.min x z) <= Z.min x z)
        by (apply Hle; left).
      apply elem_of_cons in Hy as [->|Hy]; [lia|].
      apply elem_of_cons in Hy as [->|Hy]; [lia|].
      apply Hle. by right.
Qed.

Lemma fold_max_spec (l : list Z) : forall x,
  fold_left Z.max l x ∈ x :: l /\ (forall y, y ∈ x :: l -> y <= fold_left Z.max l x).
Proof.
  induction l as [|z l IH]; intros x; simpl.
  - split; [left|]. intros y Hy. apply list_elem_of_singleton in Hy. lia.
  - destruct (IH (Z.max x z)) as [Hin Hle]. split.
    + apply elem_of_cons in Hin as [Hin|Hin].
      * rewrite Hin. destruct (Z.max_spec x z) as [[_ ->]|[_ ->]];
          [right; left | left].
      * by do 2 right.
    + intros y Hy.
      assert (Hm : Z.max x z <= fold_left Z.max l (Z.max x z))
        by (apply Hle; left).
      apply elem_of_cons in Hy as [->|Hy]; [lia|].
      apply elem_of_cons in Hy as [->|Hy]; [lia|].
      apply Hle. by right.
Qed.

Lemma fold_min_same_elements (l l' : list Z) x x' :
  (forall y, y ∈ x :: l <-> y ∈ x' :: l') ->
  fold_left Z.min l x = fold_left Z.min l' x'.
Proof.
  intros Hsame.
  destruct (fold_min_spec l x) as [Hin Hle].
  destruct (fold_min_spec l' x') as [Hin' Hle'].
  apply Z.le_antisymm; [apply Hle, Hsame, Hin' | apply Hle', Hsame, Hin].
Qed.

Lemma fold_max_same_elements (l l' : list Z) x x' :
  (forall y, y ∈ x :: l <-> y ∈ x' :: l') ->
  fold_left Z.max l x = fold_left Z.max l' x'.
Proof.
  intros Hsame.
  destruct (fold_max_spec l x) as [Hin Hle].
  destruct (fold_max_spec l' x') as [Hin' Hle'].
  apply Z.le_antisymm; [apply Hle', Hsame, Hin | apply Hle, Hsame, Hin'].
Qed.

Lemma boundingRect_Permutation (l l' : list (Z * Z)) :
  l ≡ₚ l' -> boundingRect l = boundingRect l'.
Proof.
  intros Hperm.
  destruct l as [|p rest], l' as [|p' rest']; try reflexivity.
  - by apply Permutation_nil_l in Hperm.
  - by apply Permutation_nil_r in Hperm.
  - unfold boundingRect.
    assert (Hx : forall y, y ∈ fst p :: map fst rest <-> y ∈ fst p' :: map fst rest').
    { intros y. change (y ∈ map fst (p :: rest) <-> y ∈ map fst (p' :: rest')).
      by rewrite Hperm. }
    assert (Hy : forall y, y ∈ snd p :: map snd rest <-> y ∈ snd p' :: map snd rest').
    { intros y. change (y ∈ map snd (p :: rest) <-> y ∈ map snd (p' :: rest')).
      by rewrite Hperm. }
    rewrite (fold_min_same_elements _ _ _ _ Hx), (fold_max_same_elements _ _ _ _ Hx),
      (fold_min_same_elements _ _ _ _ Hy), (fold_max_same_elements _ _ _ _ Hy).
    reflexivity.
Qed.

Lemma rectangle_comm (a b : trajectory) :
  calculateTrajectoryRectangle (a ++ b) = calculateTrajectoryRectangle (b ++ a).
Proof.
  unfold calculateTrajectoryRectangle.
  rewrite (boundingRect_Permutation (rectangle_points (a ++ b))
                                    (rectangle_points (b ++ a))).
  - reflexivity.
  - unfold rectangle_points. rewrite !flat_map_app. apply Permutation_app_comm.
Qed.

Lemma countColour_ext (h w : Z) (m1 m2 : Z -> Z -> bool) :
  (forall y x, m1 y x = m2 y x) -> countColour h w m1 = countColour h w m2.
Proof.
  intros Hext. unfold countColour. f_equal. f_equal.
  apply List.filter_ext. intros p. apply Hext.
Qed.

(** C6. Given that dividing an integer-valued float by itself yields [1.0],
    a trajectory whose skin polygon colours at least one pixel overlaps itself
    with value [1.0], and the overlap of two trajectories does not depend on
    their order. *)
Theorem overlap_self_and_symmetric :
  (forall n, 0 < n -> f_div (f_of_Z n) (f_of_Z n) = f_one) ->
  (forall t, getSkinOfTrajectory t <> [] -> 0 < rendered_pixels t ->
             calculateTrajectoriesOverlap t t = f_one)
  /\ (forall a b, calculateTrajectoriesOverlap a b = calculateTrajectoriesOverlap b a).
Proof.
  intros Hdiv. split.
  - intros t Hskin Hpix. unfold calculateTrajectoriesOverlap.
    unfold rendered_pixels in Hpix.
    assert (Hlen : (length t =? 0)%nat = false) by (by destruct t).
    assert (Hs : (length (getSkinOfTrajectory t) =? 0)%nat = false)
      by (by destruct (getSkinOfTrajectory t)).
    rewrite Hlen, Hs. cbn [orb]. cbv zeta in *.
    set (rect := calculateTrajectoryRectangle (t ++ t)) in *.
    set (n := countColour _ _ _) in *.
    rewrite Z.min_id.
    destruct (n =? 0) eqn:Hn; [lia|].
    rewrite (countColour_ext _ _ _ (fillPoly (rect.2.2 - rect.1.2) (rect.2.1 - rect.1.1)
                 (subtract_offset rect.1 (getSkinOfTrajectory t)))).
    + fold n. rewrite Hn. apply Hdiv. lia.
    + intros y x. apply andb_diag.
  - intros a b. unfold calculateTrajectoriesOverlap.
    rewrite (rectangle_comm b a).
    rewrite (orb_comm (length b =? 0)%nat).
    destruct ((length a =? 0)%nat || (length b =? 0)%nat); [done|].
    cbv zeta.
    rewrite (orb_comm (length (getSkinOfTrajectory b) =? 0)%nat).
    destruct ((length (getSkinOfTrajectory a) =? 0)%nat
              || (length (getSkinOfTrajectory b) =? 0)%nat); [done|].
    rewrite (Z.min_comm (countColour _ _ (fillPoly _ _ (subtract_offset _ (getSkinOfTrajectory b))))).
    destruct (Z.min _ _ =? 0); [done|].
    erewrite (countColour_ext _ _ (fun y x => fillPoly _ _ (subtract_offset _ (getSkinOfTrajectory b)) y x && _)).
    + reflexivity.
    + intros y x. apply andb_comm.
Qed.


Lemma f_maximum_elem (l : list F) : forall x, f_maximum x l ∈ x :: l.
Proof.
  unfold f_maximum.
  induction l as [|y l IHl]; intros x; simpl; [left|].
  destruct (f_ltb x y).
  - right. apply IHl.
  - specialize (IHl x). apply elem_of_cons in IHl as [->|Hin]; [left | by do 2 right].
Qed.

Lemma f_minimum_zero (L : DistanceLaws) (l : list F) : forall x,
  Forall (fun v => f_is_nan_or_inf v = false) (x :: l) ->
  Forall (fun v => f_ltb v f_zero = false) (x :: l) ->
  Exists (fun v => f_eqb v f_zero = true) (x :: l) ->
  f_eqb (f_minimum x l) f_zero = true.
Proof.
  unfold f_minimum.
  induction l as [|y l IHl]; intros x Hfin Hnn Hz; simpl.
  - by inversion Hz as [? ? Hx|? ? Hx]; [|inversion Hx].
  - inversion Hfin as [|? ? Hfx Hfin']; subst.
    inversion Hfin' as [|? ? Hfy Hfin'']; subst.
    inversion Hnn as [|? ? Hx Hnn']; subst.
    inversion Hnn' as [|? ? Hy Hnn'']; subst.
    apply IHl.
    + constructor; [by destruct (f_ltb y x)|done].
    + constructor; [by destruct (f_ltb y x)|done].
    + destruct (f_ltb y x) eqn:Hlt.
      * inversion Hz as [? ? Hzx|? ? Hz']; subst.
        -- pose proof (below_zero L y x Hzx Hlt) as Hneg. congruence.
        -- inversion Hz' as [? ? Hzy|? ? Hz'']; subst; [by left | by right].
      * inversion Hz as [? ? Hzx|? ? Hz']; subst; [by left|].
        inversion Hz' as [? ? Hzy|? ? Hz'']; subst; [|by right].
        left. by apply (zero_least L y x).
Qed.

Lemma hausdorff_self (L : DistanceLaws) (t : trajectory) :
  (forall p q, p ∈ t -> q ∈ t -> f_is_nan_or_inf (euclid p q) = false) ->
  f_eqb (calculateTrajectoriesDistanceHausdorff t t) f_zero = true.
Proof.
  intros Hfin. unfold calculateTrajectoriesDistanceHausdorff.
  destruct t as [|p t]; [apply (zero_eq_zero L)|].
  cbn [length Nat.eqb orb]. cbv zeta.
  assert (Hd : f_eqb (directed_hausdorff (p :: t) (p :: t)) f_zero = true).
  { unfold directed_hausdorff. set (pts := p :: t) in *.
    assert (Hall : Forall (fun v => f_eqb v f_zero = true)
                     (map (fun q => f_minimum_list (map (euclid q) pts)) pts)).
    { apply Forall_forall. intros v Hv.
      apply list_elem_of_fmap in Hv as [q [-> Hq]].
      unfold pts at 1. cbn [map f_minimum_list].
      apply (f_minimum_zero L).
      - apply Forall_forall. intros d Hd.
        change (d ∈ map (euclid q) pts) in Hd.
        apply list_elem_of_fmap in Hd as [r [-> Hr]]. by apply Hfin.
      - apply Forall_forall. intros d Hd.
        change (d ∈ map (euclid q) pts) in Hd.
        apply list_elem_of_fmap in Hd as [r [-> _]]. apply (norm_nonneg L).
      - change (Exists (fun v => f_eqb v f_zero = true) (map (euclid q) pts)).
        apply Exists_exists. exists (euclid q q). split.
        + apply list_elem_of_fmap. by exists q.
        + unfold euclid. rewrite !Z.sub_diag. apply (norm_zero L). }
    unfold pts in *. cbn [map f_maximum_list] in *.
    rewrite Forall_forall in Hall. apply Hall. apply f_maximum_elem. }
  by destruct (f_gtb _ _).
Qed.

(** C10 (amended). The Hausdorff distance of an empty trajectory to any
    trajectory, in either order, is the literal [0.0]. It compares equal to
    the distance of a trajectory to itself, given the laws of [DistanceLaws],
    which hold of binary64, and that no distance between two points of the
    trajectory is NaN or infinite. With [useHausdorff] and
    [0.0 <= hausdorffbias], an empty item met while the final list already
    holds a trajectory is flagged as a duplicate of the first accepted one:
    it replaces nothing and is not appended. An empty item met while the
    final list is still empty is accepted as its first entry, whatever the
    bias. *)
Theorem hausdorff_empty_is_duplicate
    (maxoverlap hausdorffbias : F) (t first : trajectory)
    (rest stack : list trajectory) :
  calculateTrajectoriesDistanceHausdorff [] t = f_zero
  /\ calculateTrajectoriesDistanceHausdorff t [] = f_zero
  /\ (DistanceLaws ->
      (forall p q, p ∈ t -> q ∈ t -> f_is_nan_or_inf (euclid p q) = false) ->
      f_eqb (calculateTrajectoriesDistanceHausdorff t t) f_zero = true)
  /\ (f_leb f_zero hausdorffbias = true ->
      check_present (criteria maxoverlap true hausdorffbias) []
                    (first :: rest) 0 (first :: rest)
      = (first :: rest, true)
      /\ merge_loop (criteria maxoverlap true hausdorffbias) ([] :: stack)
                    (first :: rest)
         = merge_loop (criteria maxoverlap true hausdorffbias) stack
                      (first :: rest))
  /\ merge_loop (criteria maxoverlap true hausdorffbias) ([] :: stack) []
     = merge_loop (criteria maxoverlap true hausdorffbias) stack [[]].
Proof.
  split; [done|]. split.
  { unfold calculateTrajectoriesDistanceHausdorff. by rewrite orb_true_r. }
  split; [intros L Hfin; by apply hausdorff_self|].
  split; [|done].
  intros Hbias.
  assert (Hcheck : check_present (criteria maxoverlap true hausdorffbias) []
                     (first :: rest) 0 (first :: rest) = (first :: rest, true)).
  { cbn [check_present criteria]. unfold calculateTrajectoriesDistanceHausdorff.
    cbn [length Nat.eqb orb]. rewrite Hbias.
    by destruct (length first). }
  split; [exact Hcheck|]. cbn [merge_loop]. by rewrite Hcheck.
Qed.

End MergeProofs.

(** ** Zone geometry locator *)

Section LocatorProofs.
Context {F : Type} {FO : Float64Ops F} {EX : Extern F}.

Lemma first_index_found (p : nat -> bool) (j : nat) :
  forall count start,
    (start <= j < start + count)%nat ->
    p j = true ->
    (forall k, (start <= k < j)%nat -> p k = false) ->
    first_index p start count = Some j.
Proof.
  induction count as [|count IH]; intros start Hrange Hj Hbefore; [lia|].
  simpl. destruct (decide (start = j)) as [->|Hne].
  - by rewrite Hj.
  - rewrite (Hbefore start) by lia. apply IH; [lia|done|].
    intros k Hk. apply Hbefore. lia.
Qed.

Lemma first_index_none (p : nat -> bool) :
  forall count start,
    (forall k, (start <= k < start + count)%nat -> p k = false) ->
    first_index p start count = None.
Proof.
  induction count as [|count IH]; intros start Hnone; [done|].
  simpl. rewrite (Hnone start) by lia. apply IH. intros k Hk. apply Hnone. lia.
Qed.

Lemma scan_contours_first (contours : list contour)
    (hierarchy : list hierarchy_entry) (threshold threshratio variance : F)
    (i j : nat) :
  (j < length contours)%nat ->
  zone_pair contours hierarchy threshold threshratio variance i j = true ->
  forall count start,
    (start <= i < start + count)%nat ->
    (forall i' j', (start <= i')%nat -> (j' < length contours)%nat ->
                   (i' < i \/ (i' = i /\ j' < j))%nat ->
                   zone_pair contours hierarchy threshold threshratio variance
                             i' j' = false) ->
    scan_contours contours hierarchy threshold threshratio variance start count
    = (Z.of_nat i, Z.of_nat j).
Proof.
  intros Hj Hpair.
  induction count as [|count IH]; intros start Hrange Hfirst; [lia|].
  simpl. destruct (decide (start = i)) as [->|Hne].
  - unfold zone_pair in Hpair.
    destruct (candidate_area contours hierarchy threshold i) as [a|] eqn:Ha; [|done].
    rewrite (first_index_found _ j); [done|lia|done|].
    intros k Hk. specialize (Hfirst i k). unfold zone_pair in Hfirst.
    rewrite Ha in Hfirst. apply Hfirst; lia.
  - assert (Hnext : scan_contours contours hierarchy threshold threshratio
                      variance (S start) count = (Z.of_nat i, Z.of_nat j)).
    { apply IH; [lia|]. intros i' j' Hi' Hj' Hlex. apply Hfirst; [lia|done|done]. }
    destruct (candidate_area contours hierarchy threshold start) as [a|] eqn:Ha;
      [|done].
    rewrite first_index_none; [done|].
    intros k Hk. specialize (Hfirst start k). unfold zone_pair in Hfirst.
    rewrite Ha in Hfirst. apply Hfirst; lia.
Qed.

(** C1 (amended). When contours and hierarchy have the same length, the
    locator returns the first pair [(i, j)], in the order of the outer index
    and then of the inner index, that passes the tests of the code: [i] has no
    parent, has a child entry, and its area (taken as [1.0] when zero) is not
    below the threshold; [j] has parent [i], its own area is not below the
    threshold either, and its ratio to the parent area, rounded to one
    decimal, lies in [[R - e, R + e]]. The result is then not the sentinel
    [(-1, -1)]. *)
Theorem findSeparationZoneBoundaries_first_pair (contours : list contour)
    (hierarchy : list hierarchy_entry) (threshold threshratio variance : F)
    (i j : nat) :
  length contours = length hierarchy ->
  (i < length contours)%nat ->
  (j < length contours)%nat ->
  zone_pair contours hierarchy threshold threshratio variance i j = true ->
  (forall i' j', (j' < length contours)%nat ->
                 (i' < i \/ (i' = i /\ j' < j))%nat ->
                 zone_pair contours hierarchy threshold threshratio variance
                           i' j' = false) ->
  findSeparationZoneBoundaries contours hierarchy threshold threshratio variance
  = (Z.of_nat i, Z.of_nat j)
  /\ findSeparationZoneBoundaries contours hierarchy threshold threshratio variance
     <> (-1, -1).
Proof.
  intros Hlen Hi Hj Hpair Hfirst.
  assert (Hres : findSeparationZoneBoundaries contours hierarchy threshold
                   threshratio variance = (Z.of_nat i, Z.of_nat j)).
  { unfold findSeparationZoneBoundaries.
    rewrite <- Hlen, Nat.eqb_refl. cbn [negb].
    apply (scan_contours_first _ _ _ _ _ i j); [done|done|lia|].
    intros i' j' _. apply Hfirst. }
  split; [exact Hres|]. rewrite Hres. intros Heq. injection Heq. lia.
Qed.

End LocatorProofs.

(** ** The result monad *)

Lemma rbind_ok {A B : Type} (r : result A) (k : A -> result B) (b : B) :
  rbind r k = Ok b -> exists a, r = Ok a /\ k a = Ok b.
Proof. destruct r as [a| |]; [|done|done]. intros Hk. by exists a. Qed.

Lemma foldM_ok_invariant {A B : Type} (I : B -> Prop) (f : B -> A -> result B)
    (l : list A) :
  (forall b a b', I b -> f b a = Ok b' -> I b') ->
  forall b b', I b -> foldM f l b = Ok b' -> I b'.
Proof.
  intros Hstep. induction l as [|a l IHl]; intros b b' Hb Hfold; simpl in Hfold.
  - by injection Hfold as <-.
  - apply rbind_ok in Hfold as [b1 [Hf Hfold]].
    apply (IHl b1); [|done]. by apply (Hstep b a).
Qed.

Tactic Notation "peel" hyp(H) "as" ident(a) ident(Ha) :=
  apply rbind_ok in H as [a [Ha H]].

Lemma rbind_terminates {A B : Type} (r : result A) (k : A -> result B) :
  terminates r -> (forall a, terminates (k a)) -> terminates (rbind r k).
Proof. destruct r; [intros _ Hk; apply Hk|done|done]. Qed.

Lemma foldM_terminates {A B : Type} (f : B -> A -> result B) (l : list A) :
  (forall b a, terminates (f b a)) -> forall b, terminates (foldM f l b).
Proof.
  intros Hf. induction l as [|a l IHl]; intros b; simpl; [done|].
  apply rbind_terminates; [apply Hf|apply IHl].
Qed.

Lemma of_option_terminates {A : Type} (e : exn) (o : option A) :
  terminates (of_option e o).
Proof. by destruct o. Qed.

Lemma get2_terminates (a : array2) (y x : Z) : terminates (get2 a y x).
Proof.
  unfold get2.
  destruct (axis_index (nrows a) y), (axis_index (ncols a) x); try done.
  destruct (a !! _); [apply of_option_terminates|done].
Qed.

Lemma set2_terminates (a : array2) (y x v : Z) : terminates (set2 a y x v).
Proof.
  unfold set2.
  by destruct (axis_index (nrows a) y), (axis_index (ncols a) x).
Qed.

Lemma max2_terminates (a : array2) : terminates (max2 a).
Proof. unfold max2. by destruct (concat a). Qed.

(** ** NumPy arrays and the shortest-path tracer *)

Section ArrayProofs.

Lemma foldM_invariant {A B : Type} (I : B -> Prop) (f : B -> A -> result B)
    (l : list A) :
  (forall b a, a ∈ l -> I b -> exists b', f b a = Ok b' /\ I b') ->
  forall b, I b -> exists b', foldM f l b = Ok b' /\ I b'.
Proof.
  induction l as [|a l IHl]; intros Hstep b Hb; simpl.
  - by exists b.
  - destruct (Hstep b a) as [b1 [Hf Hb1]]; [left|done|].
    rewrite Hf. simpl. apply IHl; [|done].
    intros b2 a2 Ha2. apply Hstep. by right.
Qed.

Lemma axis_index_nonneg (n : nat) (i : Z) :
  0 <= i < Z.of_nat n -> axis_index n i = Some (Z.to_nat i).
Proof.
  intros Hi. unfold axis_index.
  destruct (0 <=? i) eqn:H0; [|lia].
  destruct (i <? Z.of_nat n) eqn:H1; [done|lia].
Qed.

Lemma corner_zero_ncols (h w : nat) (d : array2) :
  corner_zero h w d -> ncols d = w.
Proof.
  intros (_ & Hrows & row & Hrow & _). unfold ncols.
  destruct d as [|r d]; [done|]. simpl in *. injection Hrow as ->.
  by inversion Hrows.
Qed.

Lemma corner_zero_zeros (h w : nat) :
  (1 <= h)%nat -> (1 <= w)%nat -> corner_zero h w (zeros h w).
Proof.
  intros Hh Hw. unfold corner_zero, zeros. repeat split.
  - apply length_replicate.
  - apply Forall_replicate, length_replicate.
  - exists (replicate w 0). split; apply lookup_replicate_2; lia.
Qed.

Lemma corner_zero_set2 (h w : nat) (d : array2) (y x v : Z) :
  corner_zero h w d ->
  1 <= y < Z.of_nat h -> 0 <= x < Z.of_nat w ->
  exists d', set2 d y x v = Ok d' /\ corner_zero h w d'.
Proof.
  intros Hd Hy Hx. pose proof (corner_zero_ncols _ _ _ Hd) as Hcols.
  destruct Hd as (Hlen & Hrows & row & Hrow & Hcell).
  unfold set2, nrows. rewrite Hcols, Hlen.
  rewrite !axis_index_nonneg by lia.
  eexists. split; [reflexivity|]. repeat split.
  - by rewrite length_alter.
  - apply Forall_alter; [done|]. intros r _ Hr. simpl. by rewrite length_insert.
  - exists row. split; [|done]. rewrite list_lookup_alter_ne; [done|lia].
Qed.

Lemma get2_in_range (a : array2) (y x : Z) :
  rectangular a ->
  0 <= y < Z.of_nat (nrows a) -> 0 <= x < Z.of_nat (ncols a) ->
  exists v, get2 a y x = Ok v.
Proof.
  intros Hrect Hy Hx. unfold get2. rewrite !axis_index_nonneg by done.
  destruct (lookup_lt_is_Some_2 a (Z.to_nat y)) as [row Hrow];
    [unfold nrows in Hy; lia|].
  rewrite Hrow.
  assert (Hlen : length row = ncols a).
  { unfold rectangular in Hrect. rewrite Forall_forall in Hrect.
    apply Hrect. by apply list_elem_of_lookup_2 in Hrow. }
  destruct (lookup_lt_is_Some_2 row (Z.to_nat x)) as [v Hv]; [lia|].
  rewrite Hv. by exists v.
Qed.

Lemma density_image_corner (image : array2) (densityrad : Z) :
  rectangular image ->
  (1 <= nrows image)%nat -> (1 <= ncols image)%nat -> 1 <= densityrad ->
  exists d, density_image image densityrad = Ok d
            /\ corner_zero (nrows image) (ncols image) d.
Proof.
  intros Hrect Hh Hw Hr. unfold density_image.
  apply (foldM_invariant (corner_zero (nrows image) (ncols image)));
    [|by apply corner_zero_zeros].
  intros d x Hx Hd. unfold xrange in Hx. apply elem_of_seqZ in Hx.
  apply (foldM_invariant (corner_zero (nrows image) (ncols image))); [|done].
  intros d' y Hy Hd'. unfold xrange in Hy. apply elem_of_seqZ in Hy.
  destruct (get2_in_range image (y + densityrad) (x + densityrad)) as [v Hv];
    [done|lia|lia|].
  rewrite Hv. simpl. destruct (negb (v =? 0)).
  - apply corner_zero_set2; [done|lia|lia].
  - by exists d'.
Qed.

Lemma corner_zero_get2 (h w : nat) (d : array2) :
  corner_zero h w d -> get2 d 0 0 = Ok 0.
Proof.
  intros Hd. pose proof (corner_zero_ncols _ _ _ Hd) as Hcols.
  destruct Hd as (Hlen & Hrows & row & Hrow & Hcell).
  assert (Hw : length row = w).
  { rewrite Forall_forall in Hrows. apply Hrows.
    by apply list_elem_of_lookup_2 in Hrow. }
  assert (0 < length d)%nat by (by apply lookup_lt_Some in Hrow).
  assert (0 < length row)%nat by (by apply lookup_lt_Some in Hcell).
  unfold get2, nrows. rewrite Hcols.
  rewrite !axis_index_nonneg by lia. change (Z.to_nat 0) with 0%nat.
  by rewrite Hrow, Hcell.
Qed.

Lemma corner_zero_max2 (h w : nat) (d : array2) :
  corner_zero h w d -> exists m, max2 d = Ok m.
Proof.
  intros (_ & _ & row & Hrow & Hcell). unfold max2.
  destruct d as [|r d]; [done|]. simpl in Hrow. injection Hrow as ->.
  destruct row as [|v row]; [done|]. simpl. by eexists.
Qed.

End ArrayProofs.

Section ShortestPathProofs.
Context {F : Type} {FO : Float64Ops F}.

Lemma remove_first_length (n : node) (queue : list node) :
  existsb (node_eqb n) queue = true ->
  S (length (remove_first n queue)) = length queue.
Proof.
  induction queue as [|m queue IH]; simpl; [done|].
  intros Hex.
  assert (Hsym : node_eqb m n = node_eqb n m).
  { unfold node_eqb.
    by rewrite (Z.eqb_sym (node_dist m)), (Z.eqb_sym (node_x m)),
      (Z.eqb_sym (node_y m)). }
  rewrite Hsym. destruct (node_eqb n m); simpl in *; [done|].
  by rewrite IH.
Qed.

Lemma heappop_length (queue rest : list node) (least : node) :
  heappop queue = Some (least, rest) -> (length rest < length queue)%nat.
Proof.
  unfold heappop. destruct queue as [|n queue]; [done|].
  intros Hpop. injection Hpop as <- <-.
  set (least := fold_left _ queue n).
  assert (Hin : existsb (node_eqb least) (n :: queue) = true).
  { apply existsb_exists. exists least. split.
    - unfold least. clear least. revert n.
      induction queue as [|k queue IH]; intros n; [by left|].
      cbn [fold_left]. destruct (node_ltb k n).
      + right. apply IH.
      + destruct (IH n) as [Heq|Hin];
          [left; exact Heq | right; right; exact Hin].
    - unfold node_eqb. by rewrite !Z.eqb_refl. }
  pose proof (remove_first_length least (n :: queue) Hin) as Hlen.
  cbn [remove_first] in Hlen |- *. lia.
Qed.

Lemma relax_length (densityimage : array2) (maxintensity : Z)
    (points : list (Z * Z)) (firstitem neighbour : node)
    (state state' : list node * array2) :
  relax densityimage maxintensity points firstitem state neighbour = Ok state' ->
  length (fst state') = length (fst state).
Proof.
  unfold relax. destruct state as [queue tracker]. intros H.
  peel H as d Hd.
  destruct (_ <? _); [|by injection H as <-].
  destruct (existsb (node_eqb neighbour) queue) eqn:Hex; [|done].
  cbn [negb] in H. peel H as k Hk. peel H as tracker' Htracker.
  injection H as <-. cbn [fst].
  rewrite length_app. cbn [length].
  pose proof (remove_first_length neighbour queue Hex). lia.
Qed.

Lemma relax_terminates (densityimage : array2) (maxintensity : Z)
    (points : list (Z * Z)) (firstitem neighbour : node)
    (state : list node * array2) :
  terminates (relax densityimage maxintensity points firstitem state neighbour).
Proof.
  unfold relax. destruct state as [queue tracker].
  apply rbind_terminates; [apply get2_terminates|]. intros d.
  destruct (_ <? _); [|done].
  destruct (negb _); [done|].
  apply rbind_terminates; [apply of_option_terminates|]. intros k.
  apply rbind_terminates; [apply set2_terminates|done].
Qed.

(** The search loop stops within the rounds that it is given. *)
Lemma search_loop_terminates (densityimage : array2) (maxintensity : Z)
    (points : list (Z * Z)) (endpoint : Z * Z) :
  forall rounds queue tracker,
    (length queue < rounds)%nat ->
    terminates (search_loop rounds densityimage maxintensity points endpoint
                            queue tracker).
Proof.
  induction rounds as [|rounds IH]; intros queue tracker Hlen; [lia|].
  cbn [search_loop].
  destruct (heappop queue) as [[firstitem rest]|] eqn:Hpop; [|done].
  apply heappop_length in Hpop.
  destruct (_ && _); [done|].
  set (neighbours := List.filter _ rest).
  destruct (foldM (relax densityimage maxintensity points firstitem) neighbours
                  (rest, tracker)) as [state| |] eqn:Hfold.
  - cbn [rbind]. apply IH.
    assert (Hsame : length (fst state) = length rest).
    { revert Hfold.
      apply (foldM_ok_invariant (fun st => length (fst st) = length rest));
        [|done].
      intros st nb st' Hst Hrelax. apply relax_length in Hrelax. congruence. }
    lia.
  - done.
  - exfalso. revert Hfold. apply foldM_terminates. intros st nb.
    apply relax_terminates.
Qed.

(** C2 (amended). On every image with at least one row and one column, with
    every density radius from 1 on (the default is 4) and every bias and
    decimation factor, [findPathOnImage] from the corner [(0, 0)] to the
    corner [(w - 1, h - 1)] returns the empty list: the density image is only
    filled at pixels that are at least the density radius away from the
    border, so the density at the start pixel is zero and the guard on the
    start and end pixels returns before any search. *)
Theorem findPathOnImage_corner_to_corner (image : array2)
    (bias everyotherpoint densityrad : Z) :
  rectangular image ->
  (1 <= nrows image)%nat -> (1 <= ncols image)%nat -> 1 <= densityrad ->
  findPathOnImage image (0, 0)
    (Z.of_nat (ncols image) - 1, Z.of_nat (nrows image) - 1)
    bias everyotherpoint densityrad
  = Ok [].
Proof.
  intros Hrect Hh Hw Hr. unfold findPathOnImage.
  destruct (density_image_corner image densityrad Hrect Hh Hw Hr) as [d [-> Hd]].
  cbn [rbind].
  destruct (corner_zero_max2 _ _ _ Hd) as [m ->]. cbn [rbind fst snd].
  rewrite (corner_zero_get2 _ _ _ Hd). reflexivity.
Qed.

End ShortestPathProofs.

(** ** Trajectory tracers *)

Section TracerProofs.
Context {F : Type} {FO : Float64Ops F}.

Lemma window_density_terminates (imageslice : array2) (gradient densityrad : Z) :
  terminates (window_density imageslice gradient densityrad).
Proof.
  unfold window_density. destruct (_ <? 0); [done|].
  apply foldM_terminates. intros d x. apply foldM_terminates. intros d' y.
  apply rbind_terminates; [apply get2_terminates|]. intros v.
  destruct (negb _); [apply set2_terminates|done].
Qed.

Lemma attract_terminates (gradient : Z) (maxattraction : F)
    (targetpoint : Z * Z) (slope : vec) (inlet : point3) :
  terminates (attract gradient maxattraction targetpoint slope inlet).
Proof. unfold attract. by destruct (f_eqb _ _). Qed.

Lemma trace_step_terminates (image : array2) (startpoints : list point3)
    (gradient densityrad : Z) (maxattraction : F) (traj : trajectory)
    (slope : vec) :
  terminates (trace_step image startpoints gradient densityrad maxattraction
                         traj slope).
Proof.
  unfold trace_step.
  apply rbind_terminates; [apply of_option_terminates|]. intros current.
  destruct (_ =? _)%nat; [done|].
  apply rbind_terminates; [apply max2_terminates|]. intros m.
  destruct (m =? 0); [done|].
  apply rbind_terminates; [apply get2_terminates|]. intros centre.
  apply rbind_terminates.
  { destruct (centre =? 0); [|done].
    apply rbind_terminates; [apply of_option_terminates|done]. }
  intros window.
  apply rbind_terminates; [apply window_density_terminates|]. intros d.
  apply rbind_terminates; [apply max2_terminates|]. intros dmax.
  apply rbind_terminates; [apply of_option_terminates|]. intros best.
  apply rbind_terminates; [|done].
  apply foldM_terminates. intros v inlet. apply attract_terminates.
Qed.

(** The loop of the gradient tracer stops within the bound of the embedding
    and begins at most [maxiteration + 1] rounds. *)
Lemma trace_loop_rounds (image : array2) (startpoints : list point3)
    (gradient densityrad : Z) (maxattraction : F) (maxiteration : Z) :
  forall bound i rounds (traj : trajectory) slope,
    (Z.to_nat (maxiteration - i) < bound)%nat ->
    match trace_loop bound image startpoints gradient densityrad maxattraction
                     maxiteration i rounds traj slope with
    | Ok (_, r) => (r <= rounds + S (Z.to_nat (maxiteration - i)))%nat
    | Raise _ => True
    | Diverge => False
    end.
Proof.
  induction bound as [|bound IH]; intros i rounds traj slope Hbound; [lia|].
  cbn [trace_loop].
  pose proof (trace_step_terminates image startpoints gradient densityrad
                maxattraction traj slope) as Hstep.
  destruct (trace_step _ _ _ _ _ _ _) as [[[[traj' slope'] run]|]| |];
    cbn [rbind]; [|lia|done|done].
  destruct (maxiteration <? i + 1) eqn:Hcap; [lia|].
  destruct run; [|lia].
  specialize (IH (i + 1) (S rounds) traj' slope').
  destruct (trace_loop _ _ _ _ _ _ _ _ _ _ _) as [[t r]| |]; [|done|]; lia.
Qed.

Lemma trace_endpoint_rounds (image : array2) (startpoints : list point3)
    (flow : vec) (maxiteration : Z) (gradientfactor : F) (densityrad : Z)
    (maxattraction : F) (endpoint : point3) :
  match trace_endpoint image startpoints flow maxiteration gradientfactor
                       densityrad maxattraction endpoint with
  | Ok (_, r) => (r <= S (Z.to_nat maxiteration))%nat
  | Raise _ => True
  | Diverge => False
  end.
Proof.
  unfold trace_endpoint, round_bound.
  pose proof (trace_loop_rounds image startpoints
                (Z.max (f_trunc (f_mul gradientfactor
                   (f_of_Z (Z.max (Z.of_nat (ncols image)) (Z.of_nat (nrows image)))))) 2)
                densityrad maxattraction maxiteration
                (S (Z.to_nat maxiteration)) 0 0%nat [endpoint] flow) as H.
  rewrite Z.sub_0_r in H. apply H. lia.
Qed.

Lemma findPathOnImage_length (image : array2) (startpoint endpoint : Z * Z)
    (bias everyotherpoint densityrad : Z) (path : list (Z * Z)) :
  findPathOnImage image startpoint endpoint bias everyotherpoint densityrad
  = Ok path ->
  path = [] \/ (2 <= length path)%nat.
Proof.
  unfold findPathOnImage. intros H.
  peel H as densityimage Hdensity. peel H as maxintensity Hmax.
  peel H as dstart Hstart. peel H as empty Hempty.
  destruct empty; [left; by injection H as <-|].
  peel H as tracker0 Htracker0. peel H as tracker1 Htracker1.
  peel H as tracker2 Htracker2. peel H as tend Htend.
  destruct (tend =? -1); [left; by injection H as <-|].
  peel H as k Hk. peel H as current Hcurrent. peel H as found Hfound.
  destruct (length found <? 2)%nat eqn:Hlen.
  - left. by injection H as <-.
  - right. injection H as <-. apply Nat.ltb_ge in Hlen. lia.
Qed.

(** C8. Every trajectory in a list that [getTrajectoriesFromImage] or
    [getTrajectoriesFromImageDijkstra] returns has at least two points. *)
Theorem tracers_return_valid_trajectories :
  (forall (image : array2) (startpoints endpoints : list point3) (flow : vec)
          (maxiteration : Z) (gradientfactor : F) (densityrad : Z)
          (maxattraction : F) (trajectories : list trajectory),
      getTrajectoriesFromImage image startpoints endpoints flow maxiteration
                               gradientfactor densityrad maxattraction
      = Ok trajectories ->
      Forall (fun t => (2 <= length t)%nat) trajectories)
  /\ (forall (image : array2) (startpoints endpoints : list point3)
            (bias everyotherpoint densityrad spvariancefactor : Z)
            (trajectories : list trajectory),
      getTrajectoriesFromImageDijkstra image startpoints endpoints bias
                                       everyotherpoint densityrad spvariancefactor
      = Ok trajectories ->
      Forall (fun t => (2 <= length t)%nat) trajectories).
Proof.
  split.
  - intros image startpoints endpoints flow maxiteration gradientfactor
           densityrad maxattraction trajectories.
    unfold getTrajectoriesFromImage.
    apply foldM_ok_invariant; [|constructor].
    intros acc endpoint acc' Hacc Hstep. peel Hstep as traced Htraced.
    destruct (1 <? length traced.1)%nat eqn:Hlen; injection Hstep as <-; [|done].
    apply Forall_app. split; [done|]. constructor; [|constructor].
    rewrite length_reverse. apply Nat.ltb_lt in Hlen. lia.
  - intros image startpoints endpoints bias everyotherpoint densityrad
           spvariancefactor trajectories.
    unfold getTrajectoriesFromImageDijkstra. intros H. peel H as m Hm.
    destruct (m =? 0); [injection H as <-; constructor|].
    revert H. apply foldM_ok_invariant; [|constructor].
    intros acc endpoint acc'. apply foldM_ok_invariant.
    intros acc1 startpoint acc1' Hacc Hstep.
    peel Hstep as snapped Hsnapped. peel Hstep as path Hpath.
    destruct (0 <? length path)%nat eqn:Hlen; injection Hstep as <-; [|done].
    apply Forall_app. split; [done|]. constructor; [|constructor].
    unfold trajectory_of_path. rewrite length_map, length_reverse.
    apply findPathOnImage_length in Hpath as [->|Hlen2]; [done|lia].
Qed.

End TracerProofs.

(** ** Width profiler *)

Section WidthProofs.
Context {F : Type} {FO : Float64Ops F} {EX : Extern F}.

Lemma sublist_same_length {A : Type} (l1 l2 : list A) :
  l1 `sublist_of` l2 -> length l1 = length l2 -> l1 = l2.
Proof.
  induction 1 as [|x l1 l2 Hsub IH|x l1 l2 Hsub IH]; intros Hlen.
  - reflexivity.
  - f_equal. apply IH. simpl in Hlen. lia.
  - apply sublist_length in Hsub. simpl in Hlen. lia.
Qed.

Lemma first_zero_none (v : list Z) :
  Forall (fun x => x <> 0) v -> first_zero v = Raise IndexError.
Proof.
  induction 1 as [|x v Hx Hv IH]; simpl; [done|].
  destruct (x =? 0) eqn:Hz; [lia|]. by rewrite IH.
Qed.

Lemma truncate_at_zeros_raises (wvalues : list Z) (maxwidth : Z) :
  Forall (fun x => x <> 0) (slice_down wvalues maxwidth) ->
  truncate_at_zeros wvalues maxwidth = Raise IndexError.
Proof.
  intros Hleft. unfold truncate_at_zeros. by rewrite first_zero_none.
Qed.

Lemma width_loop_coordinates (densityimage : array2) (height width maxwidth : Z) :
  forall (t : trajectory) lastslope (new : trajectory),
    width_loop densityimage height width maxwidth t lastslope = Ok new ->
    map xy new `sublist_of` map xy t.
Proof.
  induction t as [|p rest IH]; intros lastslope new Hloop; simpl in Hloop.
  - injection Hloop as <-. constructor.
  - peel Hloop as wvalues Hsample.
    destruct (length wvalues =? 0)%nat.
    + simpl. apply sublist_cons. by apply (IH lastslope).
    + peel Hloop as streamwidth Hwidth. peel Hloop as newrest Hrest.
      injection Hloop as <-. simpl. apply sublist_skip. by apply (IH _ _ Hrest).
Qed.

Lemma map_insert_same {A B : Type} (f : A -> B) (l : list A) :
  forall (i : nat) (x y : A),
    l !! i = Some x -> f y = f x -> map f (<[i := y]> l) = map f l.
Proof.
  induction l as [|a l IHl]; intros i x y Hx Hf; [done|].
  destruct i as [|i]; simpl in *.
  - injection Hx as ->. by rewrite Hf.
  - f_equal. by apply (IHl i x).
Qed.

Lemma fill_gap_coordinates (new : trajectory) (i : nat) :
  map xy (fill_gap new i) = map xy new.
Proof.
  unfold fill_gap. destruct (_ || _); [done|].
  destruct (new !! (i - 1)%nat) as [before|]; [|done].
  destruct (new !! i) as [here|] eqn:Hhere; [|done].
  destruct (new !! (i + 1)%nat) as [after|]; [|done].
  destruct (_ && _); [|done].
  by apply (map_insert_same xy new i here).
Qed.

Lemma fill_gaps_coordinates (indices : list nat) : forall new : trajectory,
  map xy (fold_left fill_gap indices new) = map xy new.
Proof.
  induction indices as [|i indices IH]; intros new; simpl; [done|].
  by rewrite IH, fill_gap_coordinates.
Qed.

(** The loop returns the points that it does not skip, with their
    coordinates. *)
Lemma width_loop_sampled (densityimage : array2) (height width maxwidth : Z) :
  forall (t : trajectory) lastslope (new : trajectory),
    width_loop densityimage height width maxwidth t lastslope = Ok new ->
    exists kept,
      sampled_points densityimage height width maxwidth t lastslope = Ok kept
      /\ map xy new = map xy kept.
Proof.
  induction t as [|p rest IH]; intros lastslope new Hloop;
    cbn [width_loop sampled_points] in *.
  - injection Hloop as <-. by exists [].
  - peel Hloop as wvalues Hsample. rewrite Hsample. cbn [rbind].
    destruct (length wvalues =? 0)%nat; [by apply IH|].
    peel Hloop as streamwidth Hwidth. peel Hloop as newrest Hrest.
    injection Hloop as <-.
    destruct (IH _ _ Hrest) as (kept & -> & Hxy). cbn [rbind].
    exists (p :: kept). split; [done|]. cbn [map]. by rewrite Hxy.
Qed.

Lemma sampled_points_sublist (densityimage : array2)
    (height width maxwidth : Z) :
  forall (t : trajectory) lastslope (kept : trajectory),
    sampled_points densityimage height width maxwidth t lastslope = Ok kept ->
    kept `sublist_of` t.
Proof.
  induction t as [|p rest IH]; intros lastslope kept Hkept;
    cbn [sampled_points] in Hkept.
  - injection Hkept as <-. constructor.
  - peel Hkept as wvalues Hsample.
    destruct (length wvalues =? 0)%nat.
    + apply sublist_cons. by apply (IH lastslope).
    + peel Hkept as keptrest Hrest. injection Hkept as <-.
      apply sublist_skip. by apply (IH _ _ Hrest).
Qed.

(** One round of the loop: the point is left out when its sample is empty
    and kept otherwise, and only a point that is kept hands its slope on. *)
Lemma sampled_points_step (densityimage : array2) (height width maxwidth : Z)
    (p : point3) (rest : trajectory) (lastslope : vec) (kept : trajectory) :
  sampled_points densityimage height width maxwidth (p :: rest) lastslope
  = Ok kept ->
  exists wvalues,
    cross_section densityimage height width maxwidth p
                  (skinvector_of (slope_at p rest lastslope) lastslope)
    = Ok wvalues
    /\ (wvalues = [] ->
        sampled_points densityimage height width maxwidth rest lastslope
        = Ok kept)
    /\ (wvalues <> [] ->
        exists keptrest,
          kept = p :: keptrest
          /\ sampled_points densityimage height width maxwidth rest
                            (slope_at p rest lastslope)
             = Ok keptrest).
Proof.
  intros Hkept. cbn [sampled_points] in Hkept.
  peel Hkept as wvalues Hsample. exists wvalues. split; [done|].
  destruct wvalues as [|w wvalues]; cbn [length Nat.eqb] in Hkept.
  - split; [done|congruence].
  - split; [done|]. intros _.
    peel Hkept as keptrest Hrest. injection Hkept as <-. by exists keptrest.
Qed.

(** C9 (amended). When [findWidthOfTrajectory] returns, it returns the empty
    list for a trajectory of fewer than two points. For any other trajectory
    it returns, in their order and with their coordinates, exactly the points
    whose sample of the density image along the skin vector is not empty: a
    point with an empty sample is left out and every other point is kept.
    So the coordinates of the returned points are, in order, coordinates of
    input points, the result is never longer than the input, and when the
    lengths agree the i-th returned point carries the coordinates of the
    i-th input point. Only the width of a point is set. *)
Theorem findWidthOfTrajectory_coordinates (image : array2) (t : trajectory)
    (densityrad : Z) (new : trajectory) :
  findWidthOfTrajectory image t densityrad = Ok new ->
  match t with
  | p0 :: p1 :: _ =>
      exists densityimage kept,
        density_image image densityrad = Ok densityimage
        /\ sampled_points densityimage (Z.of_nat (nrows image))
                          (Z.of_nat (ncols image)) (Z.of_nat (nrows image) / 2)
                          t (normalize (vec_of_Z (px p1 - px p0)
                                                 (py p1 - py p0)))
           = Ok kept
        /\ kept `sublist_of` t
        /\ map xy new = map xy kept
  | _ => new = []
  end
  /\ map xy new `sublist_of` map xy t
  /\ (length new <= length t)%nat
  /\ (length new = length t -> map xy new = map xy t).
Proof.
  intros Hcall.
  assert (Hkept : match t with
                  | p0 :: p1 :: _ =>
                      exists densityimage kept,
                        density_image image densityrad = Ok densityimage
                        /\ sampled_points densityimage (Z.of_nat (nrows image))
                             (Z.of_nat (ncols image))
                             (Z.of_nat (nrows image) / 2) t
                             (normalize (vec_of_Z (px p1 - px p0)
                                                  (py p1 - py p0)))
                           = Ok kept
                        /\ kept `sublist_of` t
                        /\ map xy new = map xy kept
                  | _ => new = []
                  end).
  { unfold findWidthOfTrajectory in Hcall.
    destruct t as [|p0 [|p1 rest]];
      [by injection Hcall as <-|by injection Hcall as <-|].
    peel Hcall as densityimage Hdensity. peel Hcall as traced Hloop.
    destruct (width_loop_sampled _ _ _ _ _ _ _ Hloop) as (kept & Hkept & Hxy).
    exists densityimage, kept. split; [done|]. split; [done|].
    split; [by apply sampled_points_sublist in Hkept|].
    destruct (2 <? length traced)%nat; injection Hcall as <-; [|done].
    by rewrite fill_gaps_coordinates. }
  assert (Hsub : map xy new `sublist_of` map xy t).
  { unfold findWidthOfTrajectory in Hcall.
    destruct t as [|p0 [|p1 rest]];
      [injection Hcall as <-; constructor
      |injection Hcall as <-; apply sublist_nil_l|].
    peel Hcall as densityimage Hdensity. peel Hcall as traced Hloop.
    apply width_loop_coordinates in Hloop.
    destruct (2 <? length traced)%nat; injection Hcall as <-; [|done].
    by rewrite fill_gaps_coordinates. }
  split; [exact Hkept|]. split; [exact Hsub|].
  pose proof (sublist_length _ _ Hsub) as Hlen. rewrite !length_map in Hlen.
  split; [exact Hlen|].
  intros Heq. apply sublist_same_length; [exact Hsub|]. by rewrite !length_map.
Qed.

End WidthProofs.

(** ** Trajectory query interface *)

Section QueryProofs.
Context {F : Type} {FO : Float64Ops F} {EX : Extern F}.

Lemma skin_loop_length : forall (t : trajectory) (lastslope : vec),
  length (fst (skin_loop t lastslope)) = length t
  /\ length (snd (skin_loop t lastslope)) = length t.
Proof.
  induction t as [|p rest IH]; intros lastslope; [done|].
  cbn [skin_loop]. cbv zeta.
  destruct (IH (slope_at p rest lastslope)) as [Hl Hr].
  destruct (skin_loop rest (slope_at p rest lastslope)) as [l r].
  destruct (f_gtb _ _); simpl in *; lia.
Qed.

Lemma getSkinOfTrajectory_length (t : trajectory) :
  (2 <= length t)%nat ->
  length (getSkinOfTrajectory t) = (2 * length t)%nat.
Proof.
  intros Hlen. unfold getSkinOfTrajectory.
  destruct t as [|p0 [|p1 rest]]; [simpl in Hlen; lia|simpl in Hlen; lia|].
  set (ls := normalize _).
  destruct (skin_loop_length (p0 :: p1 :: rest) ls) as [Hl Hr].
  destruct (skin_loop (p0 :: p1 :: rest) ls) as [l r].
  simpl fst in Hl. simpl snd in Hr.
  rewrite length_app, length_reverse, Hl, Hr. lia.
Qed.






End QueryProofs.

(** * Further properties of the code *)

(** ** Skin, rectangle and the two metrics *)

Section GeometryProperties.
Context {F : Type} {FO : Float64Ops F} {EX : Extern F}.

(** X1. The skin of a trajectory of fewer than two points is empty; otherwise
    it holds two points for every point of the trajectory, so its length is
    even. *)
Theorem getSkinOfTrajectory_size (t : trajectory) :
  length (getSkinOfTrajectory t)
  = (if (length t <? 2)%nat then 0 else 2 * length t)%nat
  /\ Z.of_nat (length (getSkinOfTrajectory t)) mod 2 = 0.
Proof.
  assert (Hsize : length (getSkinOfTrajectory t)
                  = (if (length t <? 2)%nat then 0 else 2 * length t)%nat).
  { destruct (length t <? 2)%nat eqn:Hshort.
    - apply Nat.ltb_lt in Hshort. by destruct t as [|p0 [|p1 rest]]; simpl in *; try lia.
    - apply Nat.ltb_ge in Hshort. by apply getSkinOfTrajectory_length. }
  split; [exact Hsize|]. rewrite Hsize.
  destruct (length t <? 2)%nat; [done|].
  rewrite Nat2Z.inj_mul, Z.mul_comm. apply Z.mod_mul. lia.
Qed.

(** X2. The rectangle of a trajectory encloses, for every point, the square
    of half the width plus one around it: the upper left corner is not beyond
    [(x - int(w/2) - 1, y - int(w/2) - 1)] and the lower right corner lies
    beyond [(x + int(w/2) + 1, y + int(w/2) + 1)]. *)
Theorem calculateTrajectoryRectangle_encloses (t : trajectory) (p : point3) :
  p ∈ t ->
  let rect := calculateTrajectoryRectangle t in
  fst (fst rect) <= px p - num_half_int (pw p) - 1
  /\ snd (fst rect) <= py p - num_half_int (pw p) - 1
  /\ px p + num_half_int (pw p) + 1 < fst (snd rect)
  /\ py p + num_half_int (pw p) + 1 < snd (snd rect).
Proof.
  intros Hp.
  set (lo := (px p - num_half_int (pw p) - 1, py p - num_half_int (pw p) - 1)).
  set (hi := (px p + num_half_int (pw p) + 1, py p + num_half_int (pw p) + 1)).
  assert (Hlo : lo ∈ rectangle_points t /\ hi ∈ rectangle_points t).
  { unfold rectangle_points. split; apply list_elem_of_In, in_flat_map;
      exists p; (split; [by apply list_elem_of_In|]); [left|right; left]; done. }
  destruct Hlo as [Hlo Hhi].
  unfold calculateTrajectoryRectangle, boundingRect.
  destruct (rectangle_points t) as [|q rest] eqn:Hpts; [by apply elem_of_nil in Hlo|].
  destruct (fold_min_spec (map fst rest) (fst q)) as [_ Hxmin].
  destruct (fold_max_spec (map fst rest) (fst q)) as [_ Hxmax].
  destruct (fold_min_spec (map snd rest) (snd q)) as [_ Hymin].
  destruct (fold_max_spec (map snd rest) (snd q)) as [_ Hymax].
  assert (Hin : forall (f : Z * Z -> Z) (r : Z * Z),
             r ∈ q :: rest -> f r ∈ f q :: map f rest).
  { intros f r Hr. change (f r ∈ map f (q :: rest)).
    apply list_elem_of_In, in_map, list_elem_of_In, Hr. }
  cbn [fst snd].
  pose proof (Hxmin _ (Hin fst lo Hlo)). pose proof (Hymin _ (Hin snd lo Hlo)).
  pose proof (Hxmax _ (Hin fst hi Hhi)). pose proof (Hymax _ (Hin snd hi Hhi)).
  unfold lo, hi in *. cbn [fst snd] in *. lia.
Qed.

(** X3. The overlap of two trajectories is the literal [0.0] as soon as one
    of them has fewer than two points, as such a trajectory has no skin. *)
Theorem calculateTrajectoriesOverlap_short (trac1 trac2 : trajectory) :
  (length trac1 < 2)%nat \/ (length trac2 < 2)%nat ->
  calculateTrajectoriesOverlap trac1 trac2 = f_zero.
Proof.
  intros Hshort. unfold calculateTrajectoriesOverlap.
  destruct ((length trac1 =? 0)%nat || (length trac2 =? 0)%nat); [done|].
  cbv zeta.
  assert (Hskin : (length (getSkinOfTrajectory trac1) =? 0)%nat
                  || (length (getSkinOfTrajectory trac2) =? 0)%nat = true).
  { destruct Hshort as [H|H].
    - by destruct trac1 as [|p0 [|p1 rest]]; simpl in *; try lia.
    - apply orb_true_iff. right.
      by destruct trac2 as [|p0 [|p1 rest]]; simpl in *; try lia. }
  by rewrite Hskin.
Qed.

Lemma filter_length_le {A : Type} (p q : A -> bool) (l : list A) :
  (forall x, p x = true -> q x = true) ->
  (length (List.filter p l) <= length (List.filter q l))%nat.
Proof.
  intros Hpq. induction l as [|x l IHl]; simpl; [done|].
  destruct (p x) eqn:Hp.
  - rewrite (Hpq x Hp). simpl. lia.
  - destruct (q x); simpl; lia.
Qed.

(** X4. Given that the quotient of two positive ints of which the first is
    not the larger lies between [0.0] and [1.0], the overlap of two
    trajectories lies between [0.0] and [1.0]: the yellow pixels are among
    the green and among the red ones. *)
Theorem calculateTrajectoriesOverlap_range (trac1 trac2 : trajectory) :
  RatioLaws ->
  f_leb f_zero (calculateTrajectoriesOverlap trac1 trac2) = true
  /\ f_leb (calculateTrajectoriesOverlap trac1 trac2) f_one = true.
Proof.
  intros L. unfold calculateTrajectoriesOverlap.
  pose proof (zero_le_zero L) as H00. pose proof (zero_le_one L) as H01.
  destruct (_ || _); [done|]. cbv zeta.
  destruct (_ || _); [done|].
  set (rect := calculateTrajectoryRectangle (trac1 ++ trac2)).
  set (h := snd (snd rect) - snd (fst rect)).
  set (w := fst (snd rect) - fst (fst rect)).
  set (image1 := fillPoly h w _). set (image2 := fillPoly h w _).
  destruct (Z.min _ _ =? 0) eqn:Hmin; [done|].
  destruct (countColour h w (fun y x => image1 y x && image2 y x) =? 0) eqn:Hy;
    [done|].
  apply (ratio_bounds L).
  - unfold countColour in *. lia.
  - unfold countColour.
    apply Z.min_glb; apply Nat2Z.inj_le, filter_length_le;
      intros [y x] Hyx; cbn [fst snd] in *; apply andb_true_iff in Hyx; tauto.
Qed.




End GeometryProperties.

(** ** Merger and locator: what every answer satisfies *)

Section MergerProperties.
Context {F : Type} {FO : Float64Ops F} {EX : Extern F}.

Lemma elem_of_insert_inv {A : Type} (l : list A) (k : nat) (x y : A) :
  y ∈ <[k := x]> l -> y = x \/ y ∈ l.
Proof.
  revert k. induction l as [|z l IHl]; intros k Hy; simpl in Hy.
  - by apply elem_of_nil in Hy.
  - destruct k as [|k]; simpl in Hy; apply elem_of_cons in Hy as [Hy|Hy].
    + by left.
    + right. by right.
    + right. rewrite Hy. left.
    + destruct (IHl k Hy) as [Heq|Hin]; [by left|right; by right].
Qed.

(** The loop over the final list keeps its length, brings in nothing but
    the item, and sets the flag only from a member of the list. *)
Lemma check_present_shape (dup : trajectory -> trajectory -> bool)
    (item : trajectory) (finallist : list trajectory) :
  forall todo i,
    length (fst (check_present dup item finallist i todo)) = length finallist
    /\ (forall t, t ∈ fst (check_present dup item finallist i todo) ->
                  t = item \/ t ∈ finallist)
    /\ (snd (check_present dup item finallist i todo) = true -> todo <> []).
Proof.
  induction todo as [|finalitem todo IH]; intros i; simpl.
  - split; [done|]. split; [|done]. intros t Ht. by right.
  - destruct (dup item finalitem).
    + destruct (length finalitem <? length item)%nat; simpl.
      * split; [apply length_insert|]. split; [|done]. intros t Ht.
        by apply elem_of_insert_inv in Ht.
      * split; [done|]. split; [|done]. intros t Ht. by right.
    + destruct (IH (S i)) as (Hlen & Hin & _). split; [exact Hlen|].
      split; [exact Hin|done].
Qed.

Lemma merge_loop_shape (dup : trajectory -> trajectory -> bool) :
  forall stack finallist,
    (length finallist <= length (merge_loop dup stack finallist)
     <= length finallist + length stack)%nat
    /\ (stack <> [] -> merge_loop dup stack finallist <> [])
    /\ (forall t, t ∈ merge_loop dup stack finallist ->
                  t ∈ finallist \/ t ∈ stack).
Proof.
  induction stack as [|item stack IH]; intros finallist; simpl.
  - split; [lia|]. split; [done|]. intros t Ht. by left.
  - destruct (check_present_shape dup item finallist finallist 0%nat)
      as (Hlen & Hin & Hflag).
    destruct (check_present dup item finallist 0%nat finallist)
      as [finallist' present]. cbn [fst snd] in Hlen, Hin, Hflag.
    set (next := if present then finallist' else finallist' ++ [item]).
    assert (Hnext : (length finallist <= length next <= S (length finallist))%nat
                    /\ (0 < length next)%nat
                    /\ (forall t, t ∈ next -> t = item \/ t ∈ finallist)).
    { unfold next. destruct present.
      - split; [lia|]. split; [|exact Hin].
        specialize (Hflag eq_refl). destruct finallist; [done|simpl in *; lia].
      - rewrite length_app. simpl. split; [lia|]. split; [lia|].
        intros t Ht. apply elem_of_app in Ht as [Ht|Ht]; [by apply Hin|].
        left. by apply list_elem_of_singleton in Ht. }
    destruct Hnext as (Hlen' & Hpos & Hin').
    destruct (IH next) as (IHlen & IHne & IHin).
    split; [lia|]. split.
    + intros _ Hnil.
      assert (Hz : length (merge_loop dup stack next) = 0%nat) by by rewrite Hnil.
      lia.
    + intros t Ht. destruct (IHin t Ht) as [Hn|Hs].
      * destruct (Hin' t Hn) as [->|Hf]; [right; left|by left].
      * right. by right.
Qed.

(** X6. [combineTrajectories] invents nothing: every trajectory of the
    result is a member of one of the two lists, the result is not longer than
    the two lists together, and it is empty only when both lists are. *)
Theorem combineTrajectories_members
    (traclist1 traclist2 : list trajectory) (maxoverlap : F)
    (useHausdorff : bool) (hausdorffbias : F) :
  let combined := combineTrajectories traclist1 traclist2 maxoverlap
                                      useHausdorff hausdorffbias in
  (forall t, t ∈ combined -> t ∈ traclist1 \/ t ∈ traclist2)
  /\ (length combined <= length traclist1 + length traclist2)%nat
  /\ (combined = [] <-> traclist1 = [] /\ traclist2 = []).
Proof.
  cbv zeta. unfold combineTrajectories.
  destruct (merge_loop_shape (criteria maxoverlap useHausdorff hausdorffbias)
              (reverse (traclist1 ++ traclist2)) []) as (Hlen & Hne & Hin).
  rewrite length_reverse, length_app in Hlen. simpl in Hlen.
  split; [|split; [lia|split]].
  - intros t Ht. destruct (Hin t Ht) as [Hnil|Hpool].
    + by apply elem_of_nil in Hnil.
    + by apply elem_of_reverse, elem_of_app in Hpool.
  - intros Hnil. destruct (decide (traclist1 ++ traclist2 = [])) as [Hpool|Hpool].
    + by apply app_eq_nil in Hpool.
    + exfalso. apply Hne; [|exact Hnil].
      intros Hrev. apply Hpool.
      by rewrite <- (reverse_involutive (traclist1 ++ traclist2)), Hrev.
  - intros [-> ->]. reflexivity.
Qed.

(** X7. When every two trajectories of the two lists are duplicates of each
    other under the selected metric, [combineTrajectories] returns exactly one
    of them, and none of the others is longer. *)
Theorem combineTrajectories_all_duplicates
    (traclist1 traclist2 : list trajectory) (maxoverlap : F)
    (useHausdorff : bool) (hausdorffbias : F) :
  traclist1 ++ traclist2 <> [] ->
  (forall a b, a ∈ traclist1 ++ traclist2 -> b ∈ traclist1 ++ traclist2 ->
               criteria maxoverlap useHausdorff hausdorffbias a b = true) ->
  exists t,
    combineTrajectories traclist1 traclist2 maxoverlap useHausdorff hausdorffbias
    = [t]
    /\ t ∈ traclist1 ++ traclist2
    /\ (forall u, u ∈ traclist1 ++ traclist2 -> (length u <= length t)%nat).
Proof.
  intros Hne Hdup. unfold combineTrajectories.
  set (pool := traclist1 ++ traclist2) in *.
  destruct (reverse pool) as [|first stack] eqn:Hrev.
  { exfalso. apply Hne. by rewrite <- (reverse_involutive pool), Hrev. }
  assert (Hmem : forall t, t ∈ first :: stack <-> t ∈ pool).
  { intros t. rewrite <- Hrev. apply elem_of_reverse. }
  cbn [merge_loop check_present app].
  set (dup := criteria maxoverlap useHausdorff hausdorffbias).
  (* every later item meets a single final item, which is a pool member *)
  assert (Hloop : forall todo best,
             best ∈ pool -> (forall item, item ∈ todo -> item ∈ pool) ->
             exists t, merge_loop dup todo [best] = [t]
                       /\ t ∈ best :: todo
                       /\ (forall u, u ∈ best :: todo ->
                                     (length u <= length t)%nat)).
  { induction todo as [|item todo IH]; intros best Hbest Htodo.
    - exists best. split; [done|]. split; [left|].
      intros u Hu. apply list_elem_of_singleton in Hu. by subst.
    - cbn [merge_loop check_present].
      assert (Hitem : item ∈ pool) by (apply Htodo; left).
      unfold dup at 1. rewrite (Hdup item best Hitem Hbest).
      assert (Hrest : forall item', item' ∈ todo -> item' ∈ pool).
      { intros item' Hitem'. apply Htodo. by right. }
      destruct (length best <? length item)%nat eqn:Hlonger.
      + apply Nat.ltb_lt in Hlonger.
        unfold list_index. cbn [firstn first_equal].
        change (<[0%nat := item]> [best]) with [item].
        destruct (IH item Hitem Hrest) as (t & Heq & Hin & Hmax).
        exists t. split; [exact Heq|]. split.
        * apply elem_of_cons in Hin as [->|Hin]; [right; left|by do 2 right].
        * intros u Hu. apply elem_of_cons in Hu as [->|Hu].
          -- specialize (Hmax item ltac:(left)). lia.
          -- by apply Hmax.
      + apply Nat.ltb_ge in Hlonger.
        destruct (IH best Hbest Hrest) as (t & Heq & Hin & Hmax).
        exists t. split; [exact Heq|]. split.
        * apply elem_of_cons in Hin as [->|Hin]; [left|by do 2 right].
        * intros u Hu. apply elem_of_cons in Hu as [->|Hu];
            [by apply Hmax; left|].
          apply elem_of_cons in Hu as [->|Hu].
          -- specialize (Hmax best ltac:(left)). lia.
          -- apply Hmax. by right. }
  destruct (Hloop stack first) as (t & Heq & Hin & Hmax).
  - apply Hmem. left.
  - intros item Hitem. apply Hmem. by right.
  - exists t. split; [exact Heq|]. split; [by apply Hmem|].
    intros u Hu. apply Hmax. by apply Hmem.
Qed.

End MergerProperties.

Section LocatorProperties.
Context {F : Type} {FO : Float64Ops F} {EX : Extern F}.

Lemma first_index_sound (p : nat -> bool) :
  forall count start j,
    first_index p start count = Some j ->
    (start <= j < start + count)%nat /\ p j = true.
Proof.
  induction count as [|count IH]; intros start j Hj; simpl in Hj; [done|].
  destruct (p start) eqn:Hp.
  - injection Hj as <-. split; [lia|done].
  - apply IH in Hj as [Hrange Hpj]. split; [lia|done].
Qed.

Lemma first_index_complete (p : nat -> bool) :
  forall count start,
    first_index p start count = None ->
    forall k, (start <= k < start + count)%nat -> p k = false.
Proof.
  induction count as [|count IH]; intros start Hnone k Hk; [lia|].
  simpl in Hnone. destruct (p start) eqn:Hp; [done|].
  destruct (decide (k = start)) as [->|Hne]; [done|].
  apply (IH (S start)); [done|lia].
Qed.

(** A child has parent [i] and the outer contour has no parent, so the two
    differ. *)
Lemma zone_pair_distinct (contours : list contour)
    (hierarchy : list hierarchy_entry) (threshold threshratio variance : F)
    (i j : nat) :
  zone_pair contours hierarchy threshold threshratio variance i j = true ->
  i <> j.
Proof.
  unfold zone_pair, candidate_area, accepts_child. intros Hpair ->.
  destruct (h_parent (hierarchy !!! j) =? -1) eqn:Hparent; [|done].
  apply Z.eqb_eq in Hparent. cbn [negb] in Hpair.
  destruct (h_child (hierarchy !!! j) =? -1); [done|].
  destruct (f_ltb _ threshold); [done|].
  destruct (h_parent (hierarchy !!! j) =? Z.of_nat j) eqn:Hself; [|done].
  apply Z.eqb_eq in Hself. lia.
Qed.

Lemma scan_contours_result (contours : list contour)
    (hierarchy : list hierarchy_entry) (threshold threshratio variance : F) :
  forall count start,
    let r := scan_contours contours hierarchy threshold threshratio variance
                           start count in
    (r = (-1, -1)
     /\ forall i j, (start <= i < start + count)%nat ->
                    (j < length contours)%nat ->
                    zone_pair contours hierarchy threshold threshratio variance
                              i j = false)
    \/ (exists i j, r = (Z.of_nat i, Z.of_nat j)
                    /\ (start <= i < start + count)%nat
                    /\ (j < length contours)%nat
                    /\ zone_pair contours hierarchy threshold threshratio
                                 variance i j = true).
Proof.
  induction count as [|count IH]; intros start; cbv zeta.
  - left. split; [done|]. intros; lia.
  - cbn [scan_contours].
    assert (Hskip :
      (forall j, (j < length contours)%nat ->
                 zone_pair contours hierarchy threshold threshratio variance
                           start j = false) ->
      let r := scan_contours contours hierarchy threshold threshratio variance
                             (S start) count in
      (r = (-1, -1)
       /\ forall i j, (start <= i < start + S count)%nat ->
                      (j < length contours)%nat ->
                      zone_pair contours hierarchy threshold threshratio
                                variance i j = false)
      \/ (exists i j, r = (Z.of_nat i, Z.of_nat j)
                      /\ (start <= i < start + S count)%nat
                      /\ (j < length contours)%nat
                      /\ zone_pair contours hierarchy threshold threshratio
                                   variance i j = true)).
    { intros Hnone. cbv zeta.
      destruct (IH (S start)) as [[Hr Hall]|(i & j & Hr & Hi & Hj & Hp)].
      - left. split; [exact Hr|]. intros i j Hi Hj.
        destruct (decide (i = start)) as [->|Hne]; [by apply Hnone|].
        apply Hall; [lia|done].
      - right. exists i, j. split; [exact Hr|]. split; [lia|done]. }
    destruct (candidate_area contours hierarchy threshold start) as [a|] eqn:Ha.
    + destruct (first_index _ 0 (length contours)) as [j|] eqn:Hfirst.
      * right. apply first_index_sound in Hfirst as [Hj Hp].
        exists start, j. split; [done|]. split; [lia|]. split; [lia|].
        unfold zone_pair. by rewrite Ha.
      * apply Hskip. intros j Hj. unfold zone_pair. rewrite Ha.
        apply (first_index_complete _ _ _ Hfirst). lia.
    + apply Hskip. intros j Hj. unfold zone_pair. by rewrite Ha.
Qed.

(** X8. Every answer of the locator is either the sentinel [(-1, -1)], and
    then the two lists differ in length or no pair of contours passes the
    tests of the code, or a pair [(i, j)] of two distinct contour indices that
    passes them. *)
Theorem findSeparationZoneBoundaries_answer (contours : list contour)
    (hierarchy : list hierarchy_entry) (threshold threshratio variance : F) :
  let r := findSeparationZoneBoundaries contours hierarchy threshold
                                        threshratio variance in
  (r = (-1, -1)
   /\ (length contours <> length hierarchy
       \/ forall i j, (i < length contours)%nat -> (j < length contours)%nat ->
                      zone_pair contours hierarchy threshold threshratio
                                variance i j = false))
  \/ (length contours = length hierarchy
      /\ exists i j, r = (Z.of_nat i, Z.of_nat j)
                     /\ (i < length contours)%nat /\ (j < length contours)%nat
                     /\ i <> j
                     /\ zone_pair contours hierarchy threshold threshratio
                                  variance i j = true).
Proof.
  cbv zeta. unfold findSeparationZoneBoundaries.
  destruct (length contours =? length hierarchy)%nat eqn:Hlen; cbn [negb].
  - apply Nat.eqb_eq in Hlen.
    destruct (scan_contours_result contours hierarchy threshold threshratio
                variance (length contours) 0)
      as [[Hr Hall]|(i & j & Hr & Hi & Hj & Hp)].
    + left. split; [exact Hr|]. right. intros i j Hi Hj. apply Hall; [lia|done].
    + right. split; [exact Hlen|]. exists i, j.
      split; [exact Hr|]. split; [lia|]. split; [done|].
      split; [by apply zone_pair_distinct in Hp|done].
  - apply Nat.eqb_neq in Hlen. left. split; [done|by left].
Qed.

End LocatorProperties.

(** ** The density image *)

Section DensityProperties.

Lemma xrange_to_nat (n : Z) : xrange n = seqZ 0 (Z.of_nat (Z.to_nat n)).
Proof. unfold xrange, seqZ. by rewrite Nat2Z.id. Qed.

(** A loop over [xrange] with an invariant that depends on the counter. *)
Lemma foldM_seqZ_invariant {B : Type} (I : Z -> B -> Prop)
    (f : B -> Z -> result B) :
  forall (len : nat) (start : Z) (b : B),
    (forall i b, start <= i < start + Z.of_nat len -> I i b ->
                 exists b', f b i = Ok b' /\ I (i + 1) b') ->
    I start b ->
    exists b', foldM f (seqZ start (Z.of_nat len)) b = Ok b'
               /\ I (start + Z.of_nat len) b'.
Proof.
  induction len as [|len IH]; intros start b Hstep Hb.
  - exists b. rewrite seqZ_nil by lia. split; [done|].
    by replace (start + Z.of_nat 0) with start by lia.
  - rewrite seqZ_cons by lia. cbn [foldM].
    destruct (Hstep start b) as [b1 [Hf Hb1]]; [lia|done|].
    rewrite Hf. cbn [rbind].
    replace (Z.pred (Z.of_nat (S len))) with (Z.of_nat len) by lia.
    destruct (IH (Z.succ start) b1) as [b' [Hfold Hb']].
    + intros i b2 Hi. apply Hstep. lia.
    + by replace (Z.succ start) with (start + 1) by lia.
    + exists b'. split; [done|].
      by replace (start + Z.of_nat (S len))
        with (Z.succ start + Z.of_nat len) by lia.
Qed.

Lemma has_shape_ncols (h w : nat) (d : array2) :
  has_shape h w d -> (0 < h)%nat -> ncols d = w.
Proof.
  intros [Hlen Hrows] Hh. unfold ncols.
  destruct d as [|row d]; [simpl in Hlen; lia|]. simpl. by inversion Hrows.
Qed.

Lemma has_shape_zeros (h w : nat) : has_shape h w (zeros h w).
Proof.
  split; [apply length_replicate|]. apply Forall_replicate, length_replicate.
Qed.

Lemma rectangular_has_shape (a : array2) :
  rectangular a -> has_shape (nrows a) (ncols a) a.
Proof. by split. Qed.

(** An element inside the shape, by its row and its column. *)
Lemma get2_cell (h w : nat) (d : array2) (y x : Z) :
  has_shape h w d -> 0 <= y < Z.of_nat h -> 0 <= x < Z.of_nat w ->
  exists row v, d !! Z.to_nat y = Some row /\ row !! Z.to_nat x = Some v
                /\ get2 d y x = Ok v.
Proof.
  intros Hd Hy Hx. pose proof (has_shape_ncols h w d Hd ltac:(lia)) as Hcols.
  destruct Hd as [Hlen Hrows].
  destruct (lookup_lt_is_Some_2 d (Z.to_nat y)) as [row Hrow]; [lia|].
  assert (Hw : length row = w).
  { rewrite Forall_forall in Hrows. apply Hrows.
    by apply list_elem_of_lookup_2 in Hrow. }
  destruct (lookup_lt_is_Some_2 row (Z.to_nat x)) as [v Hv]; [lia|].
  exists row, v. split; [done|]. split; [done|].
  unfold get2, nrows. rewrite Hcols, Hlen.
  rewrite !axis_index_nonneg by lia. by rewrite Hrow, Hv.
Qed.

(** Storing into an element inside the shape changes that element only. *)
Lemma get2_set2 (h w : nat) (d : array2) (y0 x0 v : Z) :
  has_shape h w d -> 0 <= y0 < Z.of_nat h -> 0 <= x0 < Z.of_nat w ->
  exists d', set2 d y0 x0 v = Ok d' /\ has_shape h w d'
             /\ forall y x, 0 <= y < Z.of_nat h -> 0 <= x < Z.of_nat w ->
                  get2 d' y x
                  = if (y =? y0) && (x =? x0) then Ok v else get2 d y x.
Proof.
  intros Hd Hy0 Hx0.
  pose proof (has_shape_ncols h w d Hd ltac:(lia)) as Hcols.
  assert (Hd' : has_shape h w (alter (fun row => <[Z.to_nat x0 := v]> row)
                                     (Z.to_nat y0) d)).
  { destruct Hd as [Hlen Hrows]. split; [by rewrite length_alter|].
    apply Forall_alter; [done|]. intros r _ Hr. by rewrite length_insert. }
  eexists. split; [|split; [exact Hd'|]].
  - unfold set2, nrows. rewrite Hcols, (proj1 Hd).
    by rewrite !axis_index_nonneg by lia.
  - intros y x Hy Hx.
    destruct (get2_cell h w _ y x Hd' Hy Hx) as (row' & v' & Hrow' & Hv' & ->).
    destruct (get2_cell h w d y x Hd Hy Hx) as (row & u & Hrow & Hu & ->).
    rewrite list_lookup_alter in Hrow'.
    destruct (decide (Z.to_nat y0 = Z.to_nat y)) as [Hyy|Hyy].
    + assert (y = y0) as -> by lia. rewrite Z.eqb_refl. cbn [andb].
      rewrite Hrow in Hrow'. cbn in Hrow'. injection Hrow' as <-.
      rewrite list_lookup_insert in Hv'.
      destruct (decide (Z.to_nat x0 = Z.to_nat x /\ _)) as [[Hxx _]|Hxx].
      * assert (x = x0) as -> by lia. rewrite Z.eqb_refl. congruence.
      * assert (Hne : x <> x0).
        { intros ->. apply Hxx. split; [done|].
          apply lookup_lt_Some in Hu. lia. }
        apply Z.eqb_neq in Hne. rewrite Hne. congruence.
    + assert (Hne : y <> y0) by lia. apply Z.eqb_neq in Hne. rewrite Hne.
      cbn [andb]. congruence.
Qed.

(** The density image, pixel by pixel. *)
Lemma density_image_spec (image : array2) (densityrad : Z) :
  rectangular image -> 0 <= densityrad ->
  exists d,
    density_image image densityrad = Ok d
    /\ has_shape (nrows image) (ncols image) d
    /\ forall y x v,
         0 <= y < Z.of_nat (nrows image) -> 0 <= x < Z.of_nat (ncols image) ->
         get2 image y x = Ok v ->
         get2 d y x
         = Ok (if (densityrad <=? y) && (y <? Z.of_nat (nrows image) - densityrad)
                  && (densityrad <=? x)
                  && (x <? Z.of_nat (ncols image) - densityrad)
                  && negb (v =? 0)
               then to_int32 (sum2 (slice2 image (y - densityrad) (y + densityrad)
                                                 (x - densityrad) (x + densityrad)))
               else 0).
Proof.
  intros Hrect Hr.
  set (h := nrows image). set (w := ncols image).
  set (r := densityrad) in *.
  set (block := fun y x : Z =>
         to_int32 (sum2 (slice2 image (y - r) (y + r) (x - r) (x + r)))).
  (* the pixels that the loops have passed when the counters are x0 and y0 *)
  set (passed := fun (x0 y0 y x : Z) =>
         r <= y < Z.of_nat h - r /\ r <= x
         /\ (x - r < x0 \/ (x - r = x0 /\ y - r < y0))).
  set (Inv := fun (x0 y0 : Z) (d : array2) =>
         has_shape h w d
         /\ forall y x v,
              0 <= y < Z.of_nat h -> 0 <= x < Z.of_nat w ->
              get2 image y x = Ok v ->
              (passed x0 y0 y x ->
               get2 d y x = Ok (if negb (v =? 0) then block y x else 0))
              /\ (~ passed x0 y0 y x -> get2 d y x = Ok 0)).
  assert (Hinner : forall x0 d,
             0 <= x0 < Z.of_nat w - 2 * r -> Inv x0 0 d ->
             exists d',
               foldM (fun densityimage y =>
                        let* v := get2 image (y + r) (x0 + r) in
                        if negb (v =? 0) then
                          set2 densityimage (y + r) (x0 + r)
                               (to_int32 (sum2 (slice2 image y (y + 2 * r)
                                                             x0 (x0 + 2 * r))))
                        else Ok densityimage)
                     (xrange (Z.of_nat h - 2 * r)) d = Ok d'
               /\ Inv (x0 + 1) 0 d').
  { intros x0 d Hx0 Hd. rewrite xrange_to_nat.
    destruct (foldM_seqZ_invariant (Inv x0)
                (fun densityimage y =>
                   let* v := get2 image (y + r) (x0 + r) in
                   if negb (v =? 0) then
                     set2 densityimage (y + r) (x0 + r)
                          (to_int32 (sum2 (slice2 image y (y + 2 * r)
                                                        x0 (x0 + 2 * r))))
                   else Ok densityimage)
                (Z.to_nat (Z.of_nat h - 2 * r)) 0 d) as [d' [Hfold Hd']].
    - intros y0 b Hy0 [Hshape Hcells].
      destruct (get2_in_range image (y0 + r) (x0 + r)) as [v Hv];
        [done|fold h; lia|fold w; lia|].
      rewrite Hv. cbn [rbind].
      destruct (v =? 0) eqn:Hzero; cbn [negb].
      + exists b. split; [done|]. split; [done|].
        intros y x u Hy Hx Hu. destruct (Hcells y x u Hy Hx Hu) as [Hp Hn].
        split.
        * intros Hpass.
          destruct (decide (y = y0 + r /\ x = x0 + r)) as [[-> ->]|Hother].
          -- assert (u = v) as -> by congruence. rewrite Hzero. cbn [negb].
             apply Hn. unfold passed. lia.
          -- apply Hp. unfold passed in *. lia.
        * intros Hpass. apply Hn. unfold passed in *. lia.
      + destruct (get2_set2 h w b (y0 + r) (x0 + r)
                    (to_int32 (sum2 (slice2 image y0 (y0 + 2 * r)
                                                  x0 (x0 + 2 * r)))) Hshape)
          as (b' & Hset & Hshape' & Hget); [lia|lia|].
        exists b'. split; [exact Hset|]. split; [exact Hshape'|].
        intros y x u Hy Hx Hu. rewrite (Hget y x Hy Hx).
        destruct (Hcells y x u Hy Hx Hu) as [Hp Hn].
        destruct ((y =? y0 + r) && (x =? x0 + r)) eqn:Hhere.
        * apply andb_true_iff in Hhere as [Hy' Hx'].
          apply Z.eqb_eq in Hy', Hx'. subst y x.
          assert (u = v) as -> by congruence. rewrite Hzero. cbn [negb].
          split; [|unfold passed; lia]. intros _. unfold block.
          by replace (y0 + r - r) with y0 by lia;
            replace (x0 + r - r) with x0 by lia;
            replace (y0 + r + r) with (y0 + 2 * r) by lia;
            replace (x0 + r + r) with (x0 + 2 * r) by lia.
        * assert (Hne : ~ (y = y0 + r /\ x = x0 + r)).
          { intros [-> ->]. by rewrite !Z.eqb_refl in Hhere. }
          split; intros Hpass; [apply Hp|apply Hn]; unfold passed in *; lia.
    - exact Hd.
    - exists d'. split; [exact Hfold|].
      destruct Hd' as [Hshape Hcells]. split; [exact Hshape|].
      intros y x u Hy Hx Hu. destruct (Hcells y x u Hy Hx Hu) as [Hp Hn].
      split; intros Hpass; [apply Hp|apply Hn]; unfold passed in *; lia. }
  unfold density_image. fold h w r.
  rewrite (xrange_to_nat (Z.of_nat w - 2 * r)).
  destruct (foldM_seqZ_invariant (fun x0 => Inv x0 0)
              (fun densityimage x =>
                 foldM (fun densityimage y =>
                          let* v := get2 image (y + r) (x + r) in
                          if negb (v =? 0) then
                            set2 densityimage (y + r) (x + r)
                                 (to_int32 (sum2 (slice2 image y (y + 2 * r)
                                                               x (x + 2 * r))))
                          else Ok densityimage)
                       (xrange (Z.of_nat h - 2 * r)) densityimage)
              (Z.to_nat (Z.of_nat w - 2 * r)) 0 (zeros h w))
    as [d [Hfold [Hshape Hcells]]].
  - intros x0 b Hx0 Hb. apply Hinner; [lia|done].
  - split; [apply has_shape_zeros|].
    intros y x u Hy Hx Hu.
    destruct (get2_cell h w (zeros h w) y x (has_shape_zeros h w) Hy Hx)
      as (row & z & Hrow & Hz & ->).
    unfold zeros in Hrow. apply lookup_replicate in Hrow as [-> _].
    apply lookup_replicate in Hz as [-> _].
    split; [unfold passed; lia|done].
  - exists d. split; [exact Hfold|]. split; [exact Hshape|].
    intros y x v Hy Hx Hv. destruct (Hcells y x v Hy Hx Hv) as [Hp Hn].
    destruct ((r <=? y) && (y <? Z.of_nat h - r) && (r <=? x)
              && (x <? Z.of_nat w - r)) eqn:Hin.
    + cbn [andb]. apply Hp. unfold passed.
      repeat (apply andb_true_iff in Hin as [Hin ?]). lia.
    + cbn [andb]. apply Hn. unfold passed. intros Hpass.
      assert (Htrue : (r <=? y) && (y <? Z.of_nat h - r) && (r <=? x)
                      && (x <? Z.of_nat w - r) = true).
      { repeat (apply andb_true_iff; split); lia. }
      congruence.
Qed.

(** X9. The density image of a rectangular image, for a density radius that
    is not negative, has the shape of the image. Its value at a pixel that is
    at least the radius away from every border and is not zero in the image
    is the sum of the block of the image that reaches from [radius] pixels
    before the pixel to [radius - 1] pixels behind it, in both directions,
    stored as an [int32]; it is zero at every other pixel. *)
Theorem density_image_values (image : array2) (densityrad : Z) :
  rectangular image -> 0 <= densityrad ->
  exists d,
    density_image image densityrad = Ok d
    /\ has_shape (nrows image) (ncols image) d
    /\ forall y x v,
         0 <= y < Z.of_nat (nrows image) -> 0 <= x < Z.of_nat (ncols image) ->
         get2 image y x = Ok v ->
         get2 d y x
         = Ok (if (densityrad <=? y) && (y <? Z.of_nat (nrows image) - densityrad)
                  && (densityrad <=? x)
                  && (x <? Z.of_nat (ncols image) - densityrad)
                  && negb (v =? 0)
               then to_int32 (sum2 (slice2 image (y - densityrad) (y + densityrad)
                                                 (x - densityrad) (x + densityrad)))
               else 0).
Proof. apply density_image_spec. Qed.

End DensityProperties.

(** ** The shortest-path search: guards, errors and the shape of a path *)

Section PathProperties.
Context {F : Type} {FO : Float64Ops F}.

Lemma has_shape_concat_nil (h w : nat) (d : array2) :
  has_shape h w d -> (concat d = [] <-> (h * w = 0)%nat).
Proof.
  intros [Hlen Hrows]. subst h. induction d as [|row d IH]; [done|].
  inversion Hrows as [|? ? Hrow Hrest]; subst. cbn [concat length].
  split.
  - intros Hnil. apply app_eq_nil in Hnil as [-> _]. simpl. lia.
  - intros Hzero. assert (length row = 0)%nat as Hw by lia.
    apply nil_length_inv in Hw. subst row. cbn [app].
    apply IH; [done|]. simpl. lia.
Qed.

Lemma max2_has_shape (h w : nat) (d : array2) :
  has_shape h w d ->
  if (h * w =? 0)%nat then max2 d = Raise ValueError
  else exists m, max2 d = Ok m.
Proof.
  intros Hd. pose proof (has_shape_concat_nil h w d Hd) as Hnil. unfold max2.
  destruct (h * w =? 0)%nat eqn:Hsize.
  - apply Nat.eqb_eq in Hsize. by rewrite (proj2 Hnil Hsize).
  - apply Nat.eqb_neq in Hsize. destruct (concat d) as [|v rest].
    + exfalso. by apply Hsize, Hnil.
    + by eexists.
Qed.

Lemma axis_index_outside (n : nat) (i : Z) :
  ~ (- Z.of_nat n <= i < Z.of_nat n) -> axis_index n i = None.
Proof.
  intros Hout. unfold axis_index.
  destruct ((0 <=? i) && (i <? Z.of_nat n)) eqn:H1;
    [apply andb_true_iff in H1; lia|].
  destruct ((- Z.of_nat n <=? i) && (i <? 0)) eqn:H2;
    [apply andb_true_iff in H2; lia|done].
Qed.

Lemma get2_outside (h w : nat) (d : array2) (y x : Z) :
  has_shape h w d -> (0 < h)%nat ->
  ~ (- Z.of_nat h <= y < Z.of_nat h /\ - Z.of_nat w <= x < Z.of_nat w) ->
  get2 d y x = Raise IndexError.
Proof.
  intros Hd Hh Hout. pose proof (has_shape_ncols h w d Hd Hh) as Hcols.
  unfold get2, nrows. rewrite Hcols, (proj1 Hd).
  destruct (decide (- Z.of_nat h <= y < Z.of_nat h)) as [Hy|Hy].
  - rewrite (axis_index_outside w x) by lia. by destruct (axis_index h y).
  - by rewrite (axis_index_outside h y).
Qed.

(** X10. On a rectangular image and with a density radius that is not
    negative, [findPathOnImage] returns the empty list as soon as the start or
    the end pixel is zero in the image or lies less than the density radius
    away from a border, both points being inside the image: the density
    there is zero, and no search takes place. *)
Theorem findPathOnImage_dead_pixel (image : array2) (startpoint endpoint : Z * Z)
    (bias everyotherpoint densityrad : Z) (vstart vend : Z) :
  let h := Z.of_nat (nrows image) in
  let w := Z.of_nat (ncols image) in
  let dead (p : Z * Z) (v : Z) :=
    v = 0 \/ fst p < densityrad \/ snd p < densityrad
    \/ w - densityrad <= fst p \/ h - densityrad <= snd p in
  rectangular image -> 0 <= densityrad ->
  0 <= fst startpoint < w -> 0 <= snd startpoint < h ->
  0 <= fst endpoint < w -> 0 <= snd endpoint < h ->
  get2 image (snd startpoint) (fst startpoint) = Ok vstart ->
  get2 image (snd endpoint) (fst endpoint) = Ok vend ->
  dead startpoint vstart \/ dead endpoint vend ->
  findPathOnImage image startpoint endpoint bias everyotherpoint densityrad
  = Ok [].
Proof.
  intros h w dead Hrect Hr Hsx Hsy Hex Hey Hvs Hve Hdead.
  unfold findPathOnImage.
  destruct (density_image_spec image densityrad Hrect Hr)
    as (d & -> & Hshape & Hcells). cbn [rbind].
  pose proof (max2_has_shape _ _ d Hshape) as Hmax.
  destruct (nrows image * ncols image =? 0)%nat eqn:Hsize;
    [apply Nat.eqb_eq in Hsize; unfold h, w in *; nia|].
  destruct Hmax as [m ->]. cbn [rbind].
  rewrite (Hcells _ _ vstart Hsy Hsx Hvs). cbn [rbind].
  rewrite (Hcells _ _ vend Hey Hex Hve). cbn [rbind].
  fold h w.
  set (inner := fun p : Z * Z =>
         (densityrad <=? snd p) && (snd p <? h - densityrad)
         && (densityrad <=? fst p) && (fst p <? w - densityrad)).
  fold (inner startpoint). fold (inner endpoint).
  assert (Hzero : forall p v, dead p v -> (if inner p && negb (v =? 0)
                                           then to_int32 (sum2 (slice2 image
                                                  (snd p - densityrad)
                                                  (snd p + densityrad)
                                                  (fst p - densityrad)
                                                  (fst p + densityrad)))
                                           else 0) = 0).
  { intros p v Hp.
    destruct (inner p && negb (v =? 0)) eqn:Hlive; [|done].
    exfalso. apply andb_true_iff in Hlive as [Hin Hv]. unfold inner in Hin.
    repeat (apply andb_true_iff in Hin as [Hin ?]).
    apply negb_true_iff, Z.eqb_neq in Hv. unfold dead in Hp. lia. }
  destruct Hdead as [Hs|He].
  - by rewrite (Hzero _ _ Hs).
  - rewrite (Hzero _ _ He). cbn [Z.eqb].
    by destruct (_ =? 0).
Qed.

(** X11. On a rectangular image and with a density radius that is not
    negative, a start point outside the image, by more than the negative
    indices of NumPy allow, makes [findPathOnImage] raise an [IndexError];
    an image without pixels makes it raise a [ValueError] before that. *)
Theorem findPathOnImage_start_outside (image : array2)
    (startpoint endpoint : Z * Z) (bias everyotherpoint densityrad : Z) :
  let h := Z.of_nat (nrows image) in
  let w := Z.of_nat (ncols image) in
  rectangular image -> 0 <= densityrad ->
  ~ (- w <= fst startpoint < w /\ - h <= snd startpoint < h) ->
  findPathOnImage image startpoint endpoint bias everyotherpoint densityrad
  = Raise (if (size2 image =? 0)%nat then ValueError else IndexError).
Proof.
  intros h w Hrect Hr Hout. unfold findPathOnImage.
  destruct (density_image_spec image densityrad Hrect Hr)
    as (d & -> & Hshape & _). cbn [rbind].
  pose proof (max2_has_shape _ _ d Hshape) as Hmax. unfold size2.
  destruct (nrows image * ncols image =? 0)%nat eqn:Hsize.
  - by rewrite Hmax.
  - destruct Hmax as [m ->]. cbn [rbind].
    apply Nat.eqb_neq in Hsize.
    rewrite (get2_outside _ _ d _ _ Hshape); [done|lia|].
    unfold h, w in Hout. lia.
Qed.

Lemma point_position_sound (points : list (Z * Z)) (x y : Z) :
  forall k, point_position points x y = Some k ->
            exists item, points !! k = Some item /\ snd item = x /\ fst item = y.
Proof.
  induction points as [|item points IH]; intros k Hk; simpl in Hk; [done|].
  destruct ((snd item =? x) && (fst item =? y)) eqn:Hhere.
  - injection Hk as <-. exists item. split; [done|].
    apply andb_true_iff in Hhere as [Hx Hy]. split; by apply Z.eqb_eq.
  - destruct (point_position points x y) as [k'|] eqn:Hpos; [|done].
    cbn in Hk. injection Hk as <-. apply (IH k' eq_refl).
Qed.

(** The backtracking loop puts entries of [points] in front of the path. *)
Lemma backtrack_shape (tracker : array2) (points : list (Z * Z))
    (startpoint : Z * Z) (everyotherpoint : Z) :
  forall steps current n path path',
    backtrack steps tracker points startpoint everyotherpoint current n path
    = Ok path' ->
    exists front, path' = front ++ path
                  /\ Forall (fun q => (snd q, fst q) ∈ points) front.
Proof.
  induction steps as [|steps IH]; intros current n path path' Hback.
  - cbn [backtrack] in Hback. peel Hback as t Ht.
    destruct (negb (t =? -1) && negb _); [done|].
    injection Hback as <-. by exists [].
  - cbn [backtrack] in Hback. peel Hback as t Ht.
    destruct (negb (t =? -1) && negb _).
    + peel Hback as k Hk. peel Hback as c Hc.
      destruct (points !! k) as [c'|] eqn:Hlookup; [|done].
      cbn in Hc. injection Hc as ->.
      destruct (everyotherpoint =? 0); [done|].
      apply IH in Hback as (front & -> & Hfront).
      destruct ((n mod everyotherpoint =? 0) || _).
      * exists (front ++ [(snd c, fst c)]). split; [by rewrite <- app_assoc|].
        apply Forall_app. split; [done|]. constructor; [|done].
        cbn [fst snd]. apply list_elem_of_lookup_2 with k.
        by destruct c.
      * by exists front.
    + injection Hback as <-. by exists [].
Qed.

Lemma where_row_sound (cond : Z -> bool) (r : Z) (row : list Z) :
  forall c y x,
    (y, x) ∈ where_row cond r c row ->
    y = r /\ c <= x
    /\ exists v, row !! Z.to_nat (x - c) = Some v /\ cond v = true.
Proof.
  induction row as [|v row IH]; intros c y x Hin; simpl in Hin.
  - by apply elem_of_nil in Hin.
  - apply elem_of_app in Hin as [Hin|Hin].
    + destruct (cond v) eqn:Hv; [|by apply elem_of_nil in Hin].
      apply list_elem_of_singleton in Hin. injection Hin as -> ->.
      split; [done|]. split; [lia|]. exists v.
      by replace (c - c) with 0 by lia.
    + apply IH in Hin as (-> & Hc & u & Hu & Hcond).
      split; [done|]. split; [lia|]. exists u. split; [|done].
      replace (Z.to_nat (x - c)) with (S (Z.to_nat (x - (c + 1)))) by lia.
      exact Hu.
Qed.

Lemma where_rows_sound (cond : Z -> bool) (rows : array2) :
  forall r y x,
    (y, x) ∈ where_rows cond r rows ->
    r <= y /\ 0 <= x
    /\ exists row v, rows !! Z.to_nat (y - r) = Some row
                     /\ row !! Z.to_nat x = Some v /\ cond v = true.
Proof.
  induction rows as [|row rows IH]; intros r y x Hin; simpl in Hin.
  - by apply elem_of_nil in Hin.
  - apply elem_of_app in Hin as [Hin|Hin].
    + apply where_row_sound in Hin as (-> & Hx & v & Hv & Hcond).
      split; [lia|]. split; [lia|]. exists row, v.
      replace (r - r) with 0 by lia. split; [done|].
      by replace (x - 0) with x in Hv by lia.
    + apply IH in Hin as (Hy & Hx & row' & v & Hrow & Hv & Hcond).
      split; [lia|]. split; [lia|]. exists row', v. split; [|done].
      replace (Z.to_nat (y - r)) with (S (Z.to_nat (y - (r + 1)))) by lia.
      exact Hrow.
Qed.

Lemma where2_get2 (h w : nat) (d : array2) (cond : Z -> bool) (y x : Z) :
  has_shape h w d ->
  (y, x) ∈ where2 cond d ->
  exists v, get2 d y x = Ok v /\ cond v = true.
Proof.
  intros Hd Hin. unfold where2 in Hin.
  apply where_rows_sound in Hin as (Hy & Hx & row & v & Hrow & Hv & Hcond).
  replace (y - 0) with y in Hrow by lia.
  assert (Hlen : length row = w).
  { destruct Hd as [_ Hrows]. rewrite Forall_forall in Hrows. apply Hrows.
    by apply list_elem_of_lookup_2 in Hrow. }
  assert (Hyh : 0 <= y < Z.of_nat h).
  { apply lookup_lt_Some in Hrow. destruct Hd as [Hlen' _]. lia. }
  assert (Hxw : 0 <= x < Z.of_nat w).
  { apply lookup_lt_Some in Hv. lia. }
  destruct (get2_cell h w d y x Hd Hyh Hxw) as (row' & v' & Hrow' & Hv' & ->).
  exists v. split; [|done]. congruence.
Qed.

(** A path that the search returns. *)
Lemma findPathOnImage_shape (image : array2) (startpoint endpoint : Z * Z)
    (bias everyotherpoint densityrad : Z) (path : list (Z * Z)) :
  rectangular image -> 0 <= densityrad ->
  findPathOnImage image startpoint endpoint bias everyotherpoint densityrad
  = Ok path ->
  path = []
  \/ ((2 <= length path)%nat
      /\ last path = Some endpoint
      /\ exists d,
           density_image image densityrad = Ok d
           /\ Forall (fun q => exists v, get2 d (snd q) (fst q) = Ok v
                                         /\ bias < v) path).
Proof.
  intros Hrect Hr Hpath. unfold findPathOnImage in Hpath.
  destruct (density_image_spec image densityrad Hrect Hr)
    as (d & Hdens & Hshape & _).
  rewrite Hdens in Hpath. cbn [rbind] in Hpath.
  peel Hpath as m Hm. peel Hpath as dstart Hdstart. peel Hpath as empty Hempty.
  destruct empty; [left; by injection Hpath as <-|].
  peel Hpath as tracker0 Htracker0. peel Hpath as tracker1 Htracker1.
  peel Hpath as tracker2 Htracker2. peel Hpath as tend Htend.
  destruct (tend =? -1); [left; by injection Hpath as <-|].
  peel Hpath as k Hk. peel Hpath as current Hcurrent.
  peel Hpath as path0 Hback.
  destruct (length path0 <? 2)%nat eqn:Hshort; [left; by injection Hpath as <-|].
  injection Hpath as <-. right.
  apply Nat.ltb_ge in Hshort. split; [exact Hshort|].
  apply backtrack_shape in Hback as (front & -> & Hfront).
  split; [rewrite last_snoc; by destruct endpoint|].
  exists d. split; [done|].
  set (points := where2 (fun v => bias <? v) d) in *.
  assert (Hpoint : forall q, (snd q, fst q) ∈ points ->
                             exists v, get2 d (snd q) (fst q) = Ok v /\ bias < v).
  { intros q Hq. destruct (where2_get2 _ _ d _ _ _ Hshape Hq) as (v & Hv & Hc).
    exists v. split; [done|]. by apply Z.ltb_lt in Hc. }
  apply Forall_app. split.
  - apply Forall_forall. intros q Hq. apply Hpoint.
    rewrite Forall_forall in Hfront. by apply Hfront.
  - constructor; [|done]. apply Hpoint. cbn [fst snd].
    destruct (point_position points (fst endpoint) (snd endpoint)) as [k'|] eqn:Hpos;
      [|done].
    apply point_position_sound in Hpos as (item & Hitem & Hx & Hy).
    apply list_elem_of_lookup_2 in Hitem. destruct item as [iy ix].
    cbn [fst snd] in Hx, Hy. by subst.
Qed.

(** X12. On a rectangular image and with a density radius that is not
    negative, a path that [findPathOnImage] returns is either empty or has at
    least two points, ends with the end point, and runs only over pixels
    whose density exceeds the bias. *)
Theorem findPathOnImage_path (image : array2) (startpoint endpoint : Z * Z)
    (bias everyotherpoint densityrad : Z) (path : list (Z * Z)) :
  rectangular image -> 0 <= densityrad ->
  findPathOnImage image startpoint endpoint bias everyotherpoint densityrad
  = Ok path ->
  path = []
  \/ ((2 <= length path)%nat
      /\ last path = Some endpoint
      /\ exists d,
           density_image image densityrad = Ok d
           /\ Forall (fun q => exists v, get2 d (snd q) (fst q) = Ok v
                                         /\ bias < v) path).
Proof. apply findPathOnImage_shape. Qed.

End PathProperties.

(** ** The two tracers: dark images, end points and inlets *)

Section TracerProperties.
Context {F : Type} {FO : Float64Ops F}.

Local Abbreviation point := (point3 (F := F)).
Local Abbreviation track := (trajectory (F := F)).

Lemma fold_max_zero (l : list Z) :
  Forall (fun v => v = 0) l -> fold_left Z.max l 0 = 0.
Proof.
  induction l as [|v l IH]; intros Hl; [done|].
  inversion Hl as [|? ? -> Hrest]; subst. simpl. by apply IH.
Qed.

Lemma max2_all_zero (a : array2) :
  Forall (Forall (fun v => v = 0)) a -> concat a <> [] -> max2 a = Ok 0.
Proof.
  intros Hzero Hne. apply Forall_concat in Hzero. unfold max2.
  destruct (concat a) as [|v rest]; [done|].
  inversion Hzero as [|? ? -> Hrest]; subst. by rewrite fold_max_zero.
Qed.

(** X13. On a rectangular image whose pixels are all zero the shortest-path
    tracer returns no trajectory, whatever the points; on an image without
    pixels it raises the [ValueError] of [image.max()]. *)
Theorem getTrajectoriesFromImageDijkstra_dark (image : array2)
    (startpoints endpoints : list point)
    (bias everyotherpoint densityrad spvariancefactor : Z) :
  rectangular image ->
  Forall (Forall (fun v => v = 0)) image ->
  getTrajectoriesFromImageDijkstra image startpoints endpoints bias
                                   everyotherpoint densityrad spvariancefactor
  = if (size2 image =? 0)%nat then Raise ValueError else Ok [].
Proof.
  intros Hrect Hzero. unfold getTrajectoriesFromImageDijkstra, size2.
  pose proof (rectangular_has_shape image Hrect) as Hshape.
  pose proof (has_shape_concat_nil _ _ image Hshape) as Hnil.
  destruct (nrows image * ncols image =? 0)%nat eqn:Hsize.
  - apply Nat.eqb_eq in Hsize. unfold max2. by rewrite (proj2 Hnil Hsize).
  - apply Nat.eqb_neq in Hsize. rewrite max2_all_zero; [done|done|].
    intros Hempty. by apply Hsize, Hnil.
Qed.

Lemma slice1_Forall {A : Type} (P : A -> Prop) (l : list A) (start stop : Z) :
  Forall P l -> Forall P (slice1 l start stop).
Proof. intros Hl. unfold slice1. by apply Forall_take, Forall_drop. Qed.

Lemma slice2_all_zero (a : array2) (y0 y1 x0 x1 : Z) :
  Forall (Forall (fun v => v = 0)) a ->
  Forall (Forall (fun v => v = 0)) (slice2 a y0 y1 x0 x1).
Proof.
  intros Ha. unfold slice2. apply Forall_forall. intros row Hrow.
  apply list_elem_of_In, in_map_iff in Hrow as (row' & <- & Hrow').
  apply slice1_Forall.
  pose proof (slice1_Forall _ a y0 y1 Ha) as Hrows.
  rewrite Forall_forall in Hrows. by apply Hrows, list_elem_of_In.
Qed.

Lemma size2_concat (a : array2) : size2 a <> 0%nat -> concat a <> [].
Proof.
  unfold size2, nrows, ncols. destruct a as [|row a]; [simpl; lia|].
  destruct row as [|v row]; [simpl; lia|done].
Qed.

(** On a dark image the first round of the gradient loop breaks off. *)
Lemma trace_step_dark (image : array2) (startpoints : list point)
    (gradient densityrad : Z) (maxattraction : F) (endpoint : point)
    (slope : vec) :
  Forall (Forall (fun v => v = 0)) image ->
  trace_step image startpoints gradient densityrad maxattraction
             [endpoint] slope = Ok None.
Proof.
  intros Hzero. unfold trace_step. cbn [last of_option rbind].
  set (imageslice := slice2 image _ _ _ _).
  destruct (size2 imageslice =? 0)%nat eqn:Hsize; [done|].
  apply Nat.eqb_neq in Hsize.
  rewrite max2_all_zero; [done| |by apply size2_concat].
  by apply slice2_all_zero.
Qed.

(** X14. On an image whose pixels are all zero the gradient tracer returns no
    trajectory and raises nothing, whatever the points, provided that the
    three floats that reach [int] before the first test of the window are
    neither NaN nor infinite: [gradientfactor * max(width, height)], which
    gives the gradient, and the two products of a component of [flow] and
    the gradient. Every search then breaks off in its first round with the
    end point alone. *)
Theorem getTrajectoriesFromImage_dark (image : array2)
    (startpoints endpoints : list point) (flow : vec) (maxiteration : Z)
    (gradientfactor : F) (densityrad : Z) (maxattraction : F) :
  let scaled :=
    f_mul gradientfactor (f_of_Z (Z.max (Z.of_nat (ncols image))
                                        (Z.of_nat (nrows image)))) in
  let gradient := Z.max (f_trunc scaled) 2 in
  f_is_nan_or_inf scaled = false ->
  f_is_nan_or_inf (f_mul (fst flow) (f_of_Z gradient)) = false ->
  f_is_nan_or_inf (f_mul (snd flow) (f_of_Z gradient)) = false ->
  Forall (Forall (fun v => v = 0)) image ->
  getTrajectoriesFromImage image startpoints endpoints flow maxiteration
                           gradientfactor densityrad maxattraction
  = Ok [].
Proof.
  intros scaled gradient _ _ _ Hzero. clear scaled gradient.
  unfold getTrajectoriesFromImage.
  induction endpoints as [|endpoint endpoints IH]; [done|].
  cbn [foldM]. unfold trace_endpoint, round_bound. cbn [trace_loop].
  rewrite trace_step_dark by done. cbn [rbind fst length Nat.ltb Nat.leb].
  exact IH.
Qed.

(** A loop that appends at most one value per round. *)
Lemma foldM_collect {A B : Type} (R : B -> A -> Prop)
    (f : list B -> A -> result (list B)) :
  (forall acc a acc', f acc a = Ok acc' ->
                      acc' = acc \/ exists t, acc' = acc ++ [t] /\ R t a) ->
  forall l acc acc',
    foldM f l acc = Ok acc' ->
    exists new used, acc' = acc ++ new /\ used `sublist_of` l
                     /\ Forall2 R new used.
Proof.
  intros Hstep. induction l as [|a l IH]; intros acc acc' Hfold.
  - cbn in Hfold. injection Hfold as <-. exists [], [].
    by rewrite app_nil_r.
  - cbn [foldM] in Hfold. peel Hfold as acc1 Hf.
    apply IH in Hfold as (new & used & -> & Hsub & Hall).
    destruct (Hstep _ _ _ Hf) as [->|(t & -> & Ht)].
    + exists new, used. split; [done|]. split; [by apply sublist_cons|done].
    + exists (t :: new), (a :: used). split; [by rewrite <- app_assoc|].
      split; [by apply sublist_skip|by constructor].
Qed.

Lemma trace_step_extends (image : array2) (startpoints : list point)
    (gradient densityrad : Z) (maxattraction : F) (t t' : track)
    (slope slope' : vec) (run : bool) :
  trace_step image startpoints gradient densityrad maxattraction t slope
  = Ok (Some (t', slope', run)) ->
  exists added, t' = t ++ added.
Proof.
  unfold trace_step. intros H. peel H as current Hcurrent.
  destruct (size2 _ =? 0)%nat; [done|].
  peel H as m Hm. destruct (m =? 0); [done|].
  peel H as centre Hcentre. peel H as window Hwindow.
  peel H as densityimage Hdensity. peel H as dmax Hdmax.
  peel H as best Hbest. peel H as slope1 Hslope.
  injection H as <- _ _. rewrite <- app_assoc. by eexists.
Qed.

Lemma trace_loop_extends (image : array2) (startpoints : list point)
    (gradient densityrad : Z) (maxattraction : F) (maxiteration : Z) :
  forall bound i rounds (t : track) slope t' rounds',
    trace_loop bound image startpoints gradient densityrad maxattraction
               maxiteration i rounds t slope = Ok (t', rounds') ->
    exists added, t' = t ++ added.
Proof.
  induction bound as [|bound IH]; intros i rounds t slope t' rounds' H; [done|].
  cbn [trace_loop] in H. peel H as step Hstep.
  destruct step as [[[t1 slope1] run]|].
  - apply trace_step_extends in Hstep as [added ->].
    destruct (if maxiteration <? i + 1 then false else run).
    + apply IH in H as [added' ->]. rewrite <- app_assoc. by eexists.
    + injection H as <- _. by eexists.
  - injection H as <- _. exists []. by rewrite app_nil_r.
Qed.

(** X15. The trajectories that the gradient tracer returns belong to end
    points, in the order of the end points and at most one to each: every
    trajectory ends with its end point. *)
Theorem getTrajectoriesFromImage_endpoints (image : array2)
    (startpoints endpoints : list point) (flow : vec) (maxiteration : Z)
    (gradientfactor : F) (densityrad : Z) (maxattraction : F)
    (trajectories : list track) :
  getTrajectoriesFromImage image startpoints endpoints flow maxiteration
                           gradientfactor densityrad maxattraction
  = Ok trajectories ->
  exists used,
    used `sublist_of` endpoints
    /\ Forall2 (fun t endpoint => last t = Some endpoint) trajectories used.
Proof.
  intros H. unfold getTrajectoriesFromImage in H.
  apply (foldM_collect (fun (t : track) endpoint => last t = Some endpoint))
    in H as (new & used & -> & Hsub & Hall).
  - by exists used.
  - intros acc endpoint acc' Hstep. peel Hstep as traced Htraced.
    destruct (1 <? length (fst traced))%nat; [|left; by injection Hstep as <-].
    right. injection Hstep as <-. eexists. split; [done|].
    destruct traced as [t rounds]. unfold trace_endpoint in Htraced.
    apply trace_loop_extends in Htraced as [added ->]. cbn [fst].
    by rewrite last_reverse.
Qed.

Lemma foldM_length_bound {A B : Type} (k : nat)
    (f : list B -> A -> result (list B)) :
  (forall acc a acc', f acc a = Ok acc' -> (length acc' <= length acc + k)%nat) ->
  forall l acc acc',
    foldM f l acc = Ok acc' -> (length acc' <= length acc + length l * k)%nat.
Proof.
  intros Hstep. induction l as [|a l IH]; intros acc acc' Hfold.
  - cbn in Hfold. injection Hfold as <-. simpl. lia.
  - cbn [foldM] in Hfold. peel Hfold as acc1 Hf.
    apply IH in Hfold. apply Hstep in Hf. simpl. lia.
Qed.

(** X16. On a rectangular image and with a density radius that is not
    negative, the shortest-path tracer returns at most one trajectory for
    each pair of an end point and a start point. Every trajectory starts at
    the pixel of a start point, as adjusted by the search for a bright pixel
    nearby; all its points carry the width [10] and lie on pixels whose
    density exceeds the bias. *)
Theorem getTrajectoriesFromImageDijkstra_trajectories (image : array2)
    (startpoints endpoints : list point)
    (bias everyotherpoint densityrad spvariancefactor : Z)
    (trajectories : list track) :
  rectangular image -> 0 <= densityrad ->
  getTrajectoriesFromImageDijkstra image startpoints endpoints bias
                                   everyotherpoint densityrad spvariancefactor
  = Ok trajectories ->
  (length trajectories <= length endpoints * length startpoints)%nat
  /\ exists d,
       density_image image densityrad = Ok d
       /\ Forall (fun t : track =>
            (exists startpoint adjusted,
                startpoint ∈ startpoints
                /\ snap_startpoint image startpoint bias spvariancefactor
                   = Ok adjusted
                /\ head t = Some (px adjusted, py adjusted, PInt 10))
            /\ Forall (fun p => pw p = PInt 10
                                /\ exists v, get2 d (py p) (px p) = Ok v
                                             /\ bias < v) t)
          trajectories.
Proof.
  intros Hrect Hr H. unfold getTrajectoriesFromImageDijkstra in H.
  destruct (density_image_spec image densityrad Hrect Hr)
    as (d & Hdens & _ & _).
  peel H as m Hm. destruct (m =? 0).
  { injection H as <-. split; [simpl; lia|]. exists d. by split. }
  set (good := fun t : track =>
         (exists startpoint adjusted,
             startpoint ∈ startpoints
             /\ snap_startpoint image startpoint bias spvariancefactor
                = Ok adjusted
             /\ head t = Some (px adjusted, py adjusted, PInt 10))
         /\ Forall (fun p => pw p = PInt 10
                             /\ exists v, get2 d (py p) (px p) = Ok v
                                          /\ bias < v) t).
  (* one pair of an end point and a start point *)
  assert (Hpair : forall (endpoint startpoint : point) acc acc',
             startpoint ∈ startpoints ->
             (let* startpoint' :=
                snap_startpoint image startpoint bias spvariancefactor in
              let* path :=
                findPathOnImage image (px endpoint, py endpoint)
                                (px startpoint', py startpoint')
                                bias everyotherpoint densityrad in
              if (0 <? length path)%nat
              then Ok (acc ++ [trajectory_of_path path])
              else Ok acc) = Ok acc' ->
             (length acc' <= length acc + 1)%nat
             /\ (Forall good acc -> Forall good acc')).
  { intros endpoint startpoint acc acc' Hin Hstep.
    peel Hstep as adjusted Hsnap. peel Hstep as path Hpath.
    destruct (0 <? length path)%nat eqn:Hlen;
      [|injection Hstep as <-; split; [lia|done]].
    injection Hstep as <-. rewrite length_app. simpl. split; [lia|].
    intros Hacc. apply Forall_app. split; [exact Hacc|].
    constructor; [|done].
    apply Nat.ltb_lt in Hlen.
    destruct (findPathOnImage_shape _ _ _ _ _ _ _ Hrect Hr Hpath)
      as [->|(_ & Hlast & d' & Hdens' & Hpoints)]; [simpl in Hlen; lia|].
    assert (d' = d) as -> by congruence.
    split.
    - exists startpoint, adjusted. split; [done|]. split; [done|].
      unfold trajectory_of_path.
      apply last_Some in Hlast as [front ->].
      by rewrite reverse_snoc.
    - unfold trajectory_of_path. apply Forall_forall. intros p Hp.
      apply list_elem_of_In, in_map_iff in Hp as (q & <- & Hq).
      split; [done|]. cbn [px py fst snd].
      rewrite Forall_forall in Hpoints. apply Hpoints.
      by apply elem_of_reverse, list_elem_of_In. }
  assert (Hinner : forall (endpoint : point) (sps : list point)
                          (acc acc' : list track),
             (forall sp, sp ∈ sps -> sp ∈ startpoints) ->
             foldM (fun (trajectories : list track) (startpoint : point) =>
                      let* startpoint :=
                        snap_startpoint image startpoint bias
                                        spvariancefactor in
                      let* path :=
                        findPathOnImage image (px endpoint, py endpoint)
                                        (px startpoint, py startpoint)
                                        bias everyotherpoint densityrad in
                      if (0 <? length path)%nat
                      then Ok (trajectories ++ [trajectory_of_path path])
                      else Ok trajectories) sps acc = Ok acc' ->
             (length acc' <= length acc + length sps)%nat
             /\ (Forall good acc -> Forall good acc')).
  { intros endpoint. induction sps as [|sp sps IH]; intros acc0 acc1 Hsub Hfold.
    - cbn in Hfold. injection Hfold as <-. simpl. split; [lia|done].
    - cbn [foldM] in Hfold. peel Hfold as acc2 Hstep.
      apply (Hpair endpoint sp) in Hstep as [Hlen Hkeep]; [|apply Hsub; left].
      apply IH in Hfold as [Hlen' Hkeep'].
      + split; [simpl; lia|]. intros Hgood. by apply Hkeep', Hkeep.
      + intros sp' Hsp'. apply Hsub. by right. }
  split.
  - apply (foldM_length_bound (length startpoints)) in H;
      [simpl in H; lia|].
    intros acc endpoint acc' Hfold. by apply Hinner in Hfold as [Hlen _].
  - exists d. split; [done|].
    revert H. apply (foldM_ok_invariant (Forall good)); [|done].
    intros acc endpoint acc' Hacc Hfold.
    apply Hinner in Hfold as [_ Hkeep]; [by apply Hkeep|done].
Qed.

Lemma get2_outcome (a : array2) (y x : Z) :
  (exists v, get2 a y x = Ok v) \/ get2 a y x = Raise IndexError.
Proof.
  unfold get2.
  destruct (axis_index (nrows a) y) as [r|]; [|by right].
  destruct (axis_index (ncols a) x) as [c|]; [|by right].
  destruct (a !! r) as [row|]; [|by right].
  destruct (row !! c) as [v|]; [left; by eexists|by right].
Qed.

(** A window that is not wider than twice the density radius leaves no room
    for a density image. *)
Lemma window_density_small (window : array2) (gradient densityrad : Z) :
  gradient <= 2 * densityrad ->
  match window_density window gradient densityrad with
  | Ok d => d = []
  | Raise e => e = ValueError
  | Diverge => False
  end.
Proof.
  intros Hsmall. unfold window_density.
  destruct (gradient - 2 * densityrad <? 0) eqn:Hneg; [done|].
  apply Z.ltb_ge in Hneg.
  by replace (gradient - 2 * densityrad) with 0 by lia.
Qed.

(** With such a window a round of the loop breaks off or raises. *)
Lemma trace_step_small_window (image : array2) (startpoints : list point)
    (gradient densityrad : Z) (maxattraction : F) (t : track) (slope : vec) :
  gradient <= 2 * densityrad ->
  match trace_step image startpoints gradient densityrad maxattraction t slope with
  | Ok step => step = None
  | Raise e => e = ValueError \/ e = IndexError
  | Diverge => False
  end.
Proof.
  intros Hsmall. unfold trace_step.
  destruct (last t) as [current|]; cbn [of_option rbind]; [|by right].
  destruct (size2 _ =? 0)%nat; [done|].
  set (imageslice := slice2 image _ _ _ _).
  unfold max2 at 1. destruct (concat imageslice) as [|v rest]; [by left|].
  cbn [rbind]. destruct (_ =? 0); [done|].
  destruct (get2_outcome imageslice (gradient / 2) (gradient / 2))
    as [[centre ->]| ->]; cbn [rbind]; [|by right].
  destruct (centre =? 0).
  - destruct (head _) as [nearest|]; cbn [of_option rbind]; [|by right].
    cbn [fst snd].
    match goal with
    | |- context [window_density ?w gradient densityrad] =>
        pose proof (window_density_small w gradient densityrad Hsmall) as Hd;
        destruct (window_density w gradient densityrad) as [d|e|]
    end; cbn [rbind]; [by subst d; left|by left|done].
  - cbn [rbind fst snd].
    pose proof (window_density_small imageslice gradient densityrad Hsmall) as Hd.
    destruct (window_density imageslice gradient densityrad) as [d|e|];
      cbn [rbind]; [by subst d; left|by left|done].
Qed.

(** X17. The gradient tracer needs a window wider than twice the density
    radius. With [max(int(gradientfactor * max(width, height)), 2)] at most
    [2 * densityrad], as on every image of fewer than thirty pixels in both
    directions with the default parameters, it does not return a single
    trajectory: each search breaks off in its first round, and the call
    returns the empty list, or it raises a [ValueError] or an [IndexError].
    This is for floats that [int] converts: [gradientfactor * max(width,
    height)] and the two products of a component of [flow] and the gradient
    are neither NaN nor infinite. *)
Theorem getTrajectoriesFromImage_small_window (image : array2)
    (startpoints endpoints : list point) (flow : vec) (maxiteration : Z)
    (gradientfactor : F) (densityrad : Z) (maxattraction : F) :
  let scaled :=
    f_mul gradientfactor (f_of_Z (Z.max (Z.of_nat (ncols image))
                                        (Z.of_nat (nrows image)))) in
  let gradient := Z.max (f_trunc scaled) 2 in
  f_is_nan_or_inf scaled = false ->
  f_is_nan_or_inf (f_mul (fst flow) (f_of_Z gradient)) = false ->
  f_is_nan_or_inf (f_mul (snd flow) (f_of_Z gradient)) = false ->
  gradient <= 2 * densityrad ->
  match getTrajectoriesFromImage image startpoints endpoints flow maxiteration
                                 gradientfactor densityrad maxattraction with
  | Ok trajectories => trajectories = []
  | Raise e => e = ValueError \/ e = IndexError
  | Diverge => False
  end.
Proof.
  intros scaled gradient _ _ _ Hsmall. unfold gradient, scaled in Hsmall.
  clear scaled gradient. unfold getTrajectoriesFromImage.
  induction endpoints as [|endpoint endpoints IH]; [done|].
  cbn [foldM]. unfold trace_endpoint, round_bound. cbn [trace_loop].
  pose proof (trace_step_small_window image startpoints _ densityrad
                maxattraction [endpoint] flow Hsmall) as Hstep.
  destruct (trace_step _ _ _ _ _ [endpoint] flow) as [step|e|];
    cbn [rbind]; [|done|done].
  subst step. cbn [rbind fst length Nat.ltb Nat.leb]. exact IH.
Qed.

End TracerProperties.

(** ** Runs of consecutive numbers *)

Section GroupProperties.

Lemma seqZ_snoc (a : Z) (m : nat) :
  seqZ a (Z.of_nat m) ++ [a + Z.of_nat m] = seqZ a (Z.of_nat (S m)).
Proof. by rewrite seqZ_S. Qed.

(** The grouping loop: [run] holds, in reverse, the [m] consecutive numbers
    from [a] on that end at position [i - 1]. *)
Lemma group_runs_spec :
  forall (numbers : list Z) (i a : Z) (m : nat),
    (0 < m)%nat ->
    exists (n : nat) (rest : list (list Z)),
      group_runs numbers i (i - Z.of_nat m - a) (reverse (seqZ a (Z.of_nat m)))
      = seqZ a (Z.of_nat n) :: rest
      /\ (m <= n)%nat
      /\ concat (seqZ a (Z.of_nat n) :: rest) = seqZ a (Z.of_nat m) ++ numbers
      /\ Forall (fun g => exists b (k : nat), (0 < k)%nat /\ g = seqZ b (Z.of_nat k))
                rest
      /\ (forall k g1 g2 x y,
             (seqZ a (Z.of_nat n) :: rest) !! k = Some g1 ->
             (seqZ a (Z.of_nat n) :: rest) !! S k = Some g2 ->
             last g1 = Some x -> head g2 = Some y -> y <> x + 1).
Proof.
  induction numbers as [|x numbers IH]; intros i a m Hm.
  - exists m, []. cbn [group_runs]. rewrite reverse_involutive.
    split; [done|]. split; [lia|]. split; [done|].
    split; [constructor|]. intros k g1 g2 x y _ Hg2. by destruct k.
  - cbn [group_runs].
    destruct (i - x =? i - Z.of_nat m - a) eqn:Hsame.
    + apply Z.eqb_eq in Hsame. assert (x = a + Z.of_nat m) as -> by lia.
      destruct (IH (i + 1) a (S m)) as (n & rest & Hrun & Hn & Hcat & Hall & Hadj);
        [lia|].
      exists n, rest.
      replace (i + 1 - Z.of_nat (S m) - a) with (i - Z.of_nat m - a) in Hrun by lia.
      rewrite <- seqZ_snoc, reverse_snoc in Hrun.
      split; [exact Hrun|]. split; [lia|]. split; [|done].
      rewrite Hcat, <- seqZ_snoc, <- app_assoc. done.
    + apply Z.eqb_neq in Hsame. rewrite reverse_involutive.
      destruct (IH (i + 1) x 1%nat) as (n & rest & Hrun & Hn & Hcat & Hall & Hadj);
        [lia|].
      replace (i + 1 - Z.of_nat 1 - x) with (i - x) in Hrun by lia.
      change (reverse (seqZ x (Z.of_nat 1))) with [x] in Hrun.
      exists m, (seqZ x (Z.of_nat n) :: rest).
      split; [by rewrite Hrun|]. split; [lia|]. split; [|split].
      * cbn [concat] in Hcat |- *. rewrite Hcat. done.
      * constructor; [|done]. exists x, n. split; [lia|done].
      * intros k g1 g2 u v Hg1 Hg2 Hu Hv. destruct k as [|k].
        -- cbn in Hg1, Hg2. injection Hg1 as <-. injection Hg2 as <-.
           rewrite <- (Nat.succ_pred_pos m) in Hu by lia.
           rewrite <- seqZ_snoc, last_snoc in Hu. injection Hu as <-.
           rewrite seqZ_cons in Hv by lia. cbn in Hv. injection Hv as <-. lia.
        -- by apply (Hadj k g1 g2).
Qed.

Lemma seqZ_middle (b : Z) (k : nat) :
  (0 < k)%nat ->
  seqZ b (Z.of_nat k) !! Z.to_nat (Z.of_nat k / 2) = Some (b + Z.of_nat k / 2).
Proof.
  intros Hk. apply lookup_seqZ.
  assert (0 <= Z.of_nat k / 2 < Z.of_nat k).
  { split; [apply Z.div_pos; lia|apply Z.div_lt_upper_bound; lia]. }
  split; lia.
Qed.

(** The answer of [findMiddleOfConsecutiveNumbers] in terms of the runs. *)
Lemma findMiddleOfConsecutiveNumbers_spec (numbers : list Z) :
  exists runs : list (list Z),
    concat runs = numbers
    /\ Forall (fun g => exists b (k : nat), (0 < k)%nat /\ g = seqZ b (Z.of_nat k))
              runs
    /\ (forall k g1 g2 x y,
           runs !! k = Some g1 -> runs !! S k = Some g2 ->
           last g1 = Some x -> head g2 = Some y -> y <> x + 1)
    /\ findMiddleOfConsecutiveNumbers numbers
       = map (fun g => (default 0 (head g) + Z.of_nat (length g) / 2,
                        Z.of_nat (length g))) runs.
Proof.
  destruct numbers as [|x numbers].
  - exists []. split; [done|]. split; [constructor|]. split; [|done].
    intros k g1 g2 u v Hg1. by destruct k.
  - unfold findMiddleOfConsecutiveNumbers.
    destruct (group_runs_spec numbers 1 x 1%nat) as (n & rest & Hrun & Hn & Hcat & Hall & Hadj);
      [lia|].
    replace (1 - Z.of_nat 1 - x) with (0 - x) in Hrun by lia.
    change (reverse (seqZ x (Z.of_nat 1))) with [x] in Hrun.
    rewrite Hrun. exists (seqZ x (Z.of_nat n) :: rest).
    split; [by rewrite Hcat|].
    assert (Hruns : Forall (fun g => exists b (k : nat),
                                (0 < k)%nat /\ g = seqZ b (Z.of_nat k))
                           (seqZ x (Z.of_nat n) :: rest)).
    { constructor; [|done]. exists x, n. split; [lia|done]. }
    split; [exact Hruns|]. split; [exact Hadj|].
    apply map_ext_in. intros g Hg.
    rewrite Forall_forall in Hruns.
    destruct (Hruns g) as (b & k & Hk & ->); [by apply list_elem_of_In|].
    rewrite length_seqZ, Nat2Z.id, seqZ_middle by done.
    rewrite seqZ_cons by lia. done.
Qed.

(** X18. [findMiddleOfConsecutiveNumbers] cuts the list, in its order, into
    runs of consecutive integers, each as long as possible: a run ends where
    the next number is not the successor. For each run it returns the number
    in the middle, the start plus half the length rounded down, and the
    length. *)
Theorem findMiddleOfConsecutiveNumbers_runs (numbers : list Z) :
  exists runs : list (list Z),
    concat runs = numbers
    /\ Forall (fun g => exists b (k : nat), (0 < k)%nat /\ g = seqZ b (Z.of_nat k))
              runs
    /\ (forall k g1 g2 x y,
           runs !! k = Some g1 -> runs !! S k = Some g2 ->
           last g1 = Some x -> head g2 = Some y -> y <> x + 1)
    /\ findMiddleOfConsecutiveNumbers numbers
       = map (fun g => (default 0 (head g) + Z.of_nat (length g) / 2,
                        Z.of_nat (length g))) runs.
Proof. apply findMiddleOfConsecutiveNumbers_spec. Qed.

(** Every middle is one of the numbers, and every length is positive. *)
Lemma findMiddleOfConsecutiveNumbers_members (numbers : list Z) :
  Forall (fun g => fst g ∈ numbers /\ 1 <= snd g)
         (findMiddleOfConsecutiveNumbers numbers).
Proof.
  destruct (findMiddleOfConsecutiveNumbers_spec numbers)
    as (runs & <- & Hruns & _ & ->).
  apply Forall_forall. intros r Hr.
  apply list_elem_of_In, in_map_iff in Hr as (g & <- & Hg).
  apply list_elem_of_In in Hg.
  rewrite Forall_forall in Hruns. destruct (Hruns g Hg) as (b & k & Hk & ->).
  cbn [fst snd]. rewrite length_seqZ, Nat2Z.id. split; [|lia].
  apply list_elem_of_In, in_concat. exists (seqZ b (Z.of_nat k)).
  split; [by apply list_elem_of_In|]. apply list_elem_of_In.
  rewrite seqZ_cons by lia. cbn [head default].
  apply list_elem_of_lookup. exists (Z.to_nat (Z.of_nat k / 2)).
  rewrite <- (seqZ_cons b) by lia. by apply seqZ_middle.
Qed.

End GroupProperties.

(** ** Sorting of coordinates and trajectories *)

Section SortingProperties.
Context {F : Type} {FO : Float64Ops F}.

Local Abbreviation point := (point3 (F := F)).
Local Abbreviation track := (trajectory (F := F)).

Lemma insert_by_key_perm (key : Z * Z -> F) (item : Z * Z) :
  forall sorted, insert_by_key key item sorted ≡ₚ item :: sorted.
Proof.
  induction sorted as [|other sorted IH]; simpl; [done|].
  destruct (f_ltb (key other) (key item)); [|done].
  rewrite IH. apply Permutation_swap.
Qed.

Lemma sortCoordinatesByDistanceToPoint_perm (coordinates : list (Z * Z))
    (x y : Z) :
  sortCoordinatesByDistanceToPoint coordinates x y ≡ₚ coordinates.
Proof.
  unfold sortCoordinatesByDistanceToPoint.
  induction coordinates as [|item coordinates IH]; simpl; [done|].
  rewrite insert_by_key_perm. by rewrite IH.
Qed.

Lemma insert_by_key_sorted (L : OrderLaws) (key : Z * Z -> F) (item : Z * Z) :
  forall sorted,
    f_is_nan_or_inf (key item) = false ->
    Forall (fun c => f_is_nan_or_inf (key c) = false) sorted ->
    StronglySorted (fun a b => f_ltb (key b) (key a) = false) sorted ->
    StronglySorted (fun a b => f_ltb (key b) (key a) = false)
                   (insert_by_key key item sorted).
Proof.
  induction sorted as [|other sorted IH]; intros Hitem Hfin Hsorted; simpl.
  - repeat constructor.
  - inversion Hfin as [|? ? Hother Hfin']; subst.
    inversion Hsorted as [|? ? Hsorted' Hhead]; subst.
    destruct (f_ltb (key other) (key item)) eqn:Hlt.
    + constructor; [by apply IH|].
      rewrite insert_by_key_perm. constructor; [|done].
      by apply (lt_asym L).
    + constructor; [done|]. constructor; [done|].
      rewrite Forall_forall in Hhead, Hfin'.
      apply Forall_forall. intros c Hc.
      apply (ge_trans L _ (key other)); [by apply Hfin'|done|done|by apply Hhead|done].
Qed.

(** The coordinates by ascending distance. *)
Lemma sortCoordinatesByDistanceToPoint_order (L : OrderLaws)
    (coordinates : list (Z * Z)) (x y : Z) :
  let distance item := f_hypot (f_of_Z (fst item - x)) (f_of_Z (snd item - y)) in
  Forall (fun item => f_is_nan_or_inf (distance item) = false) coordinates ->
  StronglySorted (fun a b => f_ltb (distance b) (distance a) = false)
                 (sortCoordinatesByDistanceToPoint coordinates x y).
Proof.
  intros distance Hfin.
  unfold sortCoordinatesByDistanceToPoint. fold distance.
  induction coordinates as [|item coordinates IH]; simpl; [constructor|].
  inversion Hfin as [|? ? Hitem Hfin']; subst.
  apply insert_by_key_sorted; [done|done| |by apply IH].
  pose proof (sortCoordinatesByDistanceToPoint_perm coordinates x y) as Hperm.
  unfold sortCoordinatesByDistanceToPoint in Hperm. fold distance in Hperm.
  by rewrite Hperm.
Qed.

(** X19. [sortCoordinatesByDistanceToPoint] returns the coordinates it was
    given, each as often as before. Given that [<] orders the floats that are
    neither NaN nor infinite, and that no distance to the point is NaN or
    infinite, it returns them by ascending distance: no coordinate is closer
    to the point than one before it. *)
Theorem sortCoordinatesByDistanceToPoint_sorted (coordinates : list (Z * Z))
    (x y : Z) :
  let distance item := f_hypot (f_of_Z (fst item - x)) (f_of_Z (snd item - y)) in
  OrderLaws ->
  Forall (fun item => f_is_nan_or_inf (distance item) = false) coordinates ->
  sortCoordinatesByDistanceToPoint coordinates x y ≡ₚ coordinates
  /\ StronglySorted (fun a b => f_ltb (distance b) (distance a) = false)
                    (sortCoordinatesByDistanceToPoint coordinates x y).
Proof.
  intros distance L Hfin. split; [apply sortCoordinatesByDistanceToPoint_perm|].
  by apply sortCoordinatesByDistanceToPoint_order.
Qed.

(** The first of the sorted coordinates is a nearest one. *)
Lemma sortCoordinatesByDistanceToPoint_head (L : OrderLaws)
    (coordinates : list (Z * Z)) (x y : Z) (first : Z * Z) :
  let distance item := f_hypot (f_of_Z (fst item - x)) (f_of_Z (snd item - y)) in
  Forall (fun item => f_is_nan_or_inf (distance item) = false) coordinates ->
  head (sortCoordinatesByDistanceToPoint coordinates x y) = Some first ->
  first ∈ coordinates
  /\ forall item, item ∈ coordinates ->
                  f_ltb (distance item) (distance first) = false.
Proof.
  intros distance Hfin Hhead.
  pose proof (sortCoordinatesByDistanceToPoint_perm coordinates x y) as Hperm.
  pose proof (sortCoordinatesByDistanceToPoint_order L coordinates x y Hfin)
    as Hsorted. fold distance in Hsorted.
  destruct (sortCoordinatesByDistanceToPoint coordinates x y)
    as [|c sorted] eqn:Hsort; [done|].
  cbn in Hhead. injection Hhead as ->.
  split; [rewrite <- Hperm; left|].
  intros item Hitem. rewrite <- Hperm in Hitem.
  inversion Hsorted as [|? ? _ Hall]; subst.
  apply elem_of_cons in Hitem as [->|Hitem].
  - destruct (f_ltb (distance first) (distance first)) eqn:Hlt; [|done].
    by rewrite (lt_asym L _ _ Hlt) in Hlt.
  - rewrite Forall_forall in Hall. by apply Hall.
Qed.

(** X20. [sortCoordinates] raises an [IndexError] on an empty box. On any
    other box, given that [<] orders the floats that are neither NaN nor
    infinite and that no distance between a point of the box and a corner of
    the frame is NaN or infinite, it returns four points of the box: one for
    each of the corners [(0, 0)], [(width, 0)], [(0, height)] and
    [(width, height)], in this order, and no point of the box is closer to
    the corner than the point returned for it. *)
Theorem sortCoordinates_nearest (box : list (Z * Z)) (width height : Z) :
  let distance (cx cy : Z) (item : Z * Z) :=
    f_hypot (f_of_Z (fst item - cx)) (f_of_Z (snd item - cy)) in
  let nearest (cx cy : Z) (p : Z * Z) :=
    p ∈ box /\ forall item, item ∈ box ->
                            f_ltb (distance cx cy item) (distance cx cy p) = false in
  OrderLaws ->
  (forall cx cy item, item ∈ box ->
                      f_is_nan_or_inf (distance cx cy item) = false) ->
  match sortCoordinates box width height with
  | Ok sorted =>
      exists topleft topright bottomleft bottomright,
        sorted = [topleft; topright; bottomleft; bottomright]
        /\ nearest 0 0 topleft /\ nearest width 0 topright
        /\ nearest 0 height bottomleft /\ nearest width height bottomright
  | Raise e => e = IndexError /\ box = []
  | Diverge => False
  end.
Proof.
  intros distance nearest L Hfin. unfold sortCoordinates.
  assert (Hcorner : forall cx cy,
             match head (sortCoordinatesByDistanceToPoint box cx cy) with
             | Some p => nearest cx cy p
             | None => box = []
             end).
  { intros cx cy.
    destruct (head (sortCoordinatesByDistanceToPoint box cx cy)) as [p|] eqn:Hhead.
    - apply (sortCoordinatesByDistanceToPoint_head L box cx cy p); [|done].
      apply Forall_forall. intros item Hitem. by apply Hfin.
    - apply head_None in Hhead.
      pose proof (sortCoordinatesByDistanceToPoint_perm box cx cy) as Hperm.
      rewrite Hhead in Hperm. by apply Permutation_nil_l in Hperm. }
  pose proof (Hcorner 0 0) as H1. pose proof (Hcorner width 0) as H2.
  pose proof (Hcorner 0 height) as H3. pose proof (Hcorner width height) as H4.
  destruct (head (sortCoordinatesByDistanceToPoint box 0 0)) as [p1|]; [|done].
  destruct (head (sortCoordinatesByDistanceToPoint box width 0)) as [p2|]; [|done].
  destruct (head (sortCoordinatesByDistanceToPoint box 0 height)) as [p3|]; [|done].
  destruct (head (sortCoordinatesByDistanceToPoint box width height)) as [p4|];
    [|done].
  cbn. by exists p1, p2, p3, p4.
Qed.

Lemma insert_keyed_perm {K A : Type} (ltb : K -> K -> bool) (entry : K * A) :
  forall sorted, insert_keyed ltb entry sorted ≡ₚ entry :: sorted.
Proof.
  induction sorted as [|other sorted IH]; simpl; [done|].
  destruct (ltb (fst other) (fst entry)); [|done].
  rewrite IH. apply Permutation_swap.
Qed.

Lemma sort_entries_perm {K A : Type} (ltb : K -> K -> bool)
    (entries : list (K * A)) :
  foldr (insert_keyed ltb) [] entries ≡ₚ entries.
Proof.
  induction entries as [|entry entries IH]; simpl; [done|].
  rewrite insert_keyed_perm. by rewrite IH.
Qed.

(** Sorting with an order that is asymmetric and whose complement is
    transitive on the keys that occur. *)
Lemma insert_keyed_sorted {K A : Type} (ltb : K -> K -> bool) (ok : K -> Prop)
    (entry : K * A) :
  (forall a b, ltb a b = true -> ltb b a = false) ->
  (forall a b c, ok a -> ok b -> ok c ->
                 ltb a b = false -> ltb b c = false -> ltb a c = false) ->
  ok (fst entry) ->
  forall sorted,
    Forall (fun e => ok (fst e)) sorted ->
    StronglySorted (fun a b => ltb (fst b) (fst a) = false) sorted ->
    StronglySorted (fun a b => ltb (fst b) (fst a) = false)
                   (insert_keyed ltb entry sorted).
Proof.
  intros Hasym Htrans Hentry.
  induction sorted as [|other sorted IH]; intros Hok Hsorted; simpl.
  - repeat constructor.
  - inversion Hok as [|? ? Hother Hok']; subst.
    inversion Hsorted as [|? ? Hsorted' Hhead]; subst.
    destruct (ltb (fst other) (fst entry)) eqn:Hlt.
    + constructor; [by apply IH|].
      rewrite insert_keyed_perm. constructor; [|done]. by apply Hasym.
    + constructor; [done|]. constructor; [done|].
      rewrite Forall_forall in Hhead, Hok'.
      apply Forall_forall. intros c Hc.
      apply (Htrans _ (fst other)); [by apply Hok'|done|done|by apply Hhead|done].
Qed.

Lemma sort_entries_sorted {K A : Type} (ltb : K -> K -> bool) (ok : K -> Prop)
    (entries : list (K * A)) :
  (forall a b, ltb a b = true -> ltb b a = false) ->
  (forall a b c, ok a -> ok b -> ok c ->
                 ltb a b = false -> ltb b c = false -> ltb a c = false) ->
  Forall (fun entry => ok (fst entry)) entries ->
  StronglySorted (fun a b => ltb (fst b) (fst a) = false)
                 (foldr (insert_keyed ltb) [] entries).
Proof.
  intros Hasym Htrans.
  induction entries as [|entry entries IH]; intros Hok; simpl; [constructor|].
  inversion Hok as [|? ? Hentry Hok']; subst.
  apply (insert_keyed_sorted ltb ok); [done|done|done| |by apply IH].
  by rewrite sort_entries_perm.
Qed.

Lemma sort_keyed_perm {K A : Type} (ltb : K -> K -> bool)
    (keys : list K) (items : list A) :
  length keys = length items ->
  sort_keyed ltb (zip keys items) ≡ₚ items.
Proof.
  intros Hlen. unfold sort_keyed. rewrite sort_entries_perm.
  by rewrite snd_zip by lia.
Qed.

(** The items of a keyed list that was sorted, in terms of a relation that
    holds between each item and its key. *)
Lemma sort_keyed_sorted {K A : Type} (ltb : K -> K -> bool) (ok : K -> Prop)
    (keyof : A -> K -> Prop) (keys : list K) (items : list A) :
  (forall a b, ltb a b = true -> ltb b a = false) ->
  (forall a b c, ok a -> ok b -> ok c ->
                 ltb a b = false -> ltb b c = false -> ltb a c = false) ->
  (forall item k k', keyof item k -> keyof item k' -> k = k') ->
  Forall2 keyof items keys ->
  Forall ok keys ->
  StronglySorted (fun a b => forall ka kb, keyof a ka -> keyof b kb ->
                                           ltb kb ka = false)
                 (sort_keyed ltb (zip keys items)).
Proof.
  intros Hasym Htrans Hfun Hkeys Hok.
  assert (Hentries : Forall (fun entry => keyof (snd entry) (fst entry)
                                          /\ ok (fst entry))
                            (zip keys items)).
  { clear Hasym Htrans Hfun. revert Hok.
    induction Hkeys as [|item k items keys Hk Hrest IH]; intros Hok;
      [constructor|].
    inversion Hok; subst. constructor; [done|by apply IH]. }
  pose proof (sort_entries_sorted ltb ok (zip keys items) Hasym Htrans) as Hsorted.
  assert (Hsorted' : StronglySorted (fun a b => ltb (fst b) (fst a) = false)
                       (foldr (insert_keyed ltb) [] (zip keys items))).
  { apply Hsorted. eapply Forall_impl; [exact Hentries|]. by intros e [_ ?]. }
  rewrite <- (sort_entries_perm ltb (zip keys items)) in Hentries.
  unfold sort_keyed. clear Hsorted.
  induction Hsorted' as [|entry sorted Hs IH Hhead]; [constructor|].
  inversion Hentries as [|? ? [Hentry _] Hentries']; subst.
  cbn [map]. constructor; [by apply IH|].
  apply Forall_forall. intros b Hb.
  apply list_elem_of_In, in_map_iff in Hb as (e & <- & He).
  apply list_elem_of_In in He.
  rewrite Forall_forall in Hhead, Hentries'.
  intros ka kb Hka Hkb.
  rewrite (Hfun _ _ _ Hka Hentry).
  rewrite (Hfun _ _ _ Hkb (proj1 (Hentries' e He))).
  by apply Hhead.
Qed.

Lemma StronglySorted_weaken {A : Type} (R R' : A -> A -> Prop) (l : list A) :
  (forall a b, R a b -> R' a b) -> StronglySorted R l -> StronglySorted R' l.
Proof.
  intros Himpl. induction 1 as [|a l Hl IH Hhead]; constructor; [done|].
  eapply Forall_impl; [exact Hhead|]. intros b. apply Himpl.
Qed.

Lemma mapM_outcome {A B : Type} (f : A -> result B) (e0 : exn) (l : list A) :
  Forall (fun a => (exists b, f a = Ok b) \/ f a = Raise e0) l ->
  match mapM f l with
  | Ok bs => Forall2 (fun a b => f a = Ok b) l bs
  | Raise e => e = e0 /\ Exists (fun a => f a = Raise e0) l
  | Diverge => False
  end.
Proof.
  induction l as [|a l IH]; intros Hall; simpl; [constructor|].
  inversion Hall as [|? ? Ha Hrest]; subst. specialize (IH Hrest).
  destruct Ha as [[b Hb]|Hraise].
  - rewrite Hb. cbn [rbind]. destruct (mapM f l) as [bs|e|]; cbn [rbind].
    + by constructor.
    + destruct IH as [-> Hex]. split; [done|by right].
    + done.
  - rewrite Hraise. cbn [rbind]. split; [done|by left].
Qed.

Lemma endpoint_y_outcome (item : track) :
  (exists k, endpoint_y item = Ok k) \/ endpoint_y item = Raise IndexError.
Proof.
  unfold endpoint_y. destruct (last item); cbn; [left; by eexists|by right].
Qed.

Lemma endpoint_y_raises (item : track) :
  endpoint_y item = Raise IndexError <-> item = [].
Proof.
  unfold endpoint_y. split.
  - destruct (last item) eqn:Hlast; cbn; [done|]. intros _.
    by apply last_None in Hlast.
  - by intros ->.
Qed.

(** X21. [sortTrajectoriesByEndpoint] raises an [IndexError] exactly when
    one of the trajectories is empty. Otherwise it returns the trajectories
    it was given, each as often as before, by ascending y coordinate of the
    last point. *)
Theorem sortTrajectoriesByEndpoint_sorted (trajectories : list track) :
  match sortTrajectoriesByEndpoint trajectories with
  | Ok sorted =>
      Forall (fun t => t <> []) trajectories
      /\ sorted ≡ₚ trajectories
      /\ StronglySorted (fun a b => forall p q, last a = Some p ->
                                                last b = Some q ->
                                                py p <= py q) sorted
  | Raise e => e = IndexError /\ Exists (fun t => t = []) trajectories
  | Diverge => False
  end.
Proof.
  unfold sortTrajectoriesByEndpoint.
  pose proof (mapM_outcome endpoint_y IndexError trajectories) as Hkeys.
  destruct (mapM endpoint_y trajectories) as [keys|e|]; cbn [rbind].
  - assert (Hall : Forall2 (fun a b => endpoint_y a = Ok b) trajectories keys).
    { apply Hkeys. apply Forall_forall. intros t _. apply endpoint_y_outcome. }
    split; [|split].
    + apply Forall_forall. intros t Ht ->.
      apply list_elem_of_lookup in Ht as [i Hi].
      destruct (Forall2_lookup_l _ _ _ _ _ Hall Hi) as (k & _ & Hk). done.
    + apply sort_keyed_perm. symmetry. by eapply Forall2_length.
    + pose proof (sort_keyed_sorted Z.ltb (fun _ => True)
                    (fun (t : track) k => endpoint_y t = Ok k)
                    keys trajectories) as Hsorted.
      eapply StronglySorted_weaken; [|apply Hsorted].
      * intros a b Hab p q Hp Hq. cbn beta in Hab.
        specialize (Hab (py p) (py q)).
        unfold endpoint_y in Hab. rewrite Hp, Hq in Hab. cbn in Hab.
        specialize (Hab eq_refl eq_refl). lia.
      * intros a b Hab. lia.
      * intros a b c _ _ _ Hab Hbc. lia.
      * intros item k k' Hk Hk'. congruence.
      * exact Hall.
      * by apply Forall_forall.
  - destruct Hkeys as [-> Hex].
    { apply Forall_forall. intros t _. apply endpoint_y_outcome. }
    split; [done|]. eapply Exists_impl; [exact Hex|].
    intros t Ht. by apply endpoint_y_raises.
  - apply Hkeys. apply Forall_forall. intros t _. apply endpoint_y_outcome.
Qed.

Lemma calculateWeightedYOfTrajectory_outcome (t : track) :
  match calculateWeightedYOfTrajectory t with
  | Ok _ => t <> []
  | Raise e => e = IndexError /\ t = []
  | Diverge => False
  end.
Proof.
  unfold calculateWeightedYOfTrajectory.
  destruct (last t) as [refpoint|] eqn:Hlast; cbn [of_option rbind].
  - assert (Hne : t <> []) by (by intros ->).
    set (points := sortCoordinatesByDistanceToPoint _ _ _).
    destruct (last points) as [furthest|] eqn:Hfar; cbn [of_option rbind].
    + destruct (f_eqb _ f_zero); [done|]. by destruct (_ =? 0)%nat.
    + apply last_None in Hfar.
      pose proof (sortCoordinatesByDistanceToPoint_perm
                    (map xy t) (px refpoint) (py refpoint)) as Hperm.
      fold points in Hperm. rewrite Hfar in Hperm.
      apply Permutation_nil_l in Hperm. by destruct t.
  - by apply last_None in Hlast.
Qed.

(** X22. [sortTrajectoriesByWeightedCoordinates] raises an [IndexError]
    exactly when one of the trajectories is empty. Otherwise, given that [<]
    orders the floats that are neither NaN nor infinite and that no weighted
    y coordinate is NaN or infinite, it returns the trajectories it was
    given, each as often as before, by ascending weighted y coordinate. *)
Theorem sortTrajectoriesByWeightedCoordinates_sorted (trajectories : list track) :
  OrderLaws ->
  Forall (fun t => forall k, calculateWeightedYOfTrajectory t = Ok k ->
                             f_is_nan_or_inf k = false) trajectories ->
  match sortTrajectoriesByWeightedCoordinates trajectories with
  | Ok sorted =>
      Forall (fun t => t <> []) trajectories
      /\ sorted ≡ₚ trajectories
      /\ StronglySorted
           (fun a b => forall ka kb,
                calculateWeightedYOfTrajectory a = Ok ka ->
                calculateWeightedYOfTrajectory b = Ok kb ->
                f_ltb kb ka = false) sorted
  | Raise e => e = IndexError /\ Exists (fun t => t = []) trajectories
  | Diverge => False
  end.
Proof.
  intros L Hfin. unfold sortTrajectoriesByWeightedCoordinates.
  assert (Hout : Forall (fun t => (exists k, calculateWeightedYOfTrajectory t = Ok k)
                                  \/ calculateWeightedYOfTrajectory t
                                     = Raise IndexError) trajectories).
  { apply Forall_forall. intros t _.
    pose proof (calculateWeightedYOfTrajectory_outcome t) as Ht.
    destruct (calculateWeightedYOfTrajectory t) as [k|e|];
      [left; by eexists|right; by destruct Ht as [-> _]|done]. }
  pose proof (mapM_outcome calculateWeightedYOfTrajectory IndexError
                trajectories Hout) as Hkeys.
  destruct (mapM calculateWeightedYOfTrajectory trajectories) as [keys|e|];
    cbn [rbind].
  - split; [|split].
    + apply Forall_forall. intros t Ht ->.
      apply list_elem_of_lookup in Ht as [i Hi].
      destruct (Forall2_lookup_l _ _ _ _ _ Hkeys Hi) as (k & _ & Hk). done.
    + apply sort_keyed_perm. symmetry. by eapply Forall2_length.
    + apply (sort_keyed_sorted f_ltb (fun k => f_is_nan_or_inf k = false)
               (fun (t : track) k => calculateWeightedYOfTrajectory t = Ok k)).
      * apply (lt_asym L).
      * apply (ge_trans L).
      * intros item k k' Hk Hk'. congruence.
      * exact Hkeys.
      * apply Forall_forall. intros k Hk.
        apply list_elem_of_lookup in Hk as [i Hi].
        destruct (Forall2_lookup_r _ _ _ _ _ Hkeys Hi) as (t & Ht & Hkt).
        rewrite Forall_forall in Hfin.
        apply (Hfin t); [by apply list_elem_of_lookup_2 in Ht|done].
  - destruct Hkeys as [-> Hex]. split; [done|].
    eapply Exists_impl; [exact Hex|]. intros t Ht.
    pose proof (calculateWeightedYOfTrajectory_outcome t) as Hout'.
    rewrite Ht in Hout'. by destruct Hout'.
  - done.
Qed.

(** X23. The weighted y coordinate of a trajectory whose points all lie on
    the pixel of its last point, and so of every trajectory of one point, is
    the literal [0.0] whatever that pixel is, given that the distance of a
    point to itself compares equal to [0.0]; an empty trajectory raises an
    [IndexError]. *)
Theorem calculateWeightedYOfTrajectory_stationary (t : track) (refpoint : point) :
  f_eqb (f_hypot (f_of_Z 0) (f_of_Z 0)) f_zero = true ->
  last t = Some refpoint ->
  Forall (fun p => xy p = xy refpoint) t ->
  calculateWeightedYOfTrajectory t = Ok f_zero
  /\ calculateWeightedYOfTrajectory [] = Raise IndexError.
Proof.
  intros Hzero Hlast Hsame. split; [|done].
  unfold calculateWeightedYOfTrajectory. rewrite Hlast. cbn [of_option rbind].
  set (points := sortCoordinatesByDistanceToPoint _ _ _).
  assert (Hpoints : Forall (fun c => c = xy refpoint) points).
  { unfold points. rewrite sortCoordinatesByDistanceToPoint_perm.
    apply Forall_forall. intros c Hc.
    apply list_elem_of_In, in_map_iff in Hc as (p & <- & Hp).
    rewrite Forall_forall in Hsame. by apply Hsame, list_elem_of_In. }
  destruct (last points) as [furthest|] eqn:Hfar; cbn [of_option rbind].
  - assert (furthest = xy refpoint) as ->.
    { rewrite Forall_forall in Hpoints. apply Hpoints.
      apply last_Some in Hfar as [l ->]. apply elem_of_app. right. left. }
    unfold xy. cbn [fst snd]. rewrite !Z.sub_diag. by rewrite Hzero.
  - apply last_None in Hfar.
    pose proof (sortCoordinatesByDistanceToPoint_perm
                  (map xy t) (px refpoint) (py refpoint)) as Hperm.
    fold points in Hperm. rewrite Hfar in Hperm.
    apply Permutation_nil_l in Hperm. destruct t; [done|done].
Qed.

End SortingProperties.

(** ** End points by light casting *)

Section EndpointProperties.
Context {F : Type} {FO : Float64Ops F} {EX : Extern F}.

Local Abbreviation point := (point3 (F := F)).

(** The light on one row: the entry of the row is left alone when the row is
    dark, and is set from the last pixel of the row that is not zero. *)
Lemma cast_light_row (width reach : Z) (r : nat) :
  forall (row : list Z) (c0 : Z) (lines : list Z),
    let lines' :=
      fold_left (cast_light width reach)
                (where_row (fun v => negb (v =? 0)) (Z.of_nat r) c0 row) lines in
    (Forall (fun v => v = 0) row /\ lines' = lines)
    \/ (exists c v,
           c0 <= c /\ row !! Z.to_nat (c - c0) = Some v /\ v <> 0
           /\ (forall c' v', c < c' -> row !! Z.to_nat (c' - c0) = Some v' ->
                             v' = 0)
           /\ lines' = <[r := if width - reach <=? c then width - c else width]>
                         lines).
Proof.
  induction row as [|v row IH]; intros c0 lines; cbv zeta.
  - left. by split.
  - cbn [where_row]. rewrite fold_left_app.
    assert (Hshift : forall c, c0 + 1 <= c ->
               Z.to_nat (c - c0) = S (Z.to_nat (c - (c0 + 1)))) by (intros; lia).
    destruct (v =? 0) eqn:Hv; cbn [negb fold_left].
    + apply Z.eqb_eq in Hv. subst v.
      destruct (IH (c0 + 1) lines) as [[Hzero ->]|(c & u & Hc & Hu & Hne & Hlast & ->)].
      * left. split; [by constructor|done].
      * right. exists c, u. split; [lia|]. rewrite (Hshift c Hc).
        split; [done|]. split; [done|]. split; [|done].
        intros c' v' Hc' Hv'. rewrite (Hshift c') in Hv' by lia.
        by apply (Hlast c' v'); [lia|].
    + apply Z.eqb_neq in Hv.
      assert (Hstep : cast_light width reach lines (Z.of_nat r, c0)
                      = <[r := if width - reach <=? c0 then width - c0
                               else width]> lines).
      { unfold cast_light. cbn [fst snd]. by rewrite Nat2Z.id. }
      rewrite Hstep.
      destruct (IH (c0 + 1) (<[r := if width - reach <=? c0 then width - c0
                                    else width]> lines))
        as [[Hzero ->]|(c & u & Hc & Hu & Hne & Hlast & ->)].
      * right. exists c0, v. split; [lia|].
        replace (c0 - c0) with 0 by lia. split; [done|]. split; [done|].
        split; [|done]. intros c' v' Hc' Hv'.
        rewrite (Hshift c') in Hv' by lia. cbn in Hv'.
        rewrite Forall_forall in Hzero. apply Hzero.
        by apply list_elem_of_lookup_2 in Hv'.
      * right. exists c, u. split; [lia|]. rewrite (Hshift c Hc).
        split; [done|]. split; [done|]. split.
        -- intros c' v' Hc' Hv'. rewrite (Hshift c') in Hv' by lia.
           by apply (Hlast c' v'); [lia|].
        -- by rewrite list_insert_insert_eq.
Qed.

(** The light on the rows from [r0] on. *)
Lemma cast_light_rows (width reach : Z) :
  forall (rows : array2) (r0 : nat) (lines : list Z),
    (r0 + length rows <= length lines)%nat ->
    let lines' :=
      fold_left (cast_light width reach)
                (where_rows (fun v => negb (v =? 0)) (Z.of_nat r0) rows) lines in
    length lines' = length lines
    /\ (forall j, (j < r0)%nat -> lines' !! j = lines !! j)
    /\ forall k row,
         rows !! k = Some row ->
         (Forall (fun v => v = 0) row
          /\ lines' !! (r0 + k)%nat = lines !! (r0 + k)%nat)
         \/ (exists c v,
                0 <= c /\ row !! Z.to_nat c = Some v /\ v <> 0
                /\ (forall c' v', c < c' -> row !! Z.to_nat c' = Some v' -> v' = 0)
                /\ lines' !! (r0 + k)%nat
                   = Some (if width - reach <=? c then width - c else width)).
Proof.
  induction rows as [|row rows IH]; intros r0 lines Hlen; cbv zeta.
  - cbn. split; [done|]. split; [done|]. intros k row Hk. by destruct k.
  - cbn [where_rows]. rewrite fold_left_app.
    set (lines1 := fold_left (cast_light width reach)
                     (where_row _ (Z.of_nat r0) 0 row) lines).
    replace (Z.of_nat r0 + 1) with (Z.of_nat (S r0)) by lia.
    cbn [length] in Hlen.
    assert (Hrow : (Forall (fun v => v = 0) row /\ lines1 = lines)
                   \/ (exists c v,
                          0 <= c /\ row !! Z.to_nat c = Some v /\ v <> 0
                          /\ (forall c' v', c < c' ->
                                row !! Z.to_nat c' = Some v' -> v' = 0)
                          /\ lines1 = <[r0 := if width - reach <=? c
                                              then width - c else width]> lines)).
    { destruct (cast_light_row width reach r0 row 0 lines)
        as [H|(c & v & Hc & Hv & Hne & Hlast & Heq)]; [by left|].
      right. exists c, v. rewrite Z.sub_0_r in Hv. split; [done|].
      split; [done|]. split; [done|]. split; [|done].
      intros c' v' Hc' Hv'. apply (Hlast c' v' Hc'). by rewrite Z.sub_0_r. }
    assert (Hlen1 : length lines1 = length lines).
    { destruct Hrow as [[_ ->]|(c & v & _ & _ & _ & _ & ->)];
        [done|by rewrite length_insert]. }
    destruct (IH (S r0) lines1) as (Hlen' & Hbefore & Hrows); [lia|].
    split; [lia|]. split.
    + intros j Hj. rewrite Hbefore by lia.
      destruct Hrow as [[_ ->]|(c & v & _ & _ & _ & _ & ->)]; [done|].
      apply list_lookup_insert_ne. lia.
    + intros k row' Hk. destruct k as [|k].
      * cbn in Hk. injection Hk as <-. rewrite Nat.add_0_r.
        rewrite Hbefore by lia.
        destruct Hrow as [[Hzero ->]|(c & v & Hc & Hv & Hne & Hlast & ->)].
        -- left. by split.
        -- right. exists c, v. split; [done|]. split; [done|]. split; [done|].
           split; [done|]. apply list_lookup_insert_eq. lia.
      * cbn in Hk. replace (r0 + S k)%nat with (S r0 + k)%nat by lia.
        destruct (Hrows k row' Hk) as [[Hzero Hsame]|Hset].
        -- left. split; [done|]. rewrite Hsame.
           destruct Hrow as [[_ ->]|(c & v & _ & _ & _ & _ & ->)]; [done|].
           apply list_lookup_insert_ne. lia.
        -- by right.
Qed.

Lemma filterM_ok {A : Type} (p : A -> result bool) (l : list A) :
  (forall a, a ∈ l -> exists b, p a = Ok b) ->
  exists kept, filterM p l = Ok kept
               /\ forall a, a ∈ kept -> a ∈ l /\ p a = Ok true.
Proof.
  induction l as [|a l IH]; intros Hp.
  - exists []. split; [done|]. intros a Ha. by apply elem_of_nil in Ha.
  - destruct (Hp a) as [b Hb]; [left|].
    destruct IH as (kept & Hkept & Hmem); [intros a' Ha'; apply Hp; by right|].
    cbn [filterM]. rewrite Hb, Hkept. cbn [rbind].
    eexists. split; [done|]. intros a' Ha'. destruct b.
    + apply elem_of_cons in Ha' as [->|Ha']; [split; [left|done]|].
      destruct (Hmem a' Ha'). split; [by right|done].
    + destruct (Hmem a' Ha'). split; [by right|done].
Qed.

Lemma mapM_ok {A B : Type} (f : A -> result B) (P : B -> Prop) (l : list A) :
  (forall a, a ∈ l -> exists b, f a = Ok b /\ P b) ->
  exists bs, mapM f l = Ok bs /\ Forall P bs.
Proof.
  induction l as [|a l IH]; intros Hf.
  - by exists [].
  - destruct (Hf a) as (b & Hb & HP); [left|].
    destruct IH as (bs & Hbs & Hall); [intros a' Ha'; apply Hf; by right|].
    cbn [mapM]. rewrite Hb, Hbs. cbn [rbind].
    eexists. split; [done|]. by constructor.
Qed.

Lemma get1_in_range {A : Type} (l : list A) (i : Z) :
  0 <= i < Z.of_nat (length l) ->
  exists v, l !! Z.to_nat i = Some v /\ get1 l i = Ok v.
Proof.
  intros Hi. unfold get1. rewrite axis_index_nonneg by done.
  destruct (lookup_lt_is_Some_2 l (Z.to_nat i)) as [v Hv]; [lia|].
  exists v. by rewrite Hv.
Qed.

(** The end points on an image on which the light does not cross the whole
    width. *)
Lemma findEndpointsOfTrajectories_spec (image : array2)
    (threshpenetration ordermin : F) :
  let height := Z.of_nat (nrows image) in
  let width := Z.of_nat (ncols image) in
  let reach := f_trunc (f_mul threshpenetration (f_of_Z width)) in
  rectangular image ->
  (forall data order i, i ∈ argrelextrema_le data order ->
                        0 <= i < Z.of_nat (length data)) ->
  reach < width ->
  exists endpoints,
    findEndpointsOfTrajectories image threshpenetration ordermin = Ok endpoints
    /\ Forall (fun e : point =>
                 0 <= py e < height
                 /\ width - reach <= px e + 1 < width
                 /\ (exists v, get2 image (py e) (px e + 1) = Ok v /\ v <> 0)
                 /\ (forall x', px e + 1 < x' < width ->
                                get2 image (py e) x' = Ok 0)
                 /\ exists w, pw e = PInt w /\ 1 <= w) endpoints.
Proof.
  intros height width reach Hrect Hrange Hreach.
  unfold findEndpointsOfTrajectories. fold height width reach.
  set (lines := fold_left (cast_light width reach) _ _).
  destruct (cast_light_rows width reach image 0 (replicate (nrows image) width))
    as (Hlen & _ & Hrows).
  { rewrite length_replicate. unfold nrows. lia. }
  change (Z.of_nat 0) with 0 in Hlen, Hrows. fold (where2 (fun v => negb (v =? 0)) image) in Hlen, Hrows.
  fold lines in Hlen, Hrows. rewrite length_replicate in Hlen.
  set (order := Z.max _ 1).
  destruct (filterM_ok (fun index => let* v := get1 lines index in Ok (v <=? reach))
              (argrelextrema_le lines order)) as (indices & -> & Hindices).
  { intros i Hi. apply Hrange in Hi.
    destruct (get1_in_range lines i Hi) as (v & _ & ->). by eexists. }
  cbn [rbind]. apply mapM_ok. intros g Hg.
  pose proof (findMiddleOfConsecutiveNumbers_members indices) as Hmembers.
  rewrite Forall_forall in Hmembers. destruct (Hmembers g Hg) as [Hin Hwidth].
  destruct (Hindices _ Hin) as [Hraw Hkeep]. apply Hrange in Hraw.
  destruct (get1_in_range lines (fst g) Hraw) as (v & Hv & Hget).
  rewrite Hget in Hkeep |- *. cbn [rbind] in Hkeep |- *.
  injection Hkeep as Hkeep. apply Z.leb_le in Hkeep.
  eexists. split; [done|]. cbn [px py pw fst snd].
  rewrite Hlen in Hraw.
  destruct (lookup_lt_is_Some_2 image (Z.to_nat (fst g))) as [row Hrow];
    [unfold nrows in Hraw; lia|].
  assert (Hrowlen : length row = ncols image).
  { unfold rectangular in Hrect. rewrite Forall_forall in Hrect.
    apply Hrect. by apply list_elem_of_lookup_2 in Hrow. }
  destruct (Hrows _ _ Hrow) as [[_ Hdark]|(c & u & Hc & Hu & Hne & Hlast & Hline)];
    cbn [Nat.add] in *.
  { rewrite Hdark in Hv. apply lookup_replicate in Hv as [-> _]. lia. }
  rewrite Hline in Hv. injection Hv as <-.
  pose proof (lookup_lt_Some _ _ _ Hu) as Hcw.
  destruct (width - reach <=? c) eqn:Hband; [|lia].
  apply Z.leb_le in Hband.
  replace (width - (width - c) - 1 + 1) with c by lia.
  assert (Hshape : has_shape (nrows image) (ncols image) image) by by split.
  assert (Hcell : forall x', 0 <= x' < width ->
             exists v', row !! Z.to_nat x' = Some v'
                        /\ get2 image (fst g) x' = Ok v').
  { intros x' Hx'.
    destruct (get2_cell _ _ image (fst g) x' Hshape) as (row' & v' & Hrow' & Hv' & Hg');
      [unfold height in *; lia|unfold width in *; lia|].
    exists v'. split; [congruence|done]. }
  split; [unfold height; lia|]. split; [unfold width in *; lia|]. split; [|split].
  - destruct (Hcell c) as (v' & Hv' & Hg'); [unfold width in *; lia|].
    exists v'. split; [done|]. congruence.
  - intros x' Hx'. destruct (Hcell x') as (v' & Hv' & ->); [lia|].
    f_equal. by apply (Hlast x' v'); [lia|].
  - eexists. split; [done|]. lia.
Qed.

(** X24. On a rectangular image on which the light does not cross the whole
    width, with indices of minima that lie inside the data, and with the two
    floats that reach [int], [ordermin * height] and
    [threshpenetration * width], neither NaN nor infinite, the finder
    of end points raises nothing. Every end point [(x, y, w)] lies in a row
    of the image, one pixel to the left of the last pixel of that row that
    is not zero; this pixel lies within the reach of the light, and the
    width [w] is at least [1]. On an image whose pixels are all zero it
    finds no end point. *)
Theorem findEndpointsOfTrajectories_endpoints (image : array2)
    (threshpenetration ordermin : F) :
  let height := Z.of_nat (nrows image) in
  let width := Z.of_nat (ncols image) in
  let reach := f_trunc (f_mul threshpenetration (f_of_Z width)) in
  f_is_nan_or_inf (f_mul ordermin (f_of_Z height)) = false ->
  f_is_nan_or_inf (f_mul threshpenetration (f_of_Z width)) = false ->
  rectangular image ->
  (forall data order i, i ∈ argrelextrema_le data order ->
                        0 <= i < Z.of_nat (length data)) ->
  reach < width ->
  exists endpoints,
    findEndpointsOfTrajectories image threshpenetration ordermin = Ok endpoints
    /\ Forall (fun e : point =>
                 0 <= py e < height
                 /\ width - reach <= px e + 1 < width
                 /\ (exists v, get2 image (py e) (px e + 1) = Ok v /\ v <> 0)
                 /\ (forall x', px e + 1 < x' < width ->
                                get2 image (py e) x' = Ok 0)
                 /\ exists w, pw e = PInt w /\ 1 <= w) endpoints
    /\ (Forall (Forall (fun v => v = 0)) image -> endpoints = []).
Proof.
  intros height width reach _ _ Hrect Hrange Hreach.
  destruct (findEndpointsOfTrajectories_spec image threshpenetration ordermin
              Hrect Hrange Hreach) as (endpoints & Hfind & Hall).
  exists endpoints. split; [done|]. split; [done|].
  intros Hdark. destruct endpoints as [|e endpoints]; [done|]. exfalso.
  inversion Hall as [|? ? (Hy & Hx & (v & Hv & Hne) & _) _]; subst.
  assert (Hshape : has_shape (nrows image) (ncols image) image) by by split.
  destruct (get2_cell _ _ image (py e) (px e + 1) Hshape)
    as (row & v' & Hrow & Hv' & Hget); [done|unfold reach, width in *; lia|].
  assert (v' = v) as -> by congruence.
  rewrite Forall_forall in Hdark.
  pose proof (Hdark row ltac:(by apply list_elem_of_lookup_2 in Hrow)) as Hz.
  rewrite Forall_forall in Hz. apply Hne, Hz.
  by apply list_elem_of_lookup_2 in Hv'.
Qed.

End EndpointProperties.

(** ** Position, width and resolution *)

Section ResolutionProperties.
Context {F : Type} {FO : Float64Ops F} {EX : Extern F}.

Local Abbreviation track := (trajectory (F := F)).

(** What an answer of [getYandWofTrajectory] tells. *)
Lemma getYandWofTrajectory_inversion (t : track) (x : F) (Y W : pynum F) :
  getYandWofTrajectory t x = Ok (Y, W) ->
  (((length t < 4)%nat \/ within (map px t) x = false)
   /\ Y = PInt 0 /\ W = PInt (-1))
  \/ ((4 <= length t)%nat /\ within (map px t) x = true
      /\ exists y,
           interpolating_spline (map xy t) x = Ok y /\ Y = PFloat y
           /\ (W = PInt (-1)
               \/ exists w, W = PFloat w /\ f_is_nan_or_inf w = false)).
Proof.
  unfold getYandWofTrajectory. intros H.
  destruct (length t <? 4)%nat eqn:Hshort.
  { apply Nat.ltb_lt in Hshort. injection H as <- <-. left. by split; [left|]. }
  apply Nat.ltb_ge in Hshort.
  assert (Hxs : map fst (map xy t) = map px t) by (by rewrite map_map).
  rewrite Hxs in H.
  destruct (within (map px t) x) eqn:Hin; cbn [negb] in H;
    [|injection H as <- <-; left; by split; [right|]].
  right. split; [done|]. split; [done|].
  peel H as y Hy. exists y. split; [done|].
  assert (Heven : Z.of_nat (length (getSkinOfTrajectory t)) mod 2 = 0).
  { rewrite getSkinOfTrajectory_length by lia.
    rewrite Nat2Z.inj_mul, Z.mul_comm. apply Z.mod_mul. lia. }
  rewrite Heven in H. cbn [Z.eqb negb] in H.
  destruct (bool_decide _ || bool_decide _); [done|].
  destruct (negb _ || negb _); [injection H as <- <-; split; [done|by left]|].
  peel H as splineleft Hleft. peel H as splineright Hright.
  destruct (fst splineleft || fst splineright);
    [injection H as <- <-; split; [done|by left]|].
  destruct (f_is_nan_or_inf _) eqn:Hfinite; injection H as <- <-.
  - split; [done|by left].
  - split; [done|]. right. by eexists.
Qed.

(** X25. An answer [(Y, W)] of [getYandWofTrajectory] is [(0, -1)] for a
    trajectory of fewer than four points or an [x] outside the x range of
    its points. Every other answer carries as [Y] the value at [x] of the
    spline through the points, as a float, and as [W] either [-1] or a float
    that is neither NaN nor infinite. *)
Theorem getYandWofTrajectory_answer (t : track) (x : F) (Y W : pynum F) :
  getYandWofTrajectory t x = Ok (Y, W) ->
  (((length t < 4)%nat \/ within (map px t) x = false)
   /\ Y = PInt 0 /\ W = PInt (-1))
  \/ ((4 <= length t)%nat /\ within (map px t) x = true
      /\ exists y,
           interpolating_spline (map xy t) x = Ok y /\ Y = PFloat y
           /\ (W = PInt (-1)
               \/ exists w, W = PFloat w /\ f_is_nan_or_inf w = false)).
Proof. apply getYandWofTrajectory_inversion. Qed.

(** X26. The resolution of two trajectories with points is the int [0]
    wherever [x] lies outside the x range of one of them, wherever both have
    fewer than four points, and wherever the queries for position and width
    both return and one of them answers with the width [-1]. *)
Theorem getResolutionOfTrajectories_zero (trajectory1 trajectory2 : track)
    (x : F) :
  trajectory1 <> [] -> trajectory2 <> [] ->
  within (map px trajectory1) x = false
  \/ within (map px trajectory2) x = false
  \/ ((length trajectory1 < 4)%nat /\ (length trajectory2 < 4)%nat)
  \/ (exists Y1 W1 Y2 W2,
         getYandWofTrajectory trajectory1 x = Ok (Y1, W1)
         /\ getYandWofTrajectory trajectory2 x = Ok (Y2, W2)
         /\ (W1 = PInt (-1) \/ W2 = PInt (-1))) ->
  getResolutionOfTrajectories trajectory1 trajectory2 x = Ok (PInt 0).
Proof.
  intros Hne1 Hne2 Hcase. unfold getResolutionOfTrajectories.
  destruct trajectory1 as [|p1 rest1]; [done|].
  destruct (within (map px (p1 :: rest1)) x) eqn:Hin1; [|done].
  destruct trajectory2 as [|p2 rest2]; [done|].
  destruct (within (map px (p2 :: rest2)) x) eqn:Hin2; [|done].
  cbn [negb].
  assert (Hqueries : exists Y1 W1 Y2 W2,
             getYandWofTrajectory (p1 :: rest1) x = Ok (Y1, W1)
             /\ getYandWofTrajectory (p2 :: rest2) x = Ok (Y2, W2)
             /\ (W1 = PInt (-1) \/ W2 = PInt (-1))).
  { destruct Hcase as [?|[?|[[Hs1 Hs2]|?]]]; [done|done| |done].
    exists (PInt 0), (PInt (-1)), (PInt 0), (PInt (-1)).
    unfold getYandWofTrajectory.
    apply Nat.ltb_lt in Hs1, Hs2. rewrite Hs1, Hs2. by split; [|split; [|left]]. }
  destruct Hqueries as (Y1 & W1 & Y2 & W2 & Hq1 & Hq2 & Hwidth).
  rewrite Hq1, Hq2. cbn [rbind fst snd].
  destruct (num_eqb W2 W1 && num_is_zero W1); [done|].
  destruct Hwidth as [->| ->]; cbn [num_negative Z.ltb Z.compare orb]; [done|].
  by rewrite orb_true_r.
Qed.

(** X27. A resolution that is a float comes from two trajectories of at
    least four points each, with [x] inside the x range of both: it is the
    distance of the two positions divided by half the sum of the two widths,
    where both widths are floats that are neither NaN nor infinite nor
    negative. The width [-1] of a failed query never enters it. *)
Theorem getResolutionOfTrajectories_float (trajectory1 trajectory2 : track)
    (x r : F) :
  getResolutionOfTrajectories trajectory1 trajectory2 x = Ok (PFloat r) ->
  exists y1 w1 y2 w2,
    getYandWofTrajectory trajectory1 x = Ok (PFloat y1, PFloat w1)
    /\ getYandWofTrajectory trajectory2 x = Ok (PFloat y2, PFloat w2)
    /\ (4 <= length trajectory1)%nat /\ (4 <= length trajectory2)%nat
    /\ within (map px trajectory1) x = true
    /\ within (map px trajectory2) x = true
    /\ f_is_nan_or_inf w1 = false /\ f_is_nan_or_inf w2 = false
    /\ f_ltb w1 (f_of_Z 0) = false /\ f_ltb w2 (f_of_Z 0) = false
    /\ r = f_div (f_abs (f_sub y1 y2)) (f_mul (f_of_Q 0.5) (f_add w1 w2)).
Proof.
  unfold getResolutionOfTrajectories. intros H.
  destruct trajectory1 as [|p1 rest1]; [done|].
  destruct (negb (within (map px (p1 :: rest1)) x)); [done|].
  destruct trajectory2 as [|p2 rest2]; [done|].
  destruct (negb (within (map px (p2 :: rest2)) x)); [done|].
  peel H as yw1 Hq1. peel H as yw2 Hq2.
  destruct yw1 as [Y1 W1], yw2 as [Y2 W2]. cbn [fst snd] in H.
  destruct (num_eqb W2 W1 && num_is_zero W1); [done|].
  destruct (num_negative W1 || num_negative W2) eqn:Hneg; [done|].
  apply orb_false_iff in Hneg as [Hneg1 Hneg2].
  destruct (f_eqb _ (f_of_Z 0)); [done|]. injection H as <-.
  destruct (getYandWofTrajectory_inversion _ _ _ _ Hq1)
    as [(_ & _ & ->)|(Hlen1 & Hin1 & y1 & _ & -> & [->|(w1 & -> & Hfin1)])];
    [done|done|].
  destruct (getYandWofTrajectory_inversion _ _ _ _ Hq2)
    as [(_ & _ & ->)|(Hlen2 & Hin2 & y2 & _ & -> & [->|(w2 & -> & Hfin2)])];
    [done|done|].
  exists y1, w1, y2, w2. cbn [num_negative] in Hneg1, Hneg2.
  repeat (split; [done|]). done.
Qed.

End ResolutionProperties.

(** ** Flow markers *)

Section MarkerProperties.
Context {F : Type} {FO : Float64Ops F} {EX : Extern F} {ES : ExternShapes F}.

Lemma get1_outcome {A : Type} (l : list A) (i : Z) :
  (exists a, get1 l i = Ok a)
  \/ (get1 l i = Raise IndexError
      /\ ~ (- Z.of_nat (length l) <= i < Z.of_nat (length l))).
Proof.
  unfold get1, axis_index.
  destruct ((0 <=? i) && (i <? Z.of_nat (length l))) eqn:Hpos.
  - apply andb_true_iff in Hpos as [H0 H1].
    destruct (lookup_lt_is_Some_2 l (Z.to_nat i)) as [a Ha]; [lia|].
    left. exists a. by rewrite Ha.
  - destruct ((- Z.of_nat (length l) <=? i) && (i <? 0)) eqn:Hneg.
    + apply andb_true_iff in Hneg as [H0 H1].
      destruct (lookup_lt_is_Some_2 l (Z.to_nat (i + Z.of_nat (length l))))
        as [a Ha]; [lia|].
      left. exists a. by rewrite Ha.
    + right. split; [done|]. intros Hin.
      apply andb_false_iff in Hpos, Hneg. lia.
Qed.

Lemma scan_markers_answer (contours : list contour)
    (outerzoneindex innerzoneindex : Z) (zonebox : list (Z * Z))
    (areavariance : F) :
  forall count i,
    (i + count = length contours)%nat ->
    match scan_markers contours outerzoneindex innerzoneindex zonebox
                       areavariance i count with
    | Ok (a, b) =>
        (a = -1 /\ b = -1)
        \/ exists j k,
             a = Z.of_nat j /\ b = Z.of_nat k
             /\ (i <= j < k)%nat /\ (k < length contours)%nat
             /\ Z.of_nat j <> outerzoneindex /\ Z.of_nat j <> innerzoneindex
             /\ strictly_inside zonebox (centre_of (contours !!! j)) = false
             /\ f_eqb (contourArea (contours !!! j)) (f_of_Z 0) = false
             /\ f_eqb (contourArea (contours !!! k)) (f_of_Z 0) = false
    | Raise e =>
        e = IndexError
        /\ ~ (- 2 * Z.of_nat (length contours) <= innerzoneindex
              < 2 * Z.of_nat (length contours))
    | Diverge => False
    end.
Proof.
  induction count as [|count IH]; intros i Hi; cbn [scan_markers]; [by left|].
  cbv zeta.
  assert (Hnext :
    match scan_markers contours outerzoneindex innerzoneindex zonebox
                       areavariance (S i) count with
    | Ok (a, b) =>
        (a = -1 /\ b = -1)
        \/ exists j k,
             a = Z.of_nat j /\ b = Z.of_nat k
             /\ (i <= j < k)%nat /\ (k < length contours)%nat
             /\ Z.of_nat j <> outerzoneindex /\ Z.of_nat j <> innerzoneindex
             /\ strictly_inside zonebox (centre_of (contours !!! j)) = false
             /\ f_eqb (contourArea (contours !!! j)) (f_of_Z 0) = false
             /\ f_eqb (contourArea (contours !!! k)) (f_of_Z 0) = false
    | Raise e =>
        e = IndexError
        /\ ~ (- 2 * Z.of_nat (length contours) <= innerzoneindex
              < 2 * Z.of_nat (length contours))
    | Diverge => False
    end).
  { specialize (IH (S i) ltac:(lia)).
    destruct (scan_markers _ _ _ _ _ (S i) count) as [[a b]|e|]; [|done|done].
    destruct IH as [?|(j & k & Ha & Hb & Hjk & Hrest)]; [by left|].
    right. exists j, k. split; [done|]. split; [done|]. split; [lia|done]. }
  assert (Hcentre : centers_of contours !!! i = centre_of (contours !!! i)).
  { unfold centers_of. rewrite lookup_total_app_l by (rewrite length_map; lia).
    apply list_lookup_total_fmap. lia. }
  destruct ((Z.of_nat i =? outerzoneindex) || (Z.of_nat i =? innerzoneindex))
    eqn:Hzone; [exact Hnext|].
  apply orb_false_iff in Hzone as [Ho Hn]. apply Z.eqb_neq in Ho, Hn.
  rewrite Hcentre.
  destruct (strictly_inside zonebox (centre_of (contours !!! i))) eqn:Hin;
    [exact Hnext|].
  destruct (get1_outcome (centers_of contours) innerzoneindex)
    as [[zonecentre ->]|[-> Hout]]; cbn [rbind].
  - destruct (strictly_inside zonebox (_, _)); [exact Hnext|].
    destruct (first_index _ (S i) (length contours - i - 1)) as [k|] eqn:Hk;
      [|exact Hnext].
    apply first_index_sound in Hk as [Hrange Hacc].
    right. exists i, k. split; [done|]. split; [done|].
    split; [lia|]. split; [lia|]. split; [done|]. split; [done|].
    split; [done|]. unfold accepts_partner in Hacc.
    destruct (strictly_inside (contours !!! k) _); [|done].
    destruct (f_eqb (contourArea (contours !!! i)) (f_of_Z 0)); [done|].
    destruct (f_eqb (contourArea (contours !!! k)) (f_of_Z 0)); [done|].
    done.
  - split; [done|]. unfold centers_of in Hout.
    rewrite length_app, length_map, length_replicate in Hout. lia.
Qed.

(** X28. Every answer of [findFlowMarkers] is either the sentinel
    [(-1, -1)] or a pair [(i, k)] of contour indices with [i < k], where [i]
    is neither of the two zone indices, the centre of contour [i] does not
    lie strictly inside the zone box, and neither contour has the area zero.
    It raises nothing but an [IndexError], and this only for an inner zone
    index outside the list of centres, which is twice as long as the list of
    contours. *)
Theorem findFlowMarkers_answer (contours : list contour)
    (outerzoneindex innerzoneindex : Z) (zonebox : list (Z * Z))
    (areavariance : F) :
  match findFlowMarkers contours outerzoneindex innerzoneindex zonebox
                        areavariance with
  | Ok (a, b) =>
      (a = -1 /\ b = -1)
      \/ exists i k,
           a = Z.of_nat i /\ b = Z.of_nat k
           /\ (i < k)%nat /\ (k < length contours)%nat
           /\ Z.of_nat i <> outerzoneindex /\ Z.of_nat i <> innerzoneindex
           /\ strictly_inside zonebox (centre_of (contours !!! i)) = false
           /\ f_eqb (contourArea (contours !!! i)) (f_of_Z 0) = false
           /\ f_eqb (contourArea (contours !!! k)) (f_of_Z 0) = false
  | Raise e =>
      e = IndexError
      /\ ~ (- 2 * Z.of_nat (length contours) <= innerzoneindex
            < 2 * Z.of_nat (length contours))
  | Diverge => False
  end.
Proof.
  unfold findFlowMarkers.
  pose proof (scan_markers_answer contours outerzoneindex innerzoneindex
                zonebox areavariance (length contours) 0 eq_refl) as H.
  destruct (scan_markers _ _ _ _ _ 0 (length contours)) as [[a b]|e|];
    [|done|done].
  destruct H as [?|(i & k & Ha & Hb & Hik & Hrest)]; [by left|].
  right. exists i, k. split; [done|]. split; [done|]. split; [lia|done].
Qed.

End MarkerProperties.

(** ** Inverse flow direction *)

Section FlowDirectionProperties.
Context {F : Type} {FO : Float64Ops F} {ED : ExternDot F}.

Lemma matrix_dot_shape (matrix : list (list F)) (v : list F) (n : nat) :
  Forall (fun row => length row = n) matrix ->
  matrix <> [] ->
  matrix_dot matrix v
  = if (length v =? n)%nat
    then Ok (map (fun row => vector_dot row v) matrix)
    else Raise ValueError.
Proof.
  intros Hrows Hne. unfold matrix_dot.
  destruct (length v =? n)%nat eqn:Hlen.
  - apply Nat.eqb_eq in Hlen.
    rewrite (proj2 (forallb_forall _ matrix)); [done|].
    intros row Hrow. rewrite Forall_forall in Hrows.
    apply Nat.eqb_eq. rewrite Hlen. by apply Hrows, list_elem_of_In.
  - apply Nat.eqb_neq in Hlen. destruct matrix as [|row matrix]; [done|].
    inversion Hrows as [|? ? Hrow _]; subst. cbn [forallb].
    assert (Hfirst : (length row =? length v)%nat = false)
      by (apply Nat.eqb_neq; lia).
    by rewrite Hfirst.
Qed.

(** X29. [getInverseFlowDirection] overwrites the list of markers that it is
    given. Called with a 3 x 3 matrix on two markers of two coordinates each
    it returns a direction and leaves in the list the two transformed
    markers, which have three coordinates; a second call on the same list
    therefore raises a [ValueError]. *)
Theorem getInverseFlowDirection_overwrites (markers : list (list F))
    (transmatrix : list (list F)) :
  length transmatrix = 3%nat ->
  Forall (fun row => length row = 3%nat) transmatrix ->
  length markers = 2%nat ->
  Forall (fun marker => length marker = 2%nat) markers ->
  exists inverseflow after,
    getInverseFlowDirection markers transmatrix = Ok (Some inverseflow, after)
    /\ length after = 2%nat
    /\ Forall (fun marker => length marker = 3%nat) after
    /\ getInverseFlowDirection after transmatrix = Raise ValueError.
Proof.
  intros Hrows Hcols Hlen Hmarkers.
  destruct markers as [|marker0 [|marker1 [|]]]; try done.
  inversion Hmarkers as [|? ? Hm0 Hrest]; subst.
  inversion Hrest as [|? ? Hm1 _]; subst.
  assert (Hne : transmatrix <> []) by (by intros ->).
  unfold getInverseFlowDirection.
  rewrite !(matrix_dot_shape transmatrix _ 3 Hcols Hne).
  rewrite !length_app, Hm0, Hm1. cbn [length Nat.add Nat.eqb rbind].
  set (t0 := map _ transmatrix). set (t1 := map _ transmatrix).
  assert (Ht0 : length t0 = 3%nat) by (unfold t0; by rewrite length_map).
  assert (Ht1 : length t1 = 3%nat) by (unfold t1; by rewrite length_map).
  destruct (get1_in_range t0 0) as (x0 & _ & ->); [lia|].
  destruct (get1_in_range t1 0) as (x1 & _ & ->); [lia|].
  destruct (get1_in_range t0 1) as (y0 & _ & ->); [lia|].
  destruct (get1_in_range t1 1) as (y1 & _ & ->); [lia|].
  cbn [rbind]. eexists _, _. split; [reflexivity|].
  split; [done|]. split; [by repeat constructor|].
  rewrite (matrix_dot_shape transmatrix _ 3 Hcols Hne).
  by rewrite length_app, Ht0.
Qed.

End FlowDirectionProperties.

(** ** Evaluation on concrete data *)

Import Exact.

Lemma exact_div_self (n : Z) : 0 < n -> f_div (f_of_Z n) (f_of_Z n) = f_one (F := Q).
Proof.
  intros Hn. change (Qred (inject_Z n / inject_Z n) = Qred 1). apply Qred_complete.
  apply Qmult_inv_r. unfold inject_Z, Qeq. simpl. lia.
Qed.

Lemma overlap_self_and_symmetric_witness :
  calculateTrajectoriesOverlap upper upper = f_one
  /\ calculateTrajectoriesOverlap upper lower = calculateTrajectoriesOverlap lower upper.
Proof.
  destruct (overlap_self_and_symmetric exact_div_self) as [Hself Hsym].
  split; [apply Hself; vm_compute; done | apply Hsym].
Defined.

Lemma combineTrajectories_disjoint_witness :
  length (combineTrajectories [upper] [lower] (f_of_Q 0.75) true (f_of_Z 10)) = 2%nat
  /\ combineTrajectories [upper] [lower] (f_of_Q 0.75) true (f_of_Z 10) ≡ₚ [upper; lower].
Proof.
  apply (combineTrajectories_disjoint [upper] [lower]).
  intros i j a b Hij Ha Hb.
  destruct i as [|[|i]], j as [|[|j]]; try done;
    injection Ha as <-; injection Hb as <-; vm_compute; reflexivity.
Defined.

(** C7 as stated fails: no trajectory of the first list is a duplicate of
    one of the second, in either order, yet the first list holds a
    trajectory twice and only one copy is returned: two trajectories for
    three. *)
Lemma cross_pairs_not_enough :
  (forall a b, a ∈ [upper; upper] -> b ∈ [lower] ->
     criteria (f_of_Q 0.75) true (f_of_Z 10) a b = false
     /\ criteria (f_of_Q 0.75) true (f_of_Z 10) b a = false)
  /\ combineTrajectories [upper; upper] [lower] (f_of_Q 0.75) true (f_of_Z 10)
     = [lower; upper]
  /\ length (combineTrajectories [upper; upper] [lower] (f_of_Q 0.75) true
                                 (f_of_Z 10))
     <> (length [upper; upper] + length [lower])%nat.
Proof.
  split; [|split; [vm_compute; reflexivity | vm_compute; lia]].
  intros a b Ha Hb.
  apply list_elem_of_singleton in Hb as ->.
  assert (Hupper : a = upper).
  { apply elem_of_cons in Ha as [->|Ha]; [done|].
    by apply list_elem_of_singleton in Ha. }
  subst a. split; vm_compute; reflexivity.
Qed.

Lemma exact_distance_laws : DistanceLaws (F := Q).
Proof.
  split.
  - reflexivity.
  - reflexivity.
  - intros a b. cbn. apply negb_false_iff, Qle_bool_iff.
    unfold qsqrt. rewrite Qred_correct. unfold Qle, inject_Z. cbn [Qnum Qden].
    generalize (Z.sqrt_nonneg (Qnum (a * a + b * b) * qscale * qscale
                               / Z.pos (Qden (a * a + b * b)))). lia.
  - intros z a _ Hz Hlt Hnn. cbn in *.
    apply negb_false_iff, Qle_bool_iff in Hlt, Hnn.
    apply Qeq_bool_iff in Hz. apply Qeq_bool_iff.
    apply Qle_antisym; [by rewrite <- Hz | done].
  - intros y a Ha Hlt. cbn in *.
    apply Qeq_bool_iff in Ha. apply negb_true_iff in Hlt. apply negb_true_iff.
    destruct (Qle_bool 0 y) eqn:Hy; [|done].
    apply Qle_bool_iff in Hy. rewrite <- Ha in Hy.
    apply Qle_bool_iff in Hy. congruence.
Qed.

Lemma hausdorff_empty_is_duplicate_witness :
  calculateTrajectoriesDistanceHausdorff [] upper = f_zero
  /\ calculateTrajectoriesDistanceHausdorff upper [] = f_zero
  /\ f_eqb (calculateTrajectoriesDistanceHausdorff upper upper) f_zero = true
  /\ check_present (criteria (f_of_Q 0.75) true (f_of_Z 10)) [] [upper] 0 [upper]
     = ([upper], true)
  /\ merge_loop (criteria (f_of_Q 0.75) true (f_of_Z 10)) [[]; lower] [upper]
     = merge_loop (criteria (f_of_Q 0.75) true (f_of_Z 10)) [lower] [upper]
  /\ merge_loop (criteria (f_of_Q 0.75) true (f_of_Z 10)) [[]; lower] []
     = merge_loop (criteria (f_of_Q 0.75) true (f_of_Z 10)) [lower] [[]].
Proof.
  destruct (hausdorff_empty_is_duplicate (f_of_Q 0.75) (f_of_Z 10)
              upper upper [] [lower])
    as (Hleft & Hright & Hself & Hflag & Hfirst).
  split; [exact Hleft|]. split; [exact Hright|].
  split; [apply Hself; [exact exact_distance_laws | intros; reflexivity]|].
  destruct (Hflag eq_refl) as [Hcheck Hloop].
  split; [exact Hcheck|]. split; [exact Hloop | exact Hfirst].
Defined.

(** C10 as stated fails: an empty trajectory popped while nothing has been
    accepted yet becomes an entry of the result. *)
Lemma empty_trajectory_kept :
  combineTrajectories [[]] [] (f_of_Q 0.75) true (f_of_Z 10) = [[]].
Proof. reflexivity. Qed.

Lemma findSeparationZoneBoundaries_first_pair_witness :
  findSeparationZoneBoundaries [outer_box; inner_box] box_hierarchy
    (f_of_Z 700) (f_of_Q 0.8) (f_of_Q 0.1) = (0, 1)
  /\ findSeparationZoneBoundaries [outer_box; inner_box] box_hierarchy
       (f_of_Z 700) (f_of_Q 0.8) (f_of_Q 0.1) <> (-1, -1).
Proof.
  apply (findSeparationZoneBoundaries_first_pair
           [outer_box; inner_box] box_hierarchy _ _ _ 0 1);
    [reflexivity | simpl; lia | simpl; lia | reflexivity |].
  intros i' j' Hj' [Hlt|[-> Hlt]]; [lia|].
  assert (j' = 0%nat) as -> by lia. reflexivity.
Defined.

(** C1 as stated fails: the outer rectangle has area 1000, above the
    threshold 900, and its child has ratio 0.8, yet the child's own area 800
    is below the threshold and the locator answers [(-1, -1)]. *)
Lemma described_pair_rejected :
  described_pair [outer_box; inner_box] box_hierarchy
    (f_of_Z 900) (f_of_Q 0.8) (f_of_Q 0.1) 0 1 = true
  /\ findSeparationZoneBoundaries [outer_box; inner_box] box_hierarchy
       (f_of_Z 900) (f_of_Q 0.8) (f_of_Q 0.1) = (-1, -1).
Proof. split; reflexivity. Qed.

Lemma findPathOnImage_corner_to_corner_witness :
  findPathOnImage (bright 10 10) (0, 0) (9, 9) 50 10 4 = Ok [].
Proof.
  apply (findPathOnImage_corner_to_corner (bright 10 10) 50 10 4).
  - unfold rectangular. vm_compute. repeat constructor.
  - vm_compute. lia.
  - vm_compute. lia.
  - lia.
Defined.

(** C2 as stated fails: every pixel of the 10 x 10 image is 255, and the
    result from corner to corner is the empty list. *)
Lemma bright_corners_no_path :
  Forall (Forall (fun v => v <> 0)) (bright 10 10)
  /\ findPathOnImage (bright 10 10) (0, 0) (10 - 1, 10 - 1) 50 10 4 = Ok [].
Proof.
  split; [|vm_compute; reflexivity].
  unfold bright. apply Forall_replicate, Forall_replicate. lia.
Qed.

Lemma tracers_return_valid_trajectories_witness :
  Forall (fun t : trajectory (F := Q) => (2 <= length t)%nat)
         [[(11, 18, PInt 10); (15, 16, PInt 10); (20, 15, PInt 0)]]
  /\ Forall (fun t : trajectory (F := Q) => (2 <= length t)%nat)
            [[(4, 4, PInt 10); (5, 5, PInt 10); (7, 7, PInt 10)]].
Proof.
  destruct (tracers_return_valid_trajectories (F := Q)) as [Hgradient Hdijkstra].
  split.
  - apply (Hgradient (bright 30 30) [] [(20, 15, PInt 0)] (f_of_Z (-1), f_of_Z 0)
                     1 (f_of_Q 0.2) 1 (f_of_Z 1)).
    vm_compute. reflexivity.
  - apply (Hdijkstra (bright 12 12) [(4, 4, PInt 1)] [(7, 7, PInt 0)] 50 10 4 2).
    vm_compute. reflexivity.
Defined.

(** C5 (defect). The loop of the gradient tracer always stops and begins at
    most [maxiteration + 1] rounds; it does begin that many, one more than
    [maxiteration]: on a bright 30 x 30 image with [maxiteration = 1] the
    loop runs twice and appends two points to the end point. *)
Theorem trace_rounds_exceed_maxiteration :
  (forall (F : Type) (FO : Float64Ops F) (image : array2)
          (startpoints : list point3) (flow : vec) (maxiteration : Z)
          (gradientfactor : F) (densityrad : Z) (maxattraction : F)
          (endpoint : point3),
      match trace_endpoint image startpoints flow maxiteration gradientfactor
                           densityrad maxattraction endpoint with
      | Ok (_, rounds) => (rounds <= S (Z.to_nat maxiteration))%nat
      | Raise _ => True
      | Diverge => False
      end)
  /\ trace_endpoint (bright 30 30) [] (f_of_Z (-1), f_of_Z 0) 1 (f_of_Q 0.2) 1
                    (f_of_Z 1) (20, 15, PInt 0)
     = Ok ([(20, 15, PInt 0); (15, 16, PInt 10); (11, 18, PInt 10)], 2%nat).
Proof.
  split.
  - intros. apply trace_endpoint_rounds.
  - vm_compute. reflexivity.
Qed.

Lemma findWidthOfTrajectory_coordinates_witness :
  (exists densityimage kept,
      density_image band 1 = Ok densityimage
      /\ sampled_points densityimage (Z.of_nat (nrows band))
                        (Z.of_nat (ncols band)) (Z.of_nat (nrows band) / 2)
                        straight (normalize (vec_of_Z (7 - 2) (5 - 5)))
         = Ok kept
      /\ kept `sublist_of` straight
      /\ map xy measured = map xy kept)
  /\ map xy measured `sublist_of` map xy straight
  /\ (length measured <= length straight)%nat
  /\ (length measured = length straight -> map xy measured = map xy straight).
Proof.
  apply (findWidthOfTrajectory_coordinates band straight 1 measured).
  vm_compute. reflexivity.
Defined.

(** C9 as stated fails: the third point repeats the second, its
    cross-section is empty, and two points are returned for three. *)
Lemma repeated_point_skipped :
  match findWidthOfTrajectory band (straight ++ [(7, 5, PInt 10)]) 1 with
  | Ok new => map xy new = [(2, 5); (7, 5)]
  | _ => False
  end.
Proof. vm_compute. reflexivity. Qed.

(** C3 (defect). Cutting the sample at the first zero of each half raises an
    [IndexError] whenever the half towards the start of the sample holds no
    zero; on a bright 10 x 10 image the profiler raises it for a horizontal
    trajectory in row 2. *)
Theorem truncation_raises_without_zero :
  (forall (wvalues : list Z) (maxwidth : Z),
      Forall (fun x => x <> 0) (slice_down wvalues maxwidth) ->
      truncate_at_zeros wvalues maxwidth = Raise IndexError)
  /\ findWidthOfTrajectory (bright 10 10) [(2, 2, PInt 10); (7, 2, PInt 10)] 1
     = Raise IndexError.
Proof.
  split; [apply truncate_at_zeros_raises | vm_compute; reflexivity].
Qed.



(** Between pixels away from the border the search does find a path: on a
    bright 12 x 12 image, with the default parameters, from [(4, 4)] to
    [(7, 7)]. *)
Lemma interior_points_connected :
  findPathOnImage (bright 12 12) (4, 4) (7, 7) 50 10 4
  = Ok [(4, 4); (6, 6); (7, 7)].
Proof. vm_compute. reflexivity. Qed.

Lemma calculateTrajectoryRectangle_encloses_witness :
  let rect := calculateTrajectoryRectangle upper in
  fst (fst rect) <= 10 - 5 - 1 /\ snd (fst rect) <= 0 - 5 - 1
  /\ 10 + 5 + 1 < fst (snd rect) /\ 0 + 5 + 1 < snd (snd rect).
Proof.
  apply (calculateTrajectoryRectangle_encloses upper (10, 0, PInt 10)).
  right. left.
Defined.

Lemma calculateTrajectoriesOverlap_short_witness :
  calculateTrajectoriesOverlap [(3, 4, PInt 10)] upper = f_zero.
Proof.
  apply calculateTrajectoriesOverlap_short. left. simpl. lia.
Defined.

Lemma exact_ratio_laws : RatioLaws (F := Q).
Proof.
  split; [reflexivity|reflexivity|].
  intros a b Ha Hab. cbn.
  split; apply Qle_bool_iff; rewrite Qred_correct.
  - apply Qle_shift_div_l; [unfold Qlt, inject_Z; simpl; lia|].
    unfold Qle, inject_Z. simpl. lia.
  - apply Qle_shift_div_r; [unfold Qlt, inject_Z; simpl; lia|].
    unfold Qle, inject_Z. simpl. lia.
Qed.

Lemma calculateTrajectoriesOverlap_range_witness :
  f_leb f_zero (calculateTrajectoriesOverlap upper lower) = true
  /\ f_leb (calculateTrajectoriesOverlap upper lower) f_one = true.
Proof. apply calculateTrajectoriesOverlap_range, exact_ratio_laws. Defined.

Lemma exact_order_laws : OrderLaws (F := Q).
Proof.
  assert (Hlt : forall x y : Q, negb (Qle_bool y x) = false -> (y <= x)%Q).
  { intros x y H. by apply negb_false_iff, Qle_bool_iff in H. }
  split; cbn.
  - reflexivity.
  - intros x _. apply Qeq_bool_iff. reflexivity.
  - intros x y Hxy. apply negb_true_iff in Hxy. apply negb_false_iff.
    apply Qle_bool_iff. destruct (Qlt_le_dec x y) as [Hl|Hle].
    + by apply Qlt_le_weak.
    + apply Qle_bool_iff in Hle. congruence.
  - intros x y _ _ Hxy Hyx. apply Hlt in Hxy, Hyx.
    apply Qeq_bool_iff. by apply Qle_antisym.
  - intros x y z _ _ _ Hxy Hyz. apply Hlt in Hxy, Hyz.
    apply negb_false_iff, Qle_bool_iff. by apply Qle_trans with y.
Qed.


Lemma combineTrajectories_all_duplicates_witness :
  exists t,
    combineTrajectories [upper] [lower; level] (3 # 4)%Q true (inject_Z 1000)
    = [t]
    /\ t ∈ [upper] ++ [lower; level]
    /\ (forall u, u ∈ [upper] ++ [lower; level] -> (length u <= length t)%nat).
Proof.
  apply combineTrajectories_all_duplicates; [discriminate|].
  intros a b Ha Hb.
  repeat (apply elem_of_cons in Ha as [->|Ha]);
    try (by apply elem_of_nil in Ha);
    repeat (apply elem_of_cons in Hb as [->|Hb]);
    try (by apply elem_of_nil in Hb); vm_compute; reflexivity.
Defined.

Lemma density_image_values_witness :
  exists d,
    density_image band 1 = Ok d
    /\ has_shape (nrows band) (ncols band) d
    /\ forall y x v,
         0 <= y < Z.of_nat (nrows band) -> 0 <= x < Z.of_nat (ncols band) ->
         get2 band y x = Ok v ->
         get2 d y x
         = Ok (if (1 <=? y) && (y <? Z.of_nat (nrows band) - 1) && (1 <=? x)
                  && (x <? Z.of_nat (ncols band) - 1) && negb (v =? 0)
               then to_int32 (sum2 (slice2 band (y - 1) (y + 1) (x - 1) (x + 1)))
               else 0).
Proof.
  apply (density_image_values band 1); [|lia].
  unfold rectangular. vm_compute. repeat constructor.
Defined.

(** A start point in a dark row of the band image. *)
Lemma findPathOnImage_dead_pixel_witness :
  findPathOnImage band (5, 1) (5, 5) 50 10 1 = Ok [].
Proof.
  apply (findPathOnImage_dead_pixel band (5, 1) (5, 5) 50 10 1 0 255).
  - unfold rectangular. vm_compute. repeat constructor.
  - lia.
  - vm_compute. split; [discriminate|reflexivity].
  - vm_compute. split; [discriminate|reflexivity].
  - vm_compute. split; [discriminate|reflexivity].
  - vm_compute. split; [discriminate|reflexivity].
  - reflexivity.
  - reflexivity.
  - left. left. reflexivity.
Defined.

Lemma findPathOnImage_start_outside_witness :
  findPathOnImage (bright 10 10) (10, 0) (5, 5) 50 10 4 = Raise IndexError.
Proof.
  apply (findPathOnImage_start_outside (bright 10 10) (10, 0) (5, 5) 50 10 4).
  - unfold rectangular. vm_compute. repeat constructor.
  - lia.
  - vm_compute. intros [[_ Hx] _]. discriminate Hx.
Defined.

Lemma findPathOnImage_path_witness :
  [(4, 4); (6, 6); (7, 7)] = []
  \/ ((2 <= length [(4, 4); (6, 6); (7, 7)])%nat
      /\ last [(4, 4); (6, 6); (7, 7)] = Some (7, 7)
      /\ exists d,
           density_image (bright 12 12) 4 = Ok d
           /\ Forall (fun q => exists v, get2 d (snd q) (fst q) = Ok v /\ 50 < v)
                     [(4, 4); (6, 6); (7, 7)]).
Proof.
  apply (findPathOnImage_path (bright 12 12) (4, 4) (7, 7) 50 10 4).
  - unfold rectangular. vm_compute. repeat constructor.
  - lia.
  - vm_compute. reflexivity.
Defined.

Lemma getTrajectoriesFromImageDijkstra_dark_witness :
  getTrajectoriesFromImageDijkstra (F := Q) (zeros 5 5) [(1, 1, PInt 10)]
                                   [(3, 3, PInt 1)] 50 10 4 2
  = Ok [].
Proof.
  apply (getTrajectoriesFromImageDijkstra_dark (zeros 5 5)).
  - unfold rectangular. vm_compute. repeat constructor.
  - unfold zeros. apply Forall_replicate, Forall_replicate. reflexivity.
Defined.

Lemma getTrajectoriesFromImage_dark_witness :
  getTrajectoriesFromImage (F := Q) (zeros 5 5) [(1, 1, PInt 10)]
                           [(3, 3, PInt 1)] (f_of_Z (-1), f_of_Z 0) 100
                           (f_of_Q 0.2) 1 (f_of_Z 1)
  = Ok [].
Proof.
  apply (getTrajectoriesFromImage_dark (zeros 5 5) [(1, 1, PInt 10)]
           [(3, 3, PInt 1)] (f_of_Z (-1), f_of_Z 0) 100 (f_of_Q 0.2) 1
           (f_of_Z 1)); [reflexivity | reflexivity | reflexivity |].
  unfold zeros. apply Forall_replicate, Forall_replicate. reflexivity.
Defined.

Lemma getTrajectoriesFromImage_endpoints_witness :
  exists used,
    used `sublist_of` [(20, 15, @PInt Q 0)]
    /\ Forall2 (fun t endpoint => last t = Some endpoint)
               [[(11, 18, PInt 10); (15, 16, PInt 10); (20, 15, @PInt Q 0)]]
               used.
Proof.
  apply (getTrajectoriesFromImage_endpoints (bright 30 30) []
           [(20, 15, PInt 0)] (f_of_Z (-1), f_of_Z 0) 1 (f_of_Q 0.2) 1
           (f_of_Z 1)).
  vm_compute. reflexivity.
Defined.

Lemma getTrajectoriesFromImageDijkstra_trajectories_witness :
  (length [[(7, 7, @PInt Q 10); (6, 6, PInt 10); (4, 4, PInt 10)]]
   <= length [(4, 4, @PInt Q 0)] * length [(7, 7, @PInt Q 10)])%nat
  /\ exists d,
       density_image (bright 12 12) 4 = Ok d
       /\ Forall (fun t : trajectory (F := Q) =>
            (exists startpoint adjusted,
                startpoint ∈ [(7, 7, @PInt Q 10)]
                /\ snap_startpoint (bright 12 12) startpoint 50 2 = Ok adjusted
                /\ head t = Some (px adjusted, py adjusted, PInt 10))
            /\ Forall (fun p => pw p = PInt 10
                                /\ exists v, get2 d (py p) (px p) = Ok v
                                             /\ 50 < v) t)
          [[(7, 7, @PInt Q 10); (6, 6, PInt 10); (4, 4, PInt 10)]].
Proof.
  apply (getTrajectoriesFromImageDijkstra_trajectories (bright 12 12)
           [(7, 7, PInt 10)] [(4, 4, PInt 0)] 50 10 4 2
           [[(7, 7, PInt 10); (6, 6, PInt 10); (4, 4, PInt 10)]]).
  - unfold rectangular. vm_compute. repeat constructor.
  - lia.
  - vm_compute. reflexivity.
Defined.

Lemma getTrajectoriesFromImage_small_window_witness :
  match getTrajectoriesFromImage (F := Q) (bright 10 10) [] [(8, 5, PInt 1)]
                                 (f_of_Z (-1), f_of_Z 0) 1000 (f_of_Q 0.1) 1
                                 (f_of_Z 1) with
  | Ok trajectories => trajectories = []
  | Raise e => e = ValueError \/ e = IndexError
  | Diverge => False
  end.
Proof.
  apply (getTrajectoriesFromImage_small_window (bright 10 10) []
           [(8, 5, PInt 1)] (f_of_Z (-1), f_of_Z 0) 1000 (f_of_Q 0.1) 1
           (f_of_Z 1)); [reflexivity | reflexivity | reflexivity |].
  vm_compute. discriminate.
Defined.

(** With the default step factor and density radius the tracer fails on a
    bright 10 x 10 image. *)
Lemma small_image_raises :
  getTrajectoriesFromImage (F := Q) (bright 10 10) [] [(8, 5, PInt 1)]
                           (f_of_Z (-1), f_of_Z 0) 1000 (f_of_Q 0.1) 1
                           (f_of_Z 1)
  = Raise ValueError.
Proof. vm_compute. reflexivity. Qed.

Lemma sortCoordinatesByDistanceToPoint_sorted_witness :
  let distance (item : Z * Z) :=
    f_hypot (F := Q) (f_of_Z (fst item - 0)) (f_of_Z (snd item - 0)) in
  sortCoordinatesByDistanceToPoint (F := Q) square 0 0 ≡ₚ square
  /\ StronglySorted (fun a b => f_ltb (distance b) (distance a) = false)
                    (sortCoordinatesByDistanceToPoint square 0 0).
Proof.
  apply (sortCoordinatesByDistanceToPoint_sorted square 0 0);
    [apply exact_order_laws|].
  apply Forall_forall. reflexivity.
Defined.

Lemma sortCoordinates_nearest_witness :
  let distance (cx cy : Z) (item : Z * Z) :=
    f_hypot (F := Q) (f_of_Z (fst item - cx)) (f_of_Z (snd item - cy)) in
  let nearest (cx cy : Z) (p : Z * Z) :=
    p ∈ square
    /\ forall item, item ∈ square ->
                    f_ltb (distance cx cy item) (distance cx cy p) = false in
  match sortCoordinates (F := Q) square 10 10 with
  | Ok sorted =>
      exists topleft topright bottomleft bottomright,
        sorted = [topleft; topright; bottomleft; bottomright]
        /\ nearest 0 0 topleft /\ nearest 10 0 topright
        /\ nearest 0 10 bottomleft /\ nearest 10 10 bottomright
  | Raise e => e = IndexError /\ square = []
  | Diverge => False
  end.
Proof.
  apply (sortCoordinates_nearest square 10 10); [apply exact_order_laws|].
  reflexivity.
Defined.

(** The square comes back as top left, top right, bottom left, bottom
    right. *)
Lemma square_sorted :
  sortCoordinates (F := Q) square 10 10 = Ok [(1, 1); (9, 1); (1, 9); (9, 9)].
Proof. vm_compute. reflexivity. Qed.

Lemma sortTrajectoriesByWeightedCoordinates_sorted_witness :
  match sortTrajectoriesByWeightedCoordinates [lower; level; upper] with
  | Ok sorted =>
      Forall (fun t => t <> []) [lower; level; upper]
      /\ sorted ≡ₚ [lower; level; upper]
      /\ StronglySorted
           (fun a b => forall ka kb,
                calculateWeightedYOfTrajectory a = Ok ka ->
                calculateWeightedYOfTrajectory b = Ok kb ->
                f_ltb kb ka = false) sorted
  | Raise e => e = IndexError /\ Exists (fun t => t = []) [lower; level; upper]
  | Diverge => False
  end.
Proof.
  apply (sortTrajectoriesByWeightedCoordinates_sorted [lower; level; upper]);
    [apply exact_order_laws|].
  apply Forall_forall. reflexivity.
Defined.

Lemma calculateWeightedYOfTrajectory_stationary_witness :
  calculateWeightedYOfTrajectory [(3, 4, @PInt Q 10)] = Ok f_zero
  /\ calculateWeightedYOfTrajectory (F := Q) [] = Raise IndexError.
Proof.
  apply (calculateWeightedYOfTrajectory_stationary
           [(3, 4, PInt 10)] (3, 4, PInt 10)).
  - reflexivity.
  - reflexivity.
  - repeat constructor.
Defined.

Lemma exact_minima_inside (data : list Z) (order i : Z) :
  i ∈ argrelextrema_le (Extern := extern) data order ->
  0 <= i < Z.of_nat (length data).
Proof.
  cbn. unfold not_above_neighbours. intros Hi.
  apply list_elem_of_In, filter_In in Hi as [Hi _].
  apply list_elem_of_In, elem_of_seqZ in Hi. lia.
Qed.

Lemma findEndpointsOfTrajectories_endpoints_witness :
  let height := Z.of_nat (nrows band) in
  let width := Z.of_nat (ncols band) in
  let reach := f_trunc (f_mul (F := Q) (f_of_Q 0.7) (f_of_Z width)) in
  exists endpoints,
    findEndpointsOfTrajectories band (f_of_Q 0.7) (f_of_Q 0.05) = Ok endpoints
    /\ Forall (fun e : point3 (F := Q) =>
                 0 <= py e < height
                 /\ width - reach <= px e + 1 < width
                 /\ (exists v, get2 band (py e) (px e + 1) = Ok v /\ v <> 0)
                 /\ (forall x', px e + 1 < x' < width ->
                                get2 band (py e) x' = Ok 0)
                 /\ exists w, pw e = PInt w /\ 1 <= w) endpoints
    /\ (Forall (Forall (fun v => v = 0)) band -> endpoints = []).
Proof.
  apply (findEndpointsOfTrajectories_endpoints band (f_of_Q 0.7) (f_of_Q 0.05)).
  - reflexivity.
  - reflexivity.
  - unfold rectangular. vm_compute. repeat constructor.
  - apply exact_minima_inside.
  - vm_compute. reflexivity.
Defined.

(** The band ends in one end point, at the middle row. *)
Lemma band_endpoint :
  findEndpointsOfTrajectories band (f_of_Q 0.7) (f_of_Q 0.05)
  = Ok [(8, 5, PInt 1)].
Proof. vm_compute. reflexivity. Qed.

Lemma getYandWofTrajectory_answer_witness :
  (((length level < 4)%nat \/ within (map px level) (f_of_Z 20) = false)
   /\ PFloat 5%Q = PInt 0 /\ PFloat 10%Q = PInt (-1))
  \/ ((4 <= length level)%nat /\ within (map px level) (f_of_Z 20) = true
      /\ exists y,
           interpolating_spline (map xy level) (f_of_Z 20) = Ok y
           /\ PFloat 5%Q = PFloat y
           /\ (PFloat 10%Q = PInt (-1)
               \/ exists w, PFloat 10%Q = PFloat w
                            /\ f_is_nan_or_inf w = false)).
Proof.
  apply (getYandWofTrajectory_answer level (f_of_Z 20)).
  vm_compute. reflexivity.
Defined.

Lemma getResolutionOfTrajectories_zero_witness :
  getResolutionOfTrajectories upper lower (f_of_Z 5) = Ok (PInt 0).
Proof.
  apply getResolutionOfTrajectories_zero; [discriminate|discriminate|].
  right. right. left. split; simpl; lia.
Defined.

Lemma getResolutionOfTrajectories_float_witness :
  exists y1 w1 y2 w2,
    getYandWofTrajectory level (f_of_Z 20) = Ok (PFloat y1, PFloat w1)
    /\ getYandWofTrajectory level_below (f_of_Z 20) = Ok (PFloat y2, PFloat w2)
    /\ (4 <= length level)%nat /\ (4 <= length level_below)%nat
    /\ within (map px level) (f_of_Z 20) = true
    /\ within (map px level_below) (f_of_Z 20) = true
    /\ f_is_nan_or_inf w1 = false /\ f_is_nan_or_inf w2 = false
    /\ f_ltb w1 (f_of_Z 0) = false /\ f_ltb w2 (f_of_Z 0) = false
    /\ 5%Q = f_div (f_abs (f_sub y1 y2)) (f_mul (f_of_Q 0.5) (f_add w1 w2)).
Proof.
  apply (getResolutionOfTrajectories_float level level_below (f_of_Z 20) 5%Q).
  vm_compute. reflexivity.
Defined.

Lemma combineTrajectories_members_witness :
  let combined :=
    combineTrajectories [upper; lower] [level; upper] (3 # 4)%Q false
                        (inject_Z 10) in
  (forall t, t ∈ combined -> t ∈ [upper; lower] \/ t ∈ [level; upper])
  /\ (length combined <= length [upper; lower] + length [level; upper])%nat
  /\ (combined = [] <-> [upper; lower] = [] /\ [level; upper] = []).
Proof.
  exact (combineTrajectories_members [upper; lower] [level; upper] (3 # 4)%Q
           false (inject_Z 10)).
Defined.

(** The duplicate of the upper trajectory is met once only. *)
Lemma duplicate_dropped :
  combineTrajectories [upper; lower] [level; upper] (3 # 4)%Q false (inject_Z 10)
  = [upper; level; lower].
Proof. vm_compute. reflexivity. Qed.

Lemma findSeparationZoneBoundaries_answer_witness :
  let contours := [outer_box; inner_box] in
  let r := findSeparationZoneBoundaries contours box_hierarchy (f_of_Z 100)
                                        (f_of_Q 0.8) (f_of_Q 0.1) in
  (r = (-1, -1)
   /\ (length contours <> length box_hierarchy
       \/ forall i j, (i < length contours)%nat -> (j < length contours)%nat ->
                      zone_pair contours box_hierarchy (f_of_Z 100)
                                (f_of_Q 0.8) (f_of_Q 0.1) i j = false))
  \/ (length contours = length box_hierarchy
      /\ exists i j, r = (Z.of_nat i, Z.of_nat j)
                     /\ (i < length contours)%nat /\ (j < length contours)%nat
                     /\ i <> j
                     /\ zone_pair contours box_hierarchy (f_of_Z 100)
                                  (f_of_Q 0.8) (f_of_Q 0.1) i j = true).
Proof.
  exact (findSeparationZoneBoundaries_answer [outer_box; inner_box]
           box_hierarchy (f_of_Z 100) (f_of_Q 0.8) (f_of_Q 0.1)).
Defined.

Lemma sortTrajectoriesByEndpoint_sorted_witness :
  match sortTrajectoriesByEndpoint [lower; upper; level] with
  | Ok sorted =>
      Forall (fun t => t <> []) [lower; upper; level]
      /\ sorted ≡ₚ [lower; upper; level]
      /\ StronglySorted (fun a b => forall p q, last a = Some p ->
                                                last b = Some q ->
                                                py p <= py q) sorted
  | Raise e => e = IndexError /\ Exists (fun t => t = []) [lower; upper; level]
  | Diverge => False
  end.
Proof. exact (sortTrajectoriesByEndpoint_sorted [lower; upper; level]). Defined.

(** Sorted by end point, and the error for a trajectory without points. *)
Lemma endpoints_in_order :
  sortTrajectoriesByEndpoint [lower; upper; level] = Ok [upper; level; lower]
  /\ sortTrajectoriesByEndpoint [lower; []; level] = Raise IndexError.
Proof. split; vm_compute; reflexivity. Qed.

Lemma findMiddleOfConsecutiveNumbers_runs_witness :
  exists runs : list (list Z),
    concat runs = [3; 4; 5; 9; 10; 4]
    /\ Forall (fun g => exists b (k : nat), (0 < k)%nat /\ g = seqZ b (Z.of_nat k))
              runs
    /\ (forall k g1 g2 x y,
           runs !! k = Some g1 -> runs !! S k = Some g2 ->
           last g1 = Some x -> head g2 = Some y -> y <> x + 1)
    /\ findMiddleOfConsecutiveNumbers [3; 4; 5; 9; 10; 4]
       = map (fun g => (default 0 (head g) + Z.of_nat (length g) / 2,
                        Z.of_nat (length g))) runs.
Proof. exact (findMiddleOfConsecutiveNumbers_runs [3; 4; 5; 9; 10; 4]). Defined.

(** Three runs: 3 to 5, 9 to 10, and 4 alone. *)
Lemma runs_of_sample :
  findMiddleOfConsecutiveNumbers [3; 4; 5; 9; 10; 4] = [(4, 3); (10, 2); (4, 1)].
Proof. vm_compute. reflexivity. Qed.

Lemma findFlowMarkers_answer_witness :
  match findFlowMarkers [outer_box; inner_box; marker_left; marker_right] 0 1
                        outer_box (1 # 10)%Q with
  | Ok (a, b) =>
      (a = -1 /\ b = -1)
      \/ exists i k,
           a = Z.of_nat i /\ b = Z.of_nat k
           /\ (i < k)%nat
           /\ (k < length [outer_box; inner_box; marker_left; marker_right])%nat
           /\ Z.of_nat i <> 0 /\ Z.of_nat i <> 1
           /\ strictly_inside outer_box
                (centre_of ([outer_box; inner_box; marker_left; marker_right]
                            !!! i)) = false
           /\ f_eqb (contourArea ([outer_box; inner_box; marker_left;
                                   marker_right] !!! i)) (f_of_Z 0) = false
           /\ f_eqb (contourArea ([outer_box; inner_box; marker_left;
                                   marker_right] !!! k)) (f_of_Z 0) = false
  | Raise e =>
      e = IndexError
      /\ ~ (- 2 * Z.of_nat (length [outer_box; inner_box; marker_left;
                                    marker_right]) <= 1
            < 2 * Z.of_nat (length [outer_box; inner_box; marker_left;
                                    marker_right]))
  | Diverge => False
  end.
Proof.
  exact (findFlowMarkers_answer [outer_box; inner_box; marker_left; marker_right]
           0 1 outer_box (1 # 10)%Q).
Defined.

(** The two markers mirror each other at the centre of the inner box; an
    inner index beyond the list of centres raises, the index [-1] of a
    failed search for the zone does not. *)
Lemma markers_found :
  findFlowMarkers [outer_box; inner_box; marker_left; marker_right] 0 1
                  outer_box (1 # 10)%Q = Ok (2, 3)
  /\ findFlowMarkers [outer_box; inner_box; marker_left; marker_right] 0 8
                     outer_box (1 # 10)%Q = Raise IndexError
  /\ findFlowMarkers [outer_box; inner_box; marker_left; marker_right] 0 (-1)
                     outer_box (1 # 10)%Q = Ok (-1, -1).
Proof. repeat split; vm_compute; reflexivity. Qed.

Lemma getInverseFlowDirection_overwrites_witness :
  exists inverseflow after,
    getInverseFlowDirection [[0; 0]; [3; 4]]%Q identity3
    = Ok (Some inverseflow, after)
    /\ length after = 2%nat
    /\ Forall (fun marker => length marker = 3%nat) after
    /\ getInverseFlowDirection after identity3 = Raise ValueError.
Proof.
  apply (getInverseFlowDirection_overwrites [[0; 0]; [3; 4]]%Q identity3).
  - reflexivity.
  - repeat constructor.
  - reflexivity.
  - repeat constructor.
Defined.

(** From the marker [(3, 4)] back to the marker [(0, 0)]. *)
Lemma direction_of_markers :
  getInverseFlowDirection [[0; 0]; [3; 4]]%Q identity3
  = Ok (Some ((-3 # 5)%Q, (-4 # 5)%Q), [[0; 0; 1]; [3; 4; 1]]%Q).
Proof. vm_compute. reflexivity. Qed.
